(** * A shallow embedding of the trie engine of [trie.c]

    The program keeps every trie node in one growable pool ([struct Trie]) and
    links nodes by pool index.  This file embeds the pool allocator
    ([alloc_node]), insertion ([insert_text]), prefix descent ([find_prefix]),
    the completion traversal ([print_suggestions]) and the two graph dumps
    ([dump_dot_whole], [dump_dot_prefix]) as executable state-passing
    functions, and proves properties of them.  It then embeds what [main]
    puts around them: the reading and the splitting of the input
    ([io_read_file], [io_split_by_delim] of [io.h]), the options
    ([parse_options]), the two runs of [process_args] with [generate_dot] and
    [generate_graph], and [main] itself. *)

From Stdlib Require Import ZArith Ascii String Lia.
From stdpp Require Import base option list sorting gmap.

Local Open Scope Z_scope.

(** * The program *)

(** ** Constants of [trie.c] *)

Definition AC_BUFFER_CAP : Z := 1024 * 2.
Definition CHILDREN_COUNT : Z := 95.
Definition ASCII_OFFSET : Z := 32.            (* ' ' *)
Definition INVALID_OFFSET : Z := -1.
Definition INITIAL_POOL_CAP : Z := 1024 * 2.
Definition INT32_MAX : Z := 2147483647.
Definition INT32_MIN : Z := -2147483648.
Definition EXIT_FAILURE : Z := 1.

(** ** Data model *)

(** [Node]: the child table holds pool indices ([int32_t]), and a flag. *)
Record Node : Type := mkNode {
  children : list Z;
  terminal : bool
}.

(** [struct Trie].  [pool] maps a cell index to its contents for the cells
    that have been written; a cell of the backing store that was never
    written has no entry. *)
Record Trie_t : Type := mkTrie {
  pool : gmap Z Node;
  count : Z;
  capacity : Z
}.

(** One statement written to the DOT sink by the dump functions:
    ["\tNode_<id> [label=<c>]\n"], with [",fillcolor=lightgreen"] when the
    node is terminal, and ["\tNode_<from> -> Node_<to> [label=<c>]\n"]. *)
Inductive stmt : Type :=
| NodeDecl (id : Z) (label : ascii) (green : bool)
| EdgeStmt (from to : Z) (label : ascii).

(** The globals of the program and the part of its environment it touches. *)
Record World : Type := mkWorld {
  Trie : Trie_t;                 (* the global [Trie] *)
  ac_buffer : list ascii;        (* [char ac_buffer[AC_BUFFER_CAP]] *)
  ac_buffer_sz : Z;              (* [size_t ac_buffer_sz] *)
  stdout : list ascii;           (* bytes written to stdout so far *)
  stderr : list string;          (* diagnostics written to stderr so far *)
  sink : list stmt;              (* statements written to the DOT file *)
  heap : list bool               (* answers of the next malloc/realloc calls;
                                    when the list is empty they succeed *)
}.

Definition set_Trie (T : Trie_t) (w : World) : World :=
  mkWorld T (ac_buffer w) (ac_buffer_sz w) (stdout w) (stderr w) (sink w) (heap w).
Definition set_buffer (b : list ascii) (sz : Z) (w : World) : World :=
  mkWorld (Trie w) b sz (stdout w) (stderr w) (sink w) (heap w).
Definition set_stdout (o : list ascii) (w : World) : World :=
  mkWorld (Trie w) (ac_buffer w) (ac_buffer_sz w) o (stderr w) (sink w) (heap w).
Definition set_stderr (e : list string) (w : World) : World :=
  mkWorld (Trie w) (ac_buffer w) (ac_buffer_sz w) (stdout w) e (sink w) (heap w).
Definition set_sink (k : list stmt) (w : World) : World :=
  mkWorld (Trie w) (ac_buffer w) (ac_buffer_sz w) (stdout w) (stderr w) k (heap w).
Definition set_heap (h : list bool) (w : World) : World :=
  mkWorld (Trie w) (ac_buffer w) (ac_buffer_sz w) (stdout w) (stderr w) (sink w) h.

(** The state of the program when [main] starts: objects with static storage
    are zero. *)
Definition initial_world (h : list bool) : World :=
  mkWorld (mkTrie ∅ 0 0) (replicate (Z.to_nat AC_BUFFER_CAP) zero) 0 [] [] [] h.

(** ** Outcomes and the state monad of the embedding *)

(** A call returns a value, ends the process through [exit], or steps outside
    what C defines (an index outside an array, a read of a cell never
    written, signed overflow).  [OutOfFuel] belongs to the embedding only:
    the recursive traversals take a bound on their recursion depth. *)
Inductive outcome (A : Type) : Type :=
| Returns (v : A) (w : World)
| Exits (status : Z) (w : World)
| Undefined
| OutOfFuel.
Arguments Returns {A} v w.
Arguments Exits {A} status w.
Arguments Undefined {A}.
Arguments OutOfFuel {A}.

Definition M (A : Type) : Type := World → outcome A.

Definition ret {A} (v : A) : M A := λ w, Returns v w.

Definition bind {A B} (m : M A) (k : A → M B) : M B := λ w,
  match m w with
  | Returns v w' => k v w'
  | Exits st w' => Exits st w'
  | Undefined => Undefined
  | OutOfFuel => OutOfFuel
  end.

Notation "'let*' x ':=' m 'in' k" := (bind m (λ x, k))
  (at level 10, x name, m at level 100, k at level 200, only parsing).

Definition undefined {A} : M A := λ _, Undefined.
Definition exit {A} (status : Z) : M A := λ w, Exits status w.
Definition get_Trie : M Trie_t := λ w, Returns (Trie w) w.
Definition put_Trie (T : Trie_t) : M unit := λ w, Returns tt (set_Trie T w).

(** [for (i = start; i < start + n; ++i) body(i)] *)
Fixpoint for_loop (n : nat) (i : Z) (body : Z → M unit) : M unit :=
  match n with
  | O => ret tt
  | S n' => let* _ := body i in for_loop n' (i + 1) body
  end.

Arguments for_loop : simpl never.

(** ** Machine integers and bytes *)

Definition in_int32 (z : Z) : bool := (INT32_MIN <=? z) && (z <=? INT32_MAX).

(** The result of a signed [int32_t] operation; overflow is not defined. *)
Definition int32 (z : Z) : M Z := λ w, if in_int32 z then Returns z w else Undefined.

(** The value of a [char] of the text, as an [int].  Only the codes 32..126
    index the child table, and those are the same for signed and unsigned
    [char]. *)
Definition char_code (ch : ascii) : Z := Z.of_nat (nat_of_ascii ch).

(** [(char) (i + ASCII_OFFSET)] for a table index [i]. *)
Definition char_of_index (i : Z) : ascii := ascii_of_nat (Z.to_nat (i + ASCII_OFFSET)).

(** The [int32_t] stored in four bytes (two's complement, any byte order when
    the four bytes are equal). *)
Definition int32_of_bytes (b0 b1 b2 b3 : Z) : Z :=
  let u := Z.lor b0 (Z.lor (Z.shiftl b1 8) (Z.lor (Z.shiftl b2 16) (Z.shiftl b3 24))) in
  if Z.testbit u 31 then u - 2 ^ 32 else u.

(** [memset(tmp->children, c, sizeof tmp->children)]: every byte of the table
    becomes [(unsigned char) c]. *)
Definition memset_children (c : Z) : list Z :=
  let b := c mod 256 in
  replicate (Z.to_nat CHILDREN_COUNT) (int32_of_bytes b b b b).

(** ** Access to the pool *)

(** [Trie.pool[i]] read *)
Definition load_node (i : Z) : M Node := λ w,
  match pool (Trie w) !! i with
  | Some n => Returns n w
  | None => Undefined
  end.

(** [Trie.pool[i].children[idx]] read *)
Definition load_child (i idx : Z) : M Z :=
  let* n := load_node i in
  if (0 <=? idx) && (idx <? CHILDREN_COUNT) then
    match children n !! Z.to_nat idx with
    | Some c => ret c
    | None => undefined
    end
  else undefined.

(** [Trie.pool[i].children[idx] = v] *)
Definition store_child (i idx v : Z) : M unit :=
  let* n := load_node i in
  if (0 <=? idx) && (idx <? CHILDREN_COUNT) then
    let* T := get_Trie in
    put_Trie (mkTrie (<[i := mkNode (<[Z.to_nat idx := v]> (children n)) (terminal n)]> (pool T))
                     (count T) (capacity T))
  else undefined.

(** [Trie.pool[i].terminal = b] *)
Definition store_terminal (i : Z) (b : bool) : M unit :=
  let* n := load_node i in
  let* T := get_Trie in
  put_Trie (mkTrie (<[i := mkNode (children n) b]> (pool T)) (count T) (capacity T)).

(** ** The pool allocator *)

(** [malloc]/[realloc]: the environment decides; the contents of the cells
    already written are kept. *)
Definition realloc : M bool := λ w,
  match heap w with
  | [] => Returns true w
  | b :: h => Returns b (set_heap h w)
  end.

Definition fputs_stderr (msg : string) : M unit := λ w,
  Returns tt (set_stderr (stderr w ++ [msg]) w).

(** [perror(s)]: the text after the colon depends on [errno]. *)
Definition perror (s : string) : M unit := fputs_stderr s.

Definition init_pool : M bool :=
  let* ok := realloc in
  if ok then
    let* T := get_Trie in
    let* _ := put_Trie (mkTrie ∅ (count T) INITIAL_POOL_CAP) in
    ret true
  else
    let* _ := perror "malloc()" in
    ret false.

(** Lines 236-240 of [alloc_node]: clear the cell [Trie.pool[Trie.count]] and
    hand out its index. *)
Definition alloc_node_init : M Z :=
  let* T := get_Trie in
  if (0 <=? count T) && (count T <? capacity T) then
    let* next := int32 (count T + 1) in
    let* _ := put_Trie (mkTrie (<[count T := mkNode (memset_children INVALID_OFFSET) false]> (pool T))
                               next (capacity T)) in
    ret (count T)
  else undefined.

(** The two adjacent literals of the message, as the compiler joins them (the
    final newline left out). *)
Definition too_many_nodes : string :=
  "Error: too many nodes. Consider recompiling the programwith a greater int width for more indexing range.".

Definition alloc_node : M Z :=
  let* T := get_Trie in
  if count T >=? capacity T then
    let* remaining := int32 (INT32_MAX - capacity T) in
    if remaining =? 0 then
      let* _ := fputs_stderr too_many_nodes in
      exit EXIT_FAILURE
    else
      let* cap := int32 (capacity T + (if remaining <? INITIAL_POOL_CAP
                                       then remaining else INITIAL_POOL_CAP)) in
      let* _ := put_Trie (mkTrie (pool T) (count T) cap) in
      let* ok := realloc in
      if ok then alloc_node_init
      else
        let* _ := perror "realloc()" in
        ret INVALID_OFFSET
  else alloc_node_init.

(** ** Insertion *)

Definition is_nul (ch : ascii) : bool := char_code ch =? 0.

Fixpoint insert_text (root_idx : Z) (text : list ascii) : M bool :=
  match text with
  | [] => let* _ := store_terminal root_idx true in ret true
  | ch :: text' =>
    if is_nul ch then let* _ := store_terminal root_idx true in ret true
    else
      let idx := char_code ch - ASCII_OFFSET in
      let descend : M bool :=
        let* next := load_child root_idx idx in
        insert_text next text' in
      let* c := load_child root_idx idx in
      if c =? INVALID_OFFSET then
        let* tmp := alloc_node in
        if tmp =? INVALID_OFFSET then ret false
        else
          let* _ := store_child root_idx idx tmp in
          descend
      else descend
  end.

Fixpoint populate_trie (root_idx : Z) (lines : list (list ascii)) : M bool :=
  match lines with
  | [] => ret true
  | l :: lines' =>
    let* ok := insert_text root_idx l in
    if ok then populate_trie root_idx lines' else ret false
  end.

(** ** The completion buffer *)

Definition ac_buffer_push (ch : ascii) : M unit := λ w,
  let sz := ac_buffer_sz w in
  if (0 <=? sz) && (sz <? AC_BUFFER_CAP) then
    Returns tt (set_buffer (<[Z.to_nat sz := ch]> (ac_buffer w)) (sz + 1) w)
  else Undefined.

Definition ac_buffer_pop : M unit := λ w,
  if ac_buffer_sz w >? 0 then
    Returns tt (set_buffer (ac_buffer w) (ac_buffer_sz w - 1) w)
  else Returns tt w.

(** ** Prefix descent *)

Fixpoint find_prefix (root_idx : Z) (prefix : list ascii) : M Z :=
  match prefix with
  | [] => ret root_idx
  | ch :: prefix' =>
    if is_nul ch then ret root_idx
    else
      let child_idx := char_code ch - ASCII_OFFSET in
      let* c := load_child root_idx child_idx in
      if c =? INVALID_OFFSET then ret INVALID_OFFSET
      else
        let* next := load_child root_idx child_idx in
        let* _ := ac_buffer_push ch in
        find_prefix next prefix'
  end.

(** ** Traversals *)

Definition newline : ascii := ascii_of_nat 10.

(** [fwrite(ac_buffer, ac_buffer_sz, 1, stdout); fputc('\n', stdout);] *)
Definition write_buffer_line : M unit := λ w,
  Returns tt (set_stdout (stdout w ++ take (Z.to_nat (ac_buffer_sz w)) (ac_buffer w) ++ [newline]) w).

Fixpoint print_suggestions (fuel : nat) (root_idx : Z) : M unit :=
  match fuel with
  | O => λ _, OutOfFuel
  | S fuel' =>
    let* n := load_node root_idx in
    let* _ := (if terminal n then write_buffer_line else ret tt) in
    for_loop (Z.to_nat CHILDREN_COUNT) 0 (λ i,
      let* c := load_child root_idx i in
      if negb (c =? INVALID_OFFSET) then
        let* _ := ac_buffer_push (char_of_index i) in
        let* next := load_child root_idx i in
        let* _ := print_suggestions fuel' next in
        ac_buffer_pop
      else ret tt)
  end.

Definition fprintf_sink (s : stmt) : M unit := λ w,
  Returns tt (set_sink (sink w ++ [s]) w).

(** The body shared by the two dumps: declare the child, then the edge. *)
Definition dump_edge (index child_index j : Z) : M unit :=
  let* cn := load_node child_index in
  let* _ := fprintf_sink (NodeDecl child_index (char_of_index j) (terminal cn)) in
  fprintf_sink (EdgeStmt index child_index (char_of_index j)).

Fixpoint dump_dot_prefix (fuel : nat) (root_idx : Z) : M unit :=
  match fuel with
  | O => λ _, OutOfFuel
  | S fuel' =>
    for_loop (Z.to_nat CHILDREN_COUNT) 0 (λ i,
      let* c := load_child root_idx i in
      if negb (c =? INVALID_OFFSET) then
        let* child_index := load_child root_idx i in
        let* _ := dump_edge root_idx child_index i in
        let* next := load_child root_idx i in
        dump_dot_prefix fuel' next
      else ret tt)
  end.

Definition dump_dot_whole : M unit :=
  let* T := get_Trie in
  for_loop (Z.to_nat (count T)) 0 (λ i,
    for_loop (Z.to_nat CHILDREN_COUNT) 0 (λ j,
      let* c := load_child i j in
      if negb (c =? INVALID_OFFSET) then
        let* child_index := load_child i j in
        dump_edge i child_index j
      else ret tt)).

(** ** Runs of the whole program *)

Definition word (s : string) : list ascii := list_ascii_of_string s.

(** [init_pool(); root_idx = alloc_node(); populate_trie(root_idx, lines)] as
    [main] does it. *)
Definition build (lines : list (list ascii)) : M bool :=
  let* ok := init_pool in
  if ok then
    let* root_idx := alloc_node in
    if root_idx =? INVALID_OFFSET then ret false
    else populate_trie root_idx lines
  else ret false.

Definition world_of {A} (o : outcome A) (d : World) : World :=
  match o with
  | Returns _ w => w
  | Exits _ w => w
  | _ => d
  end.

Definition demo_lines : list (list ascii) := [word "cat"; word "car"; word "cart"; word "dog"].

Definition demo_world : World :=
  world_of (build demo_lines (initial_world [])) (initial_world []).

(** The [--complete] branch of [process_args]. *)
Definition complete (fuel : nat) (root_idx : Z) (prefix : list ascii) : M bool :=
  let* subtree_idx := find_prefix root_idx prefix in
  if subtree_idx =? INVALID_OFFSET then
    let* _ := fputs_stderr "Error: Unable to find prefix." in
    ret false
  else
    let* _ := print_suggestions fuel subtree_idx in
    ret true.

(** ** Reading and splitting the input ([io.h]) *)

Definition IO_CHUNK_SIZE : Z := 1024 * 64.
Definition IO_TOKEN_CHUNK_SIZE : Z := 1024 * 2.

(** [size_t] and object pointers are taken to be 64 bits wide. *)
Definition SIZE_WIDTH : Z := 64.
Definition POINTER_SIZE : Z := 8.
Definition size_t (z : Z) : Z := z mod 2 ^ SIZE_WIDTH.

(** [GROW_CAPACITY(capacity, initial)], in [size_t]. *)
Definition GROW_CAPACITY (capacity initial : Z) : Z :=
  if capacity <? initial then initial else size_t (capacity * 2).

(** An input stream: the bytes not read yet, whether the bytes end in a read
    error rather than in the end of the file, and the end-of-file
    indicator. *)
Record Stream : Type := mkStream {
  unread : list ascii;
  ends_in_error : bool;
  feof : bool
}.

(** [fread(ptr, 1, n, stream)]: the bytes read, and the stream after the
    call.  A short count comes from the end of the bytes only. *)
Definition fread (n : Z) (s : Stream) : list ascii * Stream :=
  let got := take (Z.to_nat n) (unread s) in
  let short := (Z.of_nat (length (unread s)) <? n) in
  (got, mkStream (drop (Z.to_nat n) (unread s)) (ends_in_error s)
                 (feof s || (short && negb (ends_in_error s)))).

(** The loop of [io_read_file]: [content] holds the [len] bytes read so far,
    in a buffer of [capacity + 1] bytes.  The result is the buffer returned
    (its bytes before the final NUL), or [None] for [NULL], with the value
    left in [*nbytes] and the stream. *)
Fixpoint io_read_file_loop (fuel : nat) (content : list ascii) (len capacity : Z)
    (stream : Stream) : M (option (list ascii) * Z * Stream) :=
  match fuel with
  | O => λ _, OutOfFuel
  | S fuel' =>
    let capacity := GROW_CAPACITY capacity IO_CHUNK_SIZE in
    let* ok := realloc in                      (* IO_REALLOC(content, capacity + 1) *)
    if ok then
      let n := size_t (capacity - len) in
      let r := fread n stream in
      let rcount := Z.of_nat (length r.1) in
      (* the bytes go to [content + len], in a buffer of [capacity + 1] bytes *)
      if size_t (capacity + 1) <? len + rcount then undefined
      else
        let content := content ++ r.1 in
        if rcount <? n then
          if feof r.2 then
            (* [len += rcount; break;] then [content[len] = '\0'] *)
            ret (Some content, size_t (len + rcount), r.2)
          else ret (None, 0, r.2)
        else if 0 <? rcount then
          io_read_file_loop fuel' content (size_t (len + rcount)) capacity r.2
        else ret (Some content, size_t (len + rcount), r.2)
    else ret (None, 0, stream)
  end.

Definition io_read_file (fuel : nat) (stream : Stream) : M (option (list ascii) * Z * Stream) :=
  io_read_file_loop fuel [] 0 0 stream.

(** The string that starts at a pointer into a buffer whose bytes from the
    pointer on are [s] (the buffer ends in a NUL): the bytes before the first
    NUL. *)
Fixpoint c_string (s : list ascii) : list ascii :=
  match s with
  | [] => []
  | ch :: s' => if is_nul ch then [] else ch :: c_string s'
  end.

Definition strlen (s : list ascii) : Z := Z.of_nat (length (c_string s)).

(** [strpbrk(s, delim)]: the bytes from the first byte of the string that is
    one of [delim], or [None] for [NULL]. *)
Fixpoint strpbrk (s delim : list ascii) : option (list ascii) :=
  match s with
  | [] => None
  | ch :: s' =>
    if is_nul ch then None
    else if bool_decide (ch ∈ c_string delim) then Some s
    else strpbrk s' delim
  end.

(** The loop of [io_split_by_delim].  [s] is the rest of the buffer ([None]
    for [NULL]), [tokens] the array of the tokens found so far ([None] for
    [NULL]).  A token is a pointer into the buffer; it stands here for the
    string it points to once its delimiter has been overwritten by a
    NUL. *)
Fixpoint io_split_by_delim_loop (fuel : nat) (s : option (list ascii)) (delim : list ascii)
    (tokens : option (list (list ascii))) (capacity token_count : Z)
    : M (option (list (list ascii)) * Z) :=
  match fuel with
  | O => λ _, OutOfFuel
  | S fuel' =>
    match s with
    | Some (ch :: s') =>
      if is_nul ch then ret (tokens, token_count)
      else
        let store (tokens : option (list (list ascii))) (capacity : Z)
            : M (option (list (list ascii)) * Z) :=
          (* [tokens[token_count++] = s], in an array of
             [sizeof *tokens * capacity] bytes *)
          if token_count <? size_t (POINTER_SIZE * capacity) / POINTER_SIZE then
            match tokens with
            | Some ts =>
              let found := strpbrk (ch :: s') delim in
              let token := match found with
                           | Some rest => take (length (ch :: s') - length rest) (ch :: s')
                           | None => c_string (ch :: s')
                           end in
              (* [if (s) *s++ = '\0'] *)
              let next := match found with
                          | Some rest => Some (tail rest)
                          | None => None
                          end in
              io_split_by_delim_loop fuel' next delim (Some (ts ++ [token])) capacity
                                     (size_t (token_count + 1))
            | None => undefined
            end
          else undefined in
        if token_count >=? capacity then
          let capacity := GROW_CAPACITY capacity IO_TOKEN_CHUNK_SIZE in
          let* ok := realloc in        (* IO_REALLOC(tokens, sizeof *tokens * capacity) *)
          if ok then store (Some (default [] tokens)) capacity
          else ret (None, 0)
        else store tokens capacity
    | _ => ret (tokens, token_count)
    end
  end.

(** [io.h] declares the first parameter of [io_split_by_delim] and of
    [io_split_lines] [nonnull] (for GCC and Clang, the compilers of the
    Makefile): a call with [NULL] is undefined, whatever the body would do
    with it. *)
Definition io_split_by_delim (fuel : nat) (s : option (list ascii)) (delim : list ascii)
    : M (option (list (list ascii)) * Z) :=
  match s with
  | None => undefined
  | Some _ => io_split_by_delim_loop fuel s delim None 0 0
  end.

Definition io_split_lines (fuel : nat) (s : option (list ascii))
    : M (option (list (list ascii)) * Z) :=
  match s with
  | None => undefined
  | Some _ => io_split_by_delim fuel s [newline]
  end.

(** ** The command line *)

Definition EXIT_SUCCESS : Z := 0.
Definition PROGRAM_NAME : string := "auto-complete".
Definition OUTPUT_DOT_FILE : string := "graph.dot".

Record flags : Type := mkFlags {
  kflag : bool;
  hflag : bool;
  sflag : bool;
  cflag : bool;
  pflag : bool
}.

Definition LF : string := String newline EmptyString.
Definition TAB : string := String (ascii_of_nat 9) EmptyString.

Definition fprintf_stdout (s : string) : M unit := λ w,
  Returns tt (set_stdout (stdout w ++ list_ascii_of_string s) w).

Definition help_text : string :=
  (LF ++ "USAGE" ++ LF
   ++ TAB ++ PROGRAM_NAME ++ " [OPTIONS] [filename]" ++ LF ++ LF
   ++ "DESCRIPTION" ++ LF
   ++ TAB ++ PROGRAM_NAME ++ " is a program for auto-completion and graph visualization."
   ++ LF ++ LF
   ++ "OPTIONS:" ++ LF
   ++ TAB ++ "-k, --keep" ++ TAB ++ TAB ++ "Keep the transient .DOT file." ++ LF
   ++ TAB ++ "-h, --help" ++ TAB ++ TAB ++ "Display this help message and exit." ++ LF
   ++ TAB ++ "-s, --svg " ++ TAB ++ TAB ++ "Generate a .SVG file (with optional prefix)." ++ LF
   ++ TAB ++ "-c, --complete PREFIX   Suggest autocompletions for prefix." ++ LF
   ++ TAB ++ "-p, --prefix PREFIX" ++ TAB ++ "Prefix for the .DOT file." ++ LF ++ LF)%string.

Definition help {A} : M A :=
  let* _ := fprintf_stdout help_text in
  exit EXIT_SUCCESS.

(** The diagnostics keep their inner newlines; the final one is left out. *)
Definition usage_err {A} (prog_name : string) : M A :=
  let* _ := fputs_stderr ("The syntax of the command is incorrect." ++ LF
                          ++ "Try " ++ prog_name ++ " -h for more information.")%string in
  exit EXIT_FAILURE.

(** What a call of [getopt_long] with the options ["shkc:p:"] returns: the
    option character, with [optarg] for the two options that take an
    argument.  Anything else on the command line comes back as ['?']. *)
Inductive getopt_result : Type :=
| Opt_k
| Opt_h
| Opt_s
| Opt_c (optarg : list ascii)
| Opt_p (optarg : list ascii)
| Opt_unknown.

(** The loop of [parse_options], over the results of the successive calls of
    [getopt_long] up to its [-1]; [opt] is [*opt_ptr] and [prefix] is
    [*prefix] ([None] for [NULL]). *)
Fixpoint parse_options_loop (argv0 : string) (results : list getopt_result) (err_flag : Z)
    (opt : flags) (prefix : option (list ascii)) : M (flags * option (list ascii)) :=
  match results with
  | [] =>
    if negb (err_flag =? 0) then
      let* _ := (if pflag opt then fputs_stderr "Error: -p specified without -s." else ret tt) in
      let* _ := (if kflag opt then fputs_stderr "Error: -k specified without -s." else ret tt) in
      usage_err argv0
    else ret (opt, prefix)
  | Opt_k :: results' =>
    let* e := int32 (err_flag + 1) in
    parse_options_loop argv0 results' e
      (mkFlags true (hflag opt) (sflag opt) (cflag opt) (pflag opt)) prefix
  | Opt_h :: _ => help
  | Opt_s :: results' =>
    let* _ := (if cflag opt then
                 let* _ := fputs_stderr "Error: -s/--svg specified after -c/--complete." in
                 usage_err argv0
               else ret tt) in
    let* e1 := (if pflag opt then int32 (err_flag - 1) else ret err_flag) in
    let* e2 := (if kflag opt then int32 (e1 - 1) else ret e1) in
    parse_options_loop argv0 results' e2
      (mkFlags (kflag opt) (hflag opt) true (cflag opt) (pflag opt)) prefix
  | Opt_c optarg :: results' =>
    let* _ := (if sflag opt then
                 let* _ := fputs_stderr "Error: -c/--complete specified after -s/--svg." in
                 usage_err argv0
               else ret tt) in
    if strlen optarg >=? AC_BUFFER_CAP then
      let* _ := fputs_stderr "Error: PREFIX too long." in
      exit EXIT_FAILURE
    else
      parse_options_loop argv0 results' err_flag
        (mkFlags (kflag opt) (hflag opt) (sflag opt) true (pflag opt)) (Some optarg)
  | Opt_p optarg :: results' =>
    let e := if negb (sflag opt) then 1 else err_flag in
    parse_options_loop argv0 results' e
      (mkFlags (kflag opt) (hflag opt) (sflag opt) (cflag opt) true) (Some optarg)
  | Opt_unknown :: _ => usage_err argv0
  end.

Definition parse_options (argv0 : string) (results : list getopt_result) (opt : flags)
    (prefix : option (list ascii)) : M (flags * option (list ascii)) :=
  parse_options_loop argv0 results 0 opt prefix.

(** ** The host: files and the shell *)

(** The answers of the host to the calls the program makes. *)
Record Host : Type := mkHost {
  fopen_w_ok : bool;                        (* [fopen(OUTPUT_DOT_FILE, "w")] succeeds *)
  fclose_ok : bool;                         (* [fclose(sink)] returns 0 *)
  system_status : Z;                        (* what [system] returns *)
  open_file : string → option Stream;       (* [fopen(path, "r")] *)
  stdin : Stream
}.

(** The calls made, in their order.  The statements the dumps write between
    the opening and the closing line of the graph go to the [sink] of the
    world. *)
Inductive host_call : Type :=
| Fopen (path mode : string)
| Fprintf_digraph (root_idx : Z) (label : list ascii)
| Fprintf_brace
| Fclose (path : string)
| System (command : string)
| Remove (path : string).

Definition generate_graph (env : Host) : M (bool * list host_call) :=
  let command := ("dot -Tsvg " ++ OUTPUT_DOT_FILE ++ " -O")%string in
  if negb (system_status env =? 0) then
    (* the text of [strerror(errno)] that follows is left out *)
    let* _ := fputs_stderr "Error: failed to generate the .SVG file" in
    ret (false, [System command])
  else ret (true, [System command]).

Definition generate_dot (fuel : nat) (env : Host) (root_idx : Z) (prefix : option (list ascii))
    : M (bool * list host_call) :=
  if fopen_w_ok env then
    let label := match prefix with
                 | Some p => c_string p
                 | None => word "root"
                 end in
    let* _ := (if root_idx =? 0 then dump_dot_whole else dump_dot_prefix fuel root_idx) in
    ret (fclose_ok env,
         [Fopen OUTPUT_DOT_FILE "w"; Fprintf_digraph root_idx label; Fprintf_brace;
          Fclose OUTPUT_DOT_FILE])
  else
    let* _ := perror "fopen()" in
    ret (false, [Fopen OUTPUT_DOT_FILE "w"]).

(** [find_prefix] on a pointer that may be [NULL]. *)
Definition find_prefix_at (root_idx : Z) (prefix : option (list ascii)) : M Z :=
  match prefix with
  | Some p => find_prefix root_idx p
  | None => undefined
  end.

Definition process_args (fuel : nat) (env : Host) (root_idx : Z) (options : flags)
    (prefix : option (list ascii)) (out_file : string) : M (bool * list host_call) :=
  let cleanup (rv : bool) (calls : list host_call) : M (bool * list host_call) :=
    ret (rv, if negb (kflag options) then calls ++ [Remove out_file] else calls) in
  let not_found : M (bool * list host_call) :=
    let* _ := fputs_stderr "Error: Unable to find prefix." in
    cleanup false [] in
  let graph (root_idx : Z) : M (bool * list host_call) :=
    let* d := generate_dot fuel env root_idx prefix in
    if d.1 then
      let* g := generate_graph env in
      cleanup g.1 (d.2 ++ g.2)
    else cleanup false d.2 in
  let svg : M (bool * list host_call) :=
    if sflag options then
      match prefix with
      | Some _ =>
        let* subtree_idx := find_prefix_at root_idx prefix in
        if subtree_idx =? INVALID_OFFSET then not_found
        else graph subtree_idx
      | None => graph root_idx
      end
    else cleanup true [] in
  if cflag options then
    let* subtree_idx := find_prefix_at root_idx prefix in
    if subtree_idx =? INVALID_OFFSET then not_found
    else
      let* _ := print_suggestions fuel subtree_idx in
      svg
  else svg.

(** [main], from the results of the calls of [getopt_long], the value it
    leaves in [optind], and the operands ([argv[optind]] and after).  The
    value is what [main] returns, with the calls made to the host. *)
Definition main (fuel : nat) (env : Host) (argv0 : option string)
    (results : list getopt_result) (optind : Z) (operands : list string)
    : M (Z * list host_call) :=
  let argc := optind + Z.of_nat (length operands) in
  match argv0 with
  | None =>
    let* _ := fputs_stderr "A NULL argv[0] was passed through an exec system call." in
    ret (EXIT_FAILURE, [])
  | Some prog =>
    let* parsed := parse_options prog results (mkFlags false false false false false) None in
    let options := parsed.1 in
    let search_prefix := parsed.2 in
    (* [fopen(argv[optind], "r")], or [stdin] *)
    let* in_file :=
      (if sflag options || cflag options then
         if optind + 1 =? argc then
           match operands with
           | path :: _ => ret (Some path, open_file env path)
           | [] => undefined
           end
         else ret (None, Some (stdin env))
       else usage_err PROGRAM_NAME) in
    match in_file with
    | (Some path, None) =>
      let* _ := perror path in
      ret (EXIT_FAILURE, [Fopen path "r"])
    | (_, None) => undefined
    | (named, Some stream) =>
      let opened := match named with Some path => [Fopen path "r"] | None => [] end in
      let closed := match named with Some path => [Fclose path] | None => [] end in
      let* _ := (if optind >? argc then usage_err PROGRAM_NAME else ret tt) in
      let* read := io_read_file fuel stream in
      let* split := io_split_lines fuel read.1.1 in
      match split.1 with
      | None =>
        let* _ := perror "fread()" in
        ret (EXIT_FAILURE, opened)
      | Some lines =>
        let* ok := init_pool in
        if ok then
          let* root_idx := alloc_node in
          if root_idx =? INVALID_OFFSET then ret (EXIT_FAILURE, opened ++ closed)
          else
            let* filled := populate_trie root_idx lines in
            if filled then
              let* rv := process_args fuel env root_idx options search_prefix
                                      OUTPUT_DOT_FILE in
              ret (if rv.1 then EXIT_SUCCESS else EXIT_FAILURE, opened ++ rv.2 ++ closed)
            else ret (EXIT_FAILURE, opened ++ closed)
        else ret (EXIT_FAILURE, opened ++ closed)
      end
    end
  end.

(** * Vocabulary of the properties *)

(** ** The allocator *)

Definition blank_node : Node := mkNode (replicate (Z.to_nat CHILDREN_COUNT) INVALID_OFFSET) false.

(** The Trie after a successful [alloc_node] that leaves the capacity at [cap]. *)
Definition Trie_alloc (T : Trie_t) (cap : Z) : Trie_t :=
  mkTrie (<[count T := blank_node]> (pool T)) (count T + 1) cap.

(** What an operation leaves alone outside the Trie. *)
Definition same_io (w w' : World) : Prop :=
  ac_buffer w' = ac_buffer w ∧ ac_buffer_sz w' = ac_buffer_sz w ∧
  stdout w' = stdout w ∧ sink w' = sink w.

(** The growth step of [alloc_node]: the amount added to the capacity. *)
Definition growth (cap : Z) : Z :=
  if INT32_MAX - cap <? INITIAL_POOL_CAP then INT32_MAX - cap else INITIAL_POOL_CAP.

(** The world an outcome ends in, when the call returned or the process
    exited. *)
Definition final {A} (o : outcome A) : option World :=
  match o with
  | Returns _ w => Some w
  | Exits _ w => Some w
  | _ => None
  end.

(** A computation that leaves the Trie alone. *)
Definition trie_frame {A} (m : M A) : Prop :=
  ∀ w w', final (m w) = Some w' → Trie w' = Trie w.

(** ** Pure reads of the pool *)

Definition node_child (n : Node) (idx : Z) : option Z :=
  if (0 <=? idx) && (idx <? CHILDREN_COUNT) then children n !! Z.to_nat idx else None.

(** The value of [Trie.pool[i].children[idx]], when that read is defined. *)
Definition child (T : Trie_t) (i idx : Z) : option Z :=
  match pool T !! i with
  | Some n => node_child n idx
  | None => None
  end.

(** The Trie after [Trie.pool[i].children[idx] = v]. *)
Definition Trie_bind (T : Trie_t) (i idx v : Z) (n : Node) : Trie_t :=
  mkTrie (<[i := mkNode (<[Z.to_nat idx := v]> (children n)) (terminal n)]> (pool T))
         (count T) (capacity T).

(** The Trie after [Trie.pool[i].terminal = b]. *)
Definition Trie_mark (T : Trie_t) (i : Z) (b : bool) (n : Node) : Trie_t :=
  mkTrie (<[i := mkNode (children n) b]> (pool T)) (count T) (capacity T).

(** ** The structural invariant on child slots *)

(** A node with its [CHILDREN_COUNT] slots, each the sentinel or an index
    below [cnt]. *)
Definition node_ok (cnt : Z) (n : Node) : Prop :=
  length (children n) = Z.to_nat CHILDREN_COUNT ∧
  ∀ k c, children n !! k = Some c → c = INVALID_OFFSET ∨ 0 ≤ c < cnt.

(** Every index in [[0, count)] has its node, and every child slot of such a
    node is the sentinel or the index of a node in use. *)
Definition slots_valid (T : Trie_t) : Prop :=
  ∀ i, 0 ≤ i < count T → ∃ n, pool T !! i = Some n ∧ node_ok (count T) n.

(** A checker for [slots_valid], for concrete worlds. *)
Definition slot_okb (cnt c : Z) : bool :=
  (c =? INVALID_OFFSET) || ((0 <=? c) && (c <? cnt)).

Definition slots_validb (T : Trie_t) : bool :=
  forallb (λ i, match pool T !! i with
                | Some n => (length (children n) =? Z.to_nat CHILDREN_COUNT)%nat
                            && forallb (slot_okb (count T)) (children n)
                | None => false
                end)
          (seqZ 0 (count T)).

(** ** Pools that hold one long word *)

(** The trie that holds the single word of [n - 1] letters ['a'], in a pool
    of [cap] cells: node [i] has node [i + 1] in the slot of ['a'] and the
    last node is terminal. *)
Definition chain_node (last i : Z) : Node :=
  if i =? last then mkNode (children blank_node) true
  else mkNode (<[Z.to_nat (char_code "a" - ASCII_OFFSET) := i + 1]> (children blank_node)) false.

Definition chain_pool (n : Z) : gmap Z Node :=
  list_to_map ((λ i, (i, chain_node (n - 1) i)) <$> seqZ 0 n).

Definition chain_world (n cap : Z) : World :=
  mkWorld (mkTrie (chain_pool n) n cap)
          (replicate (Z.to_nat AC_BUFFER_CAP) zero) 0 [] [] [] [].

(** After the root, one word of 4095 letters takes every cell of the 4096
    the pool has after its first growth. *)
Definition long_word_world : World := chain_world 4096 4096.

(** The pool with every index in use: one word of [INT32_MAX - 1] letters. *)
Definition full_world : World := chain_world INT32_MAX INT32_MAX.

(** ** Paths in the pool *)

(** The table index of a byte of the text: [*text - ASCII_OFFSET]. *)
Definition offset (ch : ascii) : Z := char_code ch - ASCII_OFFSET.
Definition offsets (t : list ascii) : list Z := offset <$> t.

(** The bytes of the alphabet: the printable characters 32..126. *)
Definition printable (ch : ascii) : Prop := 0 ≤ offset ch < CHILDREN_COUNT.

Definition printableb (ch : ascii) : bool := (0 <=? offset ch) && (offset ch <? CHILDREN_COUNT).

(** Follow the slots [p] from node [i], as long as they are present. *)
Fixpoint walk (T : Trie_t) (i : Z) (p : list Z) : option Z :=
  match p with
  | [] => Some i
  | k :: p' =>
    match child T i k with
    | Some c => if c =? INVALID_OFFSET then None else walk T c p'
    | None => None
    end
  end.

(** ** The invariant of a trie built by insertions *)

(** [name i] is the path of slots from the root to node [i]. *)
Record trie_inv (T : Trie_t) (name : Z → list Z) : Prop := {
  inv_count : 0 < count T ≤ capacity T ∧ capacity T ≤ INT32_MAX;
  inv_node : ∀ i, 0 ≤ i < count T →
    ∃ n, pool T !! i = Some n ∧ length (children n) = Z.to_nat CHILDREN_COUNT;
  inv_root : name 0 = [];
  inv_edge : ∀ i k c, 0 ≤ i < count T → child T i k = Some c → c ≠ INVALID_OFFSET →
    i < c < count T ∧ name c = name i ++ [k];
  inv_reach : ∀ i, 0 ≤ i < count T → walk T 0 (name i) = Some i
}.

(** The terminal nodes are the nodes of the words [ws]. *)
Definition marks (T : Trie_t) (name : Z → list Z) (ws : list (list ascii)) : Prop :=
  ∀ i n, 0 ≤ i < count T → pool T !! i = Some n →
    (terminal n = true ↔ name i ∈ offsets <$> ws).

(** Every word of [ws] has its node. *)
Definition present (T : Trie_t) (name : Z → list Z) (ws : list (list ascii)) : Prop :=
  ∀ l, l ∈ ws → ∃ i, 0 ≤ i < count T ∧ name i = offsets l.

(** Every node below the root lies on the path of a word of [ws]. *)
Definition covered (T : Trie_t) (name : Z → list Z) (ws : list (list ascii)) : Prop :=
  ∀ i, 0 < i < count T → ∃ l, l ∈ ws ∧ name i `prefix_of` offsets l.

Definition represents (T : Trie_t) (ws : list (list ascii)) : Prop :=
  ∃ name, trie_inv T name ∧ marks T name ws ∧ present T name ws ∧ covered T name ws.

(** *** Adding a node under a free slot *)

(** The Trie after [alloc_node] has handed out [count T] and the slot [idx]
    of node [r] has been set to it. *)
Definition Trie_grow (T : Trie_t) (cap r idx : Z) (n : Node) : Trie_t :=
  Trie_bind (Trie_alloc T cap) r idx (count T) n.

Definition name_grow (T : Trie_t) (name : Z → list Z) (r idx : Z) : Z → list Z :=
  λ j, if decide (j = count T) then name r ++ [idx] else name j.

(** The pool that holds the root only. *)
Definition root_Trie : Trie_t := Trie_alloc (mkTrie ∅ 0 INITIAL_POOL_CAP) INITIAL_POOL_CAP.

(** ** Prefix descent and the buffer *)

(** The bytes held in the buffer: [ac_buffer[0 .. ac_buffer_sz)]. *)
Definition buffer_text (w : World) : list ascii :=
  take (Z.to_nat (ac_buffer_sz w)) (ac_buffer w).

Definition buffer_ok (w : World) : Prop :=
  0 ≤ ac_buffer_sz w ≤ AC_BUFFER_CAP ∧ length (ac_buffer w) = Z.to_nat AC_BUFFER_CAP.

(** [w1] is [w] with the bytes [u] pushed on the buffer, and nothing else
    changed. *)
Definition pushed (w : World) (u : list ascii) (w1 : World) : Prop :=
  Trie w1 = Trie w ∧ buffer_text w1 = buffer_text w ++ u ∧
  ac_buffer_sz w1 = ac_buffer_sz w + Z.of_nat (length u) ∧ buffer_ok w1 ∧
  stdout w1 = stdout w ∧ sink w1 = sink w ∧ stderr w1 = stderr w ∧ heap w1 = heap w.

(** ** What the traversals write *)

(** The lines [out] as bytes on stdout. *)
Definition unlines (out : list (list ascii)) : list ascii :=
  concat ((λ l, l ++ [newline]) <$> out).

(** [w'] is [w] after the lines [out] went to stdout and the statements
    [stm] to the sink, with the Trie and the buffer text as in [w]. *)
Definition effects (w : World) (out : list (list ascii)) (stm : list stmt) (w' : World) : Prop :=
  Trie w' = Trie w ∧ buffer_text w' = buffer_text w ∧ ac_buffer_sz w' = ac_buffer_sz w ∧
  (buffer_ok w → buffer_ok w') ∧
  stdout w' = stdout w ++ unlines out ∧ sink w' = sink w ++ stm.

(** ** Depth-first enumeration of a subtree *)

Definition terminal_at (T : Trie_t) (i : Z) : bool :=
  match pool T !! i with
  | Some n => terminal n
  | None => false
  end.

(** The nodes below [i] in the order the traversals reach them, each with
    its path of slots from [i]; children by ascending slot. *)
Fixpoint dfs (fuel : nat) (T : Trie_t) (i : Z) : list (Z * list Z) :=
  match fuel with
  | O => []
  | S fuel' =>
    (i, []) ::
    concat ((λ k, match child T i k with
                  | Some c => if c =? INVALID_OFFSET then []
                              else prod_map id (cons k) <$> dfs fuel' T c
                  | None => []
                  end) <$> seqZ 0 CHILDREN_COUNT)
  end.

(** The words of the terminal nodes of an enumeration, when [B] is the text
    that leads to its start. *)
Definition emitted (T : Trie_t) (B : list ascii) (d : list (Z * list Z)) : list (list ascii) :=
  omap (λ jv, if terminal_at T jv.1 then Some (B ++ (char_of_index <$> jv.2)) else None) d.

(** Every node is within the reach of the buffer. *)
Definition shallow (T : Trie_t) (name : Z → list Z) : Prop :=
  ∀ j, 0 ≤ j < count T → Z.of_nat (length (name j)) ≤ AC_BUFFER_CAP.

(** ** The order of the enumeration *)

(** Strict lexicographic order on sequences of integers. *)
Fixpoint lex_lt (a b : list Z) : Prop :=
  match a, b with
  | [], [] => False
  | [], _ :: _ => True
  | _ :: _, [] => False
  | x :: a', y :: b' => x < y ∨ (x = y ∧ lex_lt a' b')
  end.

(** Byte strings in the order of [strcmp] on unsigned bytes. *)
Definition bytes_lt (a b : list ascii) : Prop := lex_lt (char_code <$> a) (char_code <$> b).

Definition slots_in_range (v : list Z) : Prop := Forall (λ k, 0 ≤ k < CHILDREN_COUNT) v.

Definition path_lt (a b : Z * list Z) : Prop := lex_lt a.2 b.2.

(** ** Completion of a prefix in a built trie *)

(** The lines are over the alphabet, and none is longer than the buffer. *)
Definition alphabet_lines (lines : list (list ascii)) : bool := forallb (forallb printableb) lines.
Definition lines_fit (lines : list (list ascii)) : bool :=
  forallb (λ l, Z.of_nat (length l) <=? AC_BUFFER_CAP) lines.

(** ** The graph dumps *)

Definition presentb (T : Trie_t) (i k : Z) : bool :=
  match child T i k with
  | Some c => negb (c =? INVALID_OFFSET)
  | None => false
  end.

(** The number of child slots of node [i] that are not [INVALID_OFFSET]. *)
Definition present_slots (T : Trie_t) (i : Z) : nat :=
  length (List.filter (presentb T i) (seqZ 0 CHILDREN_COUNT)).

Definition is_edge (s : stmt) : bool :=
  match s with
  | EdgeStmt _ _ _ => true
  | NodeDecl _ _ _ => false
  end.

(** The number of edge statements among the statements written. *)
Definition edge_count (l : list stmt) : nat := length (List.filter is_edge l).

(** [j] is reachable from [R] along present slots. *)
Definition reachable (T : Trie_t) (R j : Z) : Prop := ∃ v, walk T R v = Some j.

(** The statements the dumps write for slot [k] of node [i]. *)
Definition edge_stmts (T : Trie_t) (i k : Z) : list stmt :=
  match child T i k with
  | Some c => if c =? INVALID_OFFSET then []
              else [NodeDecl c (char_of_index k) (terminal_at T c);
                    EdgeStmt i c (char_of_index k)]
  | None => []
  end.

Definition whole_stmts (T : Trie_t) : list stmt :=
  concat ((λ i, concat (edge_stmts T i <$> seqZ 0 CHILDREN_COUNT)) <$> seqZ 0 (count T)).

Fixpoint prefix_stmts (fuel : nat) (T : Trie_t) (i : Z) : list stmt :=
  match fuel with
  | O => []
  | S fuel' =>
    concat ((λ k, edge_stmts T i k ++
                  match child T i k with
                  | Some c => if c =? INVALID_OFFSET then [] else prefix_stmts fuel' T c
                  | None => []
                  end) <$> seqZ 0 CHILDREN_COUNT)
  end.

(** ** Bounds of the pool *)

(** The indices in use lie within the capacity, and the capacity is an
    [int32_t]. *)
Definition pool_bounds (T : Trie_t) : Prop := 0 ≤ count T ≤ capacity T ∧ capacity T ≤ INT32_MAX.

(** The number of bytes of the lines. *)
Definition total_length (lines : list (list ascii)) : Z :=
  Z.of_nat (sum_list_with length lines).

(** ** Outcomes of concrete runs *)

(** The call returned the value [b]. *)
Definition returns_bool (b : bool) (o : outcome bool) : bool :=
  match o with
  | Returns v _ => eqb v b
  | _ => false
  end.

Definition returns_Z (v : Z) (o : outcome Z) : bool :=
  match o with
  | Returns x _ => x =? v
  | _ => false
  end.


(** ** The lines of a text *)

(** The text with a final newline, when it has none. *)
Definition terminated (s : list ascii) : list ascii :=
  match last s with
  | None => []
  | Some ch => if decide (ch = newline) then s else s ++ [newline]
  end.

Definition nul_free (s : list ascii) : bool := forallb (λ ch, negb (is_nul ch)) s.

(** [w'] is [w] but for the answers of the allocator that were used up. *)
Definition heap_only (w w' : World) : Prop := w' = set_heap (heap w') w.

(** ** The options *)

Definition no_flags : flags := mkFlags false false false false false.

(** What holds of the state of [parse_options] between two options. *)
Definition options_inv (err_flag : Z) (opt : flags) (prefix : option (list ascii)) : Prop :=
  hflag opt = false ∧
  (cflag opt = true → sflag opt = false) ∧
  (sflag opt = false → 0 ≤ err_flag ∧ (kflag opt = true ∨ pflag opt = true → 1 ≤ err_flag)) ∧
  (cflag opt = true → pflag opt = false →
     ∃ p, prefix = Some p ∧ strlen p < AC_BUFFER_CAP) ∧
  (pflag opt = true → ∃ p, prefix = Some p).

(** ** The input of [main] *)

(** The stream [main] reads, with the calls that open and close it: the
    file named by the operand when there is exactly one, and [stdin]
    otherwise. *)
Definition main_input (env : Host) (operands : list string)
    : option Stream * list host_call * list host_call :=
  match operands with
  | [path] => (open_file env path, [Fopen path "r"], [Fclose path])
  | _ => (Some (stdin env), [], [])
  end.

(** ** The graph run *)

(** The calls [generate_dot] makes when it can open the DOT file. *)
Definition dot_calls (root_idx : Z) (label : list ascii) : list host_call :=
  [Fopen OUTPUT_DOT_FILE "w"; Fprintf_digraph root_idx label; Fprintf_brace;
   Fclose OUTPUT_DOT_FILE].

Definition dot_command : string := "dot -Tsvg graph.dot -O".

(** A computation that writes no diagnostic and asks the allocator nothing. *)
Definition quiet {A} (m : M A) : Prop :=
  ∀ w w', final (m w) = Some w' → stderr w' = stderr w ∧ heap w' = heap w.

(** The argument of the last [-c] or [-p] among the options, or [prefix]
    when there is none. *)
Definition last_optarg (prefix : option (list ascii)) (results : list getopt_result)
    : option (list ascii) :=
  foldl (λ p r, match r with
                | Opt_c optarg | Opt_p optarg => Some optarg
                | _ => p
                end) prefix results.

(** The options of one kind. *)
Definition opt_is_k (r : getopt_result) : bool := match r with Opt_k => true | _ => false end.
Definition opt_is_s (r : getopt_result) : bool := match r with Opt_s => true | _ => false end.
Definition opt_is_c (r : getopt_result) : bool := match r with Opt_c _ => true | _ => false end.
Definition opt_is_p (r : getopt_result) : bool := match r with Opt_p _ => true | _ => false end.
Definition opt_is_refused (r : getopt_result) : bool :=
  match r with
  | Opt_h | Opt_unknown => true
  | Opt_c optarg => strlen optarg >=? AC_BUFFER_CAP
  | _ => false
  end.

(** * Properties *)

(** ** Small runs of the program *)

Example demo_count : count (Trie demo_world) = 9.
Proof. vm_compute. reflexivity. Qed.

Example demo_complete_ca :
  stdout (world_of (complete 10 0 (word "ca") demo_world) demo_world)
  = word "car" ++ [newline] ++ word "cart" ++ [newline] ++ word "cat" ++ [newline].
Proof. vm_compute. reflexivity. Qed.

(** One word: its own prefix completes to it, a longer prefix is not found. *)
Example one_word_found :
  stdout (world_of (complete 2 0 (word "a")
                      (world_of (build [word "a"] (initial_world [])) (initial_world [])))
                   (initial_world []))
  = word "a" ++ [newline].
Proof. vm_compute. reflexivity. Qed.

Example one_word_not_found :
  ∃ w, find_prefix 0 (word "ab")
         (world_of (build [word "a"] (initial_world [])) (initial_world []))
       = Returns INVALID_OFFSET w.
Proof. eexists. vm_compute. reflexivity. Qed.

(** No word: the dump of the whole tree writes no statement. *)
Example empty_trie_dump :
  sink (world_of (dump_dot_whole (world_of (build [] (initial_world [])) (initial_world [])))
                 (initial_world []))
  = [].
Proof. vm_compute. reflexivity. Qed.

(** ** The monad and the allocator *)

Lemma memset_children_invalid : memset_children INVALID_OFFSET = children blank_node.
Proof. vm_compute. reflexivity. Qed.

Lemma same_io_refl w : same_io w w.
Proof. by repeat split. Qed.

Lemma same_io_trans w1 w2 w3 : same_io w1 w2 → same_io w2 w3 → same_io w1 w3.
Proof. unfold same_io. intros (?&?&?&?) (?&?&?&?). repeat split; congruence. Qed.

Lemma bind_Returns {A B} (m : M A) (k : A → M B) w v w' :
  bind m k w = Returns v w' ↔ ∃ a w1, m w = Returns a w1 ∧ k a w1 = Returns v w'.
Proof.
  unfold bind. split.
  - destruct (m w) as [a w1| | |]; try discriminate. eauto.
  - intros (a & w1 & -> & H). exact H.
Qed.

Lemma in_int32_spec z : in_int32 z = true ↔ INT32_MIN ≤ z ≤ INT32_MAX.
Proof. unfold in_int32. rewrite andb_true_iff, !Z.leb_le. tauto. Qed.

Lemma alloc_node_init_Returns w v w' :
  alloc_node_init w = Returns v w' →
  v = count (Trie w) ∧ 0 ≤ count (Trie w) < capacity (Trie w) ∧
  count (Trie w) + 1 ≤ INT32_MAX ∧
  w' = set_Trie (Trie_alloc (Trie w) (capacity (Trie w))) w.
Proof.
  unfold alloc_node_init, bind, get_Trie, put_Trie, int32, ret.
  destruct (_ && _) eqn:Hb; [|discriminate].
  destruct (in_int32 _) eqn:Hi; [|discriminate].
  apply andb_true_iff in Hb as [H1%Z.leb_le H2%Z.ltb_lt].
  apply in_int32_spec in Hi.
  rewrite memset_children_invalid. intros [= <- <-].
  repeat split; try lia.
Qed.

Lemma alloc_node_init_ok w :
  0 ≤ count (Trie w) < capacity (Trie w) → capacity (Trie w) ≤ INT32_MAX →
  alloc_node_init w
  = Returns (count (Trie w)) (set_Trie (Trie_alloc (Trie w) (capacity (Trie w))) w).
Proof.
  intros Hc Hcap. unfold alloc_node_init, bind, get_Trie, put_Trie, int32, ret.
  replace ((0 <=? count (Trie w)) && (count (Trie w) <? capacity (Trie w))) with true
    by (symmetry; apply andb_true_iff; split; [apply Z.leb_le|apply Z.ltb_lt]; lia).
  replace (in_int32 (count (Trie w) + 1)) with true
    by (symmetry; apply in_int32_spec; unfold INT32_MIN; lia).
  by rewrite memset_children_invalid.
Qed.

(** The three ways [alloc_node] returns. *)
Lemma alloc_node_Returns w v w' :
  alloc_node w = Returns v w' →
  (v = INVALID_OFFSET ∧ capacity (Trie w) ≤ count (Trie w) ∧
   pool (Trie w') = pool (Trie w) ∧ count (Trie w') = count (Trie w) ∧
   capacity (Trie w') = capacity (Trie w) + growth (capacity (Trie w)) ∧
   same_io w w')
  ∨ (v = count (Trie w) ∧ 0 ≤ v ∧ v + 1 ≤ INT32_MAX ∧ same_io w w' ∧
     ∃ cap, Trie w' = Trie_alloc (Trie w) cap ∧ v < cap ∧
       (cap = capacity (Trie w) ∨
        capacity (Trie w) ≤ count (Trie w) ∧
        cap = capacity (Trie w) + growth (capacity (Trie w)))).
Proof.
  unfold alloc_node. rewrite bind_Returns. intros (T & w1 & [= <- <-] & H).
  destruct (count (Trie w) >=? capacity (Trie w)) eqn:Hge.
  - apply Z.geb_le in Hge.
    apply bind_Returns in H as (remaining & w1 & Hrem & H).
    unfold int32 in Hrem. destruct (in_int32 _); [|discriminate].
    injection Hrem as <- <-.
    destruct (_ =? 0); [discriminate|].
    apply bind_Returns in H as (cap & w1 & Hcap & H).
    unfold int32 in Hcap. destruct (in_int32 _); [|discriminate].
    injection Hcap as <- <-.
    apply bind_Returns in H as ([] & w1 & [= <-] & H).
    apply bind_Returns in H as (ok & w2 & Hre & H).
    assert (Trie w2 = mkTrie (pool (Trie w)) (count (Trie w))
                        (capacity (Trie w) + growth (capacity (Trie w)))
            ∧ same_io w w2) as [HT Hio].
    { unfold realloc in Hre. simpl in Hre.
      destruct (heap w); injection Hre as <- <-; by repeat split. }
    destruct ok.
    + right. apply alloc_node_init_Returns in H as (-> & Hc & Hm & ->).
      rewrite HT in *. simpl in *. repeat split; try lia; try apply Hio.
      eexists. split; [reflexivity|]. split; [lia|]. right. split; [lia|done].
    + left. apply bind_Returns in H as ([] & w3 & [= <-] & [= <- <-]).
      simpl. rewrite HT. simpl. repeat split; try lia; apply Hio.
  - right. rewrite Z.geb_leb in Hge. apply Z.leb_gt in Hge.
    apply alloc_node_init_Returns in H as (-> & Hc & Hm & ->).
    simpl. repeat split; try lia.
    eexists. split; [reflexivity|]. split; [lia|]. by left.
Qed.

(** ** Operations that leave the Trie alone *)

Lemma final_bind {A B} (m : M A) (k : A → M B) w w' :
  final (bind m k w) = Some w' →
  (∃ st, m w = Exits st w') ∨ ∃ a w1, m w = Returns a w1 ∧ final (k a w1) = Some w'.
Proof.
  unfold bind. destruct (m w) as [a w1|st w1| |]; simpl; try discriminate.
  - right. eauto.
  - intros [= <-]. left. eauto.
Qed.

Lemma trie_frame_bind {A B} (m : M A) (k : A → M B) :
  trie_frame m → (∀ a, trie_frame (k a)) → trie_frame (bind m k).
Proof.
  intros Hm Hk w w' [[st H]|(a & w1 & H & Hf)]%final_bind.
  - apply Hm. by rewrite H.
  - transitivity (Trie w1); [by apply (Hk a)|]. apply Hm. by rewrite H.
Qed.

Lemma trie_frame_ret {A} (v : A) : trie_frame (ret v).
Proof. by intros w w' [= <-]. Qed.

Lemma trie_frame_undefined {A} : trie_frame (@undefined A).
Proof. intros w w'. discriminate. Qed.

Lemma trie_frame_load_node i : trie_frame (load_node i).
Proof. intros w w'. unfold load_node. destruct (_ !! _); simpl; [by intros [= <-]|done]. Qed.

Lemma trie_frame_load_child i k : trie_frame (load_child i k).
Proof.
  apply trie_frame_bind; [apply trie_frame_load_node|]. intros n.
  destruct (_ && _); [|apply trie_frame_undefined].
  destruct (_ !! _); [apply trie_frame_ret|apply trie_frame_undefined].
Qed.

Lemma trie_frame_push ch : trie_frame (ac_buffer_push ch).
Proof. intros w w'. unfold ac_buffer_push. destruct (_ && _); simpl; [by intros [= <-]|done]. Qed.

Lemma trie_frame_pop : trie_frame ac_buffer_pop.
Proof. intros w w'. unfold ac_buffer_pop. destruct (_ >? _); simpl; by intros [= <-]. Qed.

Lemma trie_frame_write_line : trie_frame write_buffer_line.
Proof. by intros w w' [= <-]. Qed.

Lemma trie_frame_fprintf s : trie_frame (fprintf_sink s).
Proof. by intros w w' [= <-]. Qed.

Lemma trie_frame_for_loop n body :
  (∀ i, trie_frame (body i)) → ∀ i, trie_frame (for_loop n i body).
Proof.
  intros Hb. induction n as [|n IH]; intros i; unfold for_loop; fold for_loop.
  - apply trie_frame_ret.
  - apply trie_frame_bind; [apply Hb|]. intros _. apply IH.
Qed.

Create HintDb frame.
#[local] Hint Resolve trie_frame_ret trie_frame_undefined trie_frame_load_node
  trie_frame_load_child trie_frame_push trie_frame_pop trie_frame_write_line
  trie_frame_fprintf : frame.

Ltac frame_step :=
  first [ apply trie_frame_for_loop; intros ?
        | apply trie_frame_bind; [|intros ?]
        | solve [auto with frame]
        | match goal with |- trie_frame (if ?b then _ else _) => destruct b end
        | match goal with |- trie_frame (match ?o with _ => _ end) => destruct o end ].

Lemma trie_frame_find_prefix prefix : ∀ root_idx, trie_frame (find_prefix root_idx prefix).
Proof.
  induction prefix as [|ch prefix IH]; intros root_idx; simpl; [auto with frame|].
  destruct (is_nul ch); [auto with frame|]. repeat frame_step.
Qed.

Lemma trie_frame_print_suggestions fuel : ∀ root_idx, trie_frame (print_suggestions fuel root_idx).
Proof.
  induction fuel as [|fuel IH]; intros root_idx; simpl; [by intros w w'|].
  repeat frame_step.
Qed.

Lemma trie_frame_dump_edge a b c : trie_frame (dump_edge a b c).
Proof. unfold dump_edge. repeat frame_step. Qed.

Lemma trie_frame_dump_dot_prefix fuel : ∀ root_idx, trie_frame (dump_dot_prefix fuel root_idx).
Proof.
  induction fuel as [|fuel IH]; intros root_idx; simpl; [by intros w w'|].
  repeat frame_step.
Qed.

Lemma trie_frame_dump_dot_whole : trie_frame dump_dot_whole.
Proof.
  unfold dump_dot_whole. apply trie_frame_bind; [by intros w w' [= <-]|intros T].
  repeat frame_step.
Qed.

(** ** Pure reads of the pool *)

Lemma load_child_eq i idx w :
  load_child i idx w
  = match child (Trie w) i idx with Some c => Returns c w | None => Undefined end.
Proof.
  unfold load_child, child, node_child, bind, load_node.
  destruct (pool (Trie w) !! i) as [n|]; [|done].
  destruct (_ && _); [|done]. by destruct (_ !! _).
Qed.

Lemma load_child_Returns i idx w c w' :
  load_child i idx w = Returns c w' ↔ w' = w ∧ child (Trie w) i idx = Some c.
Proof.
  rewrite load_child_eq. destruct (child _ _ _) as [c'|]; split;
    try discriminate; try (intros [? ?]; discriminate).
  - by intros [= -> ->].
  - by intros [-> [= ->]].
Qed.

Lemma load_child_not_Exits i idx w st w' : load_child i idx w ≠ Exits st w'.
Proof. rewrite load_child_eq. by destruct (child _ _ _). Qed.

Lemma node_child_Some n idx c :
  node_child n idx = Some c ↔ 0 ≤ idx < CHILDREN_COUNT ∧ children n !! Z.to_nat idx = Some c.
Proof.
  unfold node_child. destruct (_ && _) eqn:Hb.
  - apply andb_true_iff in Hb as [?%Z.leb_le ?%Z.ltb_lt]. tauto.
  - apply andb_false_iff in Hb as [?%Z.leb_gt|?%Z.ltb_ge]; split; try discriminate; lia.
Qed.

Lemma child_Some_range T i k c : child T i k = Some c → 0 ≤ k < CHILDREN_COUNT.
Proof.
  unfold child. destruct (pool T !! i); [|done]. by intros [? _]%node_child_Some.
Qed.

Lemma store_child_final i idx v w w' :
  final (store_child i idx v w) = Some w' →
  ∃ n, pool (Trie w) !! i = Some n ∧ 0 ≤ idx < CHILDREN_COUNT ∧
       store_child i idx v w = Returns tt w' ∧
       w' = set_Trie (Trie_bind (Trie w) i idx v n) w.
Proof.
  unfold store_child, bind, load_node, get_Trie, put_Trie, undefined.
  destruct (pool (Trie w) !! i) as [n|]; [|discriminate].
  destruct (_ && _) eqn:Hb; [|discriminate].
  apply andb_true_iff in Hb as [?%Z.leb_le ?%Z.ltb_lt].
  simpl. intros [= <-]. exists n. repeat split; done || lia.
Qed.

Lemma store_terminal_final i b w w' :
  final (store_terminal i b w) = Some w' →
  ∃ n, pool (Trie w) !! i = Some n ∧ store_terminal i b w = Returns tt w' ∧
       w' = set_Trie (Trie_mark (Trie w) i b n) w.
Proof.
  unfold store_terminal, bind, load_node, get_Trie, put_Trie.
  destruct (pool (Trie w) !! i) as [n|]; [|discriminate].
  simpl. intros [= <-]. by exists n.
Qed.

Lemma alloc_node_Exits w st w' :
  alloc_node w = Exits st w' →
  st = EXIT_FAILURE ∧ capacity (Trie w) ≤ count (Trie w) ∧ capacity (Trie w) = INT32_MAX ∧
  w' = set_stderr (stderr w ++ [too_many_nodes]) w.
Proof.
  unfold alloc_node, bind, get_Trie, int32.
  destruct (count (Trie w) >=? capacity (Trie w)) eqn:Hge.
  - apply Z.geb_le in Hge. destruct (in_int32 _); [|discriminate].
    destruct (_ =? 0) eqn:Hz.
    + apply Z.eqb_eq in Hz. simpl. intros [= <- <-]. repeat split; lia.
    + destruct (in_int32 _); [|discriminate]. simpl.
      unfold realloc. simpl. destruct (heap w) as [|[] h]; simpl;
        unfold alloc_node_init, bind, get_Trie, int32, put_Trie, ret, undefined; simpl;
        repeat (match goal with |- context [if ?b then _ else _] => destruct b end;
                simpl; try discriminate).
  - unfold alloc_node_init, bind, get_Trie, int32, put_Trie, ret, undefined; simpl.
    repeat (match goal with |- context [if ?b then _ else _] => destruct b end;
            simpl; try discriminate).
Qed.

(** ** The structural invariant on child slots *)

Lemma blank_node_children k c : children blank_node !! k = Some c → c = INVALID_OFFSET.
Proof. unfold blank_node. cbn [children]. by intros [-> _]%lookup_replicate. Qed.

Lemma slots_valid_alloc T cap : slots_valid T → slots_valid (Trie_alloc T cap).
Proof.
  intros HT i Hi. cbn [Trie_alloc count pool] in *.
  destruct (decide (i = count T)) as [->|Hne].
  - rewrite lookup_insert_eq. exists blank_node. split; [done|]. split.
    + unfold blank_node. cbn [children]. apply length_replicate.
    + intros k c Hc. left. by eapply blank_node_children.
  - rewrite lookup_insert_ne by done.
    destruct (HT i ltac:(lia)) as (n & Hn & Hlen & Hs).
    exists n. split; [done|]. split; [done|].
    intros k c Hc. destruct (Hs k c Hc); [by left|right; lia].
Qed.

Lemma slots_valid_bind T i idx v n :
  slots_valid T → pool T !! i = Some n → 0 ≤ v < count T →
  slots_valid (Trie_bind T i idx v n).
Proof.
  intros HT Hi Hv j Hj. cbn [Trie_bind count pool] in *.
  destruct (HT j Hj) as (m & Hm & Hlen & Hs).
  destruct (decide (j = i)) as [->|Hne].
  - rewrite lookup_insert_eq. eexists. split; [done|].
    rewrite Hi in Hm. injection Hm as <-. split; cbn [children].
    + by rewrite length_insert.
    + intros k c Hc. destruct (decide (k = Z.to_nat idx)) as [->|Hk].
      * apply list_lookup_insert_Some in Hc as [(_ & -> & _)|(? & _)]; [by right|done].
      * rewrite list_lookup_insert_ne in Hc by done. by eapply Hs.
  - rewrite lookup_insert_ne by done. by exists m.
Qed.

Lemma slots_valid_mark T i b n :
  slots_valid T → pool T !! i = Some n → slots_valid (Trie_mark T i b n).
Proof.
  intros HT Hi j Hj. cbn [Trie_mark count pool] in *.
  destruct (HT j Hj) as (m & Hm & Hlen & Hs).
  destruct (decide (j = i)) as [->|Hne].
  - rewrite lookup_insert_eq. eexists. split; [done|].
    rewrite Hi in Hm. injection Hm as <-. by split.
  - rewrite lookup_insert_ne by done. by exists m.
Qed.

Lemma slots_valid_same T T' :
  pool T' = pool T → count T' = count T → slots_valid T → slots_valid T'.
Proof. unfold slots_valid. intros -> ->. done. Qed.

Lemma slots_valid_alloc_node w w' :
  slots_valid (Trie w) → final (alloc_node w) = Some w' → slots_valid (Trie w').
Proof.
  intros HT. destruct (alloc_node w) as [v w1|st w1| |] eqn:H; simpl; try discriminate;
    intros [= ->].
  - apply alloc_node_Returns in H as [(_ & _ & Hp & Hc & _)|(_ & _ & _ & _ & cap & -> & _)].
    + by eapply slots_valid_same.
    + by apply slots_valid_alloc.
  - by apply alloc_node_Exits in H as (_ & _ & _ & ->).
Qed.

Lemma slots_valid_insert_text text : ∀ root_idx w w',
  slots_valid (Trie w) → final (insert_text root_idx text w) = Some w' →
  slots_valid (Trie w').
Proof.
  assert (Hend : ∀ root_idx w w', slots_valid (Trie w) →
    final (bind (store_terminal root_idx true) (λ _, ret true) w) = Some w' →
    slots_valid (Trie w')).
  { intros r w w' HT [[st H]|([] & w1 & H & [= <-])]%final_bind.
    - assert (Hf : final (store_terminal r true w) = Some w') by (by rewrite H).
      apply store_terminal_final in Hf as (n & _ & Hf & _). congruence.
    - assert (Hf : final (store_terminal r true w) = Some w1) by (by rewrite H).
      apply store_terminal_final in Hf as (n & Hn & _ & ->). by apply slots_valid_mark. }
  induction text as [|ch text IH]; intros r w w' HT; simpl; [by apply Hend|].
  destruct (is_nul ch); [by apply Hend|].
  set (idx := char_code ch - ASCII_OFFSET).
  assert (Hdesc : ∀ w1 w', slots_valid (Trie w1) →
    final (bind (load_child r idx) (λ next, insert_text next text) w1) = Some w' →
    slots_valid (Trie w')).
  { intros w1 w2 HT1 [[st H]|(c & w3 & H & Hf)]%final_bind.
    - by apply load_child_not_Exits in H.
    - apply load_child_Returns in H as [-> _]. by eapply IH. }
  intros [[st H]|(c & w1 & H & Hf)]%final_bind; [by apply load_child_not_Exits in H|].
  apply load_child_Returns in H as [-> Hc].
  destruct (c =? INVALID_OFFSET); [|by eapply Hdesc].
  apply final_bind in Hf as [[st H]|(tmp & w1 & H & Hf)].
  { apply (slots_valid_alloc_node w); [done|by rewrite H]. }
  assert (HT1 : slots_valid (Trie w1)) by (apply (slots_valid_alloc_node w); [done|by rewrite H]).
  destruct (tmp =? INVALID_OFFSET) eqn:Htmp; [by injection Hf as <-|].
  apply Z.eqb_neq in Htmp.
  apply alloc_node_Returns in H as [(-> & _)|(-> & Hv & _ & _ & cap & HTw & _)]; [done|].
  apply final_bind in Hf as [[st H]|([] & w2 & H & Hf)].
  - assert (Hf : final (store_child r idx (count (Trie w)) w1) = Some w') by (by rewrite H).
    apply store_child_final in Hf as (n & _ & _ & Hf & _). congruence.
  - assert (Hs : final (store_child r idx (count (Trie w)) w1) = Some w2) by (by rewrite H).
    apply store_child_final in Hs as (n & Hn & _ & _ & ->).
    eapply Hdesc; [|exact Hf]. simpl. apply slots_valid_bind; [done..|].
    rewrite HTw. simpl. lia.
Qed.

Lemma slots_validb_sound T : slots_validb T = true → slots_valid T.
Proof.
  unfold slots_validb. rewrite forallb_forall. intros H i Hi.
  assert (Hin : In i (seqZ 0 (count T))).
  { apply list_elem_of_In, elem_of_seqZ. lia. }
  specialize (H i Hin). destruct (pool T !! i) as [n|]; [|done].
  apply andb_true_iff in H as [Hlen%Nat.eqb_eq H]. rewrite forallb_forall in H.
  exists n. split; [done|]. split; [done|]. intros k c Hc.
  assert (Hc' : In c (children n)) by (apply list_elem_of_In; by eapply list_elem_of_lookup_2).
  apply H in Hc'. unfold slot_okb in Hc'.
  apply orb_true_iff in Hc' as [?%Z.eqb_eq|[?%Z.leb_le ?%Z.ltb_lt]%andb_true_iff];
    [by left|right; lia].
Qed.

(** C8: every operation of the engine (allocation, insertion, descent and the
    traversals) keeps the invariant that every index in [[0, count)] has its
    node and each child slot of such a node is either [INVALID_OFFSET] or
    the index of a node in use, in [[0, count)].  The invariant holds in the
    world the call returns in, and in the world the process exits in. *)
Theorem slots_valid_preserved (w : World) :
  slots_valid (Trie w) →
  (∀ w', final (alloc_node w) = Some w' → slots_valid (Trie w')) ∧
  (∀ root_idx text w',
      final (insert_text root_idx text w) = Some w' → slots_valid (Trie w')) ∧
  (∀ root_idx prefix w',
      final (find_prefix root_idx prefix w) = Some w' → slots_valid (Trie w')) ∧
  (∀ fuel root_idx w',
      final (print_suggestions fuel root_idx w) = Some w' → slots_valid (Trie w')) ∧
  (∀ fuel root_idx w',
      final (dump_dot_prefix fuel root_idx w) = Some w' → slots_valid (Trie w')) ∧
  (∀ w', final (dump_dot_whole w) = Some w' → slots_valid (Trie w')).
Proof.
  intros HT. repeat split.
  - intros w'. by apply slots_valid_alloc_node.
  - intros r text w'. by apply slots_valid_insert_text.
  - intros r p w' H. by rewrite (trie_frame_find_prefix p r w w' H).
  - intros fuel r w' H. by rewrite (trie_frame_print_suggestions fuel r w w' H).
  - intros fuel r w' H. by rewrite (trie_frame_dump_dot_prefix fuel r w w' H).
  - intros w' H. by rewrite (trie_frame_dump_dot_whole w w' H).
Qed.

Lemma slots_valid_preserved_witness :
  slots_valid (Trie (world_of (insert_text 0 (word "do") demo_world) demo_world)).
Proof.
  refine (proj1 (proj2 (slots_valid_preserved demo_world _)) 0 (word "do") _ _).
  - apply slots_validb_sound. vm_compute. reflexivity.
  - vm_compute. reflexivity.
Defined.

(** The invariant holds when [main] starts. *)
Lemma slots_valid_initial h : slots_valid (Trie (initial_world h)).
Proof. intros i Hi. simpl in Hi. lia. Qed.

(** ** A fresh node *)

(** C9: a successful [alloc_node] returns the index [Trie.count] had, which
    no node in use has, and advances [Trie.count] past it; the node at that
    index has [terminal = false] and all [CHILDREN_COUNT] child slots equal to
    [INVALID_OFFSET], which is what the byte-wise [memset] with -1 stores. *)
Theorem alloc_node_fresh_blank (w : World) (id : Z) (w' : World) :
  alloc_node w = Returns id w' → id ≠ INVALID_OFFSET →
  id = count (Trie w) ∧ 0 ≤ id ∧ count (Trie w') = id + 1 ∧
  memset_children INVALID_OFFSET = replicate (Z.to_nat CHILDREN_COUNT) INVALID_OFFSET ∧
  ∃ n, pool (Trie w') !! id = Some n ∧ terminal n = false ∧
       children n = memset_children INVALID_OFFSET ∧
       ∀ k, 0 ≤ k < CHILDREN_COUNT → child (Trie w') id k = Some INVALID_OFFSET.
Proof.
  intros H Hid.
  apply alloc_node_Returns in H as [(-> & _)|(-> & Hv & _ & _ & cap & HT & _)]; [done|].
  rewrite HT. cbn [Trie_alloc count pool].
  split; [done|]. split; [done|]. split; [done|]. split; [by vm_compute|].
  exists blank_node. rewrite lookup_insert_eq. split; [done|]. split; [done|].
  split; [by rewrite memset_children_invalid|].
  intros k Hk. unfold child, Trie_alloc. cbn [pool]. rewrite lookup_insert_eq.
  apply node_child_Some. split; [done|]. unfold blank_node. cbn [children].
  apply lookup_replicate. split; [done|]. unfold CHILDREN_COUNT in *. lia.
Qed.

Lemma alloc_node_fresh_blank_witness :
  ∃ n, pool (Trie (world_of (alloc_node demo_world) demo_world)) !! 9 = Some n ∧
       terminal n = false ∧ children n = memset_children INVALID_OFFSET.
Proof.
  destruct (alloc_node_fresh_blank demo_world 9 (world_of (alloc_node demo_world) demo_world))
    as (_ & _ & _ & _ & n & Hn & Ht & Hc & _).
  - vm_compute. reflexivity.
  - discriminate.
  - exists n. auto.
Defined.

(** ** Growth of the pool *)

(** [alloc_node] succeeds whenever a cell is free. *)
Lemma alloc_node_free_cell w :
  0 ≤ count (Trie w) < capacity (Trie w) → capacity (Trie w) ≤ INT32_MAX →
  alloc_node w
  = Returns (count (Trie w)) (set_Trie (Trie_alloc (Trie w) (capacity (Trie w))) w).
Proof.
  intros Hc Hcap. unfold alloc_node, bind, get_Trie.
  replace (count (Trie w) >=? capacity (Trie w)) with false
    by (symmetry; rewrite Z.geb_leb; apply Z.leb_gt; lia).
  by apply alloc_node_init_ok.
Qed.

(** When [alloc_node] finds [count] equal to [capacity] below [INT32_MAX], it
    returns, and the capacity has grown by [growth]. *)
Lemma alloc_node_grows (w : World) :
  count (Trie w) = capacity (Trie w) → 0 ≤ capacity (Trie w) < INT32_MAX →
  ∃ v w', alloc_node w = Returns v w' ∧
    capacity (Trie w') = capacity (Trie w) + growth (capacity (Trie w)).
Proof.
  intros Hcnt Hcap.
  assert (Hpos : 0 < growth (capacity (Trie w)) ≤ INT32_MAX - capacity (Trie w)).
  { unfold growth, INITIAL_POOL_CAP.
    destruct (_ <? _) eqn:E; [apply Z.ltb_lt in E|apply Z.ltb_ge in E]; lia. }
  unfold alloc_node, bind, get_Trie, int32.
  replace (count (Trie w) >=? capacity (Trie w)) with true
    by (symmetry; apply Z.geb_le; lia).
  replace (in_int32 (INT32_MAX - capacity (Trie w))) with true
    by (symmetry; apply in_int32_spec; unfold INT32_MIN, INT32_MAX in *; lia).
  replace (INT32_MAX - capacity (Trie w) =? 0) with false
    by (symmetry; apply Z.eqb_neq; lia).
  fold (growth (capacity (Trie w))).
  replace (in_int32 (capacity (Trie w) + growth (capacity (Trie w)))) with true
    by (symmetry; apply in_int32_spec; unfold INT32_MIN, INT32_MAX in *; lia).
  unfold put_Trie, realloc. cbn [heap set_Trie].
  destruct (heap w) as [|[] h].
  - rewrite alloc_node_init_ok by (cbn; lia). do 2 eexists. by split.
  - rewrite alloc_node_init_ok by (cbn; lia). do 2 eexists. by split.
  - do 2 eexists. by split.
Qed.

(** C5 (as the code has it): when [alloc_node] finds [count] equal to
    [capacity], and [capacity] is below [INT32_MAX], the capacity grows by the
    constant [INITIAL_POOL_CAP], or by the remaining headroom
    [INT32_MAX - capacity] when that is smaller; it never exceeds
    [INT32_MAX].  The call returns, also when [realloc] fails. *)
Theorem alloc_node_growth (w : World) :
  count (Trie w) = capacity (Trie w) → 0 ≤ capacity (Trie w) < INT32_MAX →
  ∃ v w', alloc_node w = Returns v w' ∧
    capacity (Trie w')
    = capacity (Trie w) + Z.min INITIAL_POOL_CAP (INT32_MAX - capacity (Trie w)) ∧
    capacity (Trie w) < capacity (Trie w') ≤ INT32_MAX.
Proof.
  intros Hcnt Hcap.
  destruct (alloc_node_grows w Hcnt Hcap) as (v & w' & Ha & Hg).
  exists v, w'. split; [exact Ha|]. rewrite Hg. unfold growth, INITIAL_POOL_CAP.
  destruct (INT32_MAX - capacity (Trie w) <? 1024 * 2) eqn:E;
    [apply Z.ltb_lt in E|apply Z.ltb_ge in E]; lia.
Qed.

(** The program builds such worlds from a one-word list. *)
Example chain_world_reached :
  build [replicate 6 "a"%char] (initial_world []) = Returns true (chain_world 7 2048).
Proof. vm_compute. reflexivity. Qed.

Lemma alloc_node_growth_witness :
  ∃ v w', alloc_node long_word_world = Returns v w' ∧
    capacity (Trie w') = 4096 + Z.min INITIAL_POOL_CAP (INT32_MAX - 4096) ∧
    4096 < capacity (Trie w') ≤ INT32_MAX.
Proof.
  refine (alloc_node_growth long_word_world _ _).
  - reflexivity.
  - split; [discriminate|reflexivity].
Defined.

(** C5, as stated, fails: the second growth takes the capacity from 4096 to
    6144, which is not its double and is not the last step before
    [INT32_MAX]. *)
Lemma alloc_node_growth_not_doubling :
  count (Trie long_word_world) = capacity (Trie long_word_world) ∧
  capacity (Trie long_word_world) = 4096 ∧
  (∃ v w', alloc_node long_word_world = Returns v w' ∧
     capacity (Trie w') = 6144 ∧
     capacity (Trie w') ≠ 2 * capacity (Trie long_word_world) ∧
     capacity (Trie w') < INT32_MAX).
Proof.
  split; [reflexivity|]. split; [reflexivity|].
  destruct (alloc_node_grows long_word_world) as (v & w' & H & Hcap);
    [reflexivity|split; [discriminate|reflexivity]|].
  exists v, w'. split; [exact H|].
  change (capacity (Trie long_word_world)) with 4096 in *.
  rewrite Hcap. vm_compute. repeat split; discriminate.
Qed.

(** ** Exhaustion of the index range *)

Lemma chain_pool_lookup n i :
  0 ≤ i < n → chain_pool n !! i = Some (chain_node (n - 1) i).
Proof.
  intros Hi. unfold chain_pool. apply elem_of_list_to_map_1.
  - assert (Hfst : ∀ l : list Z, ((λ i, (i, chain_node (n - 1) i)) <$> l).*1 = l).
    { induction l as [|x l IH]; [done|]. cbn. by rewrite IH. }
    rewrite Hfst. apply NoDup_seqZ.
  - apply list_elem_of_fmap. exists i. split; [done|]. apply elem_of_seqZ. lia.
Qed.

Lemma chain_child n cap i k :
  0 ≤ i < n - 1 → 0 ≤ k < CHILDREN_COUNT →
  child (mkTrie (chain_pool n) n cap) i k
  = Some (if k =? char_code "a" - ASCII_OFFSET then i + 1 else INVALID_OFFSET).
Proof.
  intros Hi Hk. unfold child. cbn [pool]. rewrite chain_pool_lookup by lia.
  apply node_child_Some. split; [done|]. unfold chain_node.
  replace (char_code "a" - ASCII_OFFSET) with 65 by (vm_compute; reflexivity).
  replace (i =? n - 1) with false by (symmetry; apply Z.eqb_neq; lia).
  cbn [children]. unfold blank_node. cbn [children].
  destruct (k =? _) eqn:E.
  - apply Z.eqb_eq in E. subst k. apply list_lookup_insert_eq.
    rewrite length_replicate. apply Nat.ltb_lt. vm_compute. reflexivity.
  - apply Z.eqb_neq in E. rewrite list_lookup_insert_ne by lia.
    apply lookup_replicate. split; [done|]. unfold CHILDREN_COUNT in *. lia.
Qed.

(** With [count >= capacity] and [capacity = INT32_MAX], [alloc_node] writes
    its message and ends the process. *)
Lemma alloc_node_full_exits (w : World) :
  capacity (Trie w) ≤ count (Trie w) → capacity (Trie w) = INT32_MAX →
  alloc_node w = Exits EXIT_FAILURE (set_stderr (stderr w ++ [too_many_nodes]) w).
Proof.
  intros Hc Hcap. unfold alloc_node, bind, get_Trie, int32.
  replace (count (Trie w) >=? capacity (Trie w)) with true
    by (symmetry; apply Z.geb_le; lia).
  rewrite Hcap. vm_compute. reflexivity.
Qed.

(** An [exit] inside [alloc_node] ends an [insert_text] that needs a node for
    the first letter of its text. *)
Lemma insert_text_alloc_exits (w : World) root_idx ch text st w' :
  is_nul ch = false →
  child (Trie w) root_idx (char_code ch - ASCII_OFFSET) = Some INVALID_OFFSET →
  alloc_node w = Exits st w' →
  insert_text root_idx (ch :: text) w = Exits st w'.
Proof.
  intros Hnul Hch Ha. cbn [insert_text]. rewrite Hnul.
  unfold bind at 1. rewrite load_child_eq, Hch.
  rewrite Z.eqb_refl. unfold bind at 1. by rewrite Ha.
Qed.

(** A failed [realloc] is what comes back to the caller: [alloc_node] returns
    [INVALID_OFFSET] after [perror], with the pool and the count as they
    were. *)
Lemma alloc_node_realloc_fails (w : World) h :
  capacity (Trie w) ≤ count (Trie w) → 0 ≤ capacity (Trie w) < INT32_MAX →
  heap w = false :: h →
  ∃ w', alloc_node w = Returns INVALID_OFFSET w' ∧
        pool (Trie w') = pool (Trie w) ∧ count (Trie w') = count (Trie w) ∧
        stdout w' = stdout w ∧ stderr w' = stderr w ++ ["realloc()"%string].
Proof.
  intros Hc Hcap Hh. unfold alloc_node, bind, get_Trie, int32.
  replace (count (Trie w) >=? capacity (Trie w)) with true
    by (symmetry; apply Z.geb_le; lia).
  replace (in_int32 (INT32_MAX - capacity (Trie w))) with true
    by (symmetry; apply in_int32_spec; unfold INT32_MIN, INT32_MAX in *; lia).
  replace (INT32_MAX - capacity (Trie w) =? 0) with false
    by (symmetry; apply Z.eqb_neq; lia).
  fold (growth (capacity (Trie w))).
  assert (0 < growth (capacity (Trie w)) ≤ INT32_MAX - capacity (Trie w)).
  { unfold growth, INITIAL_POOL_CAP.
    destruct (_ <? _) eqn:E; [apply Z.ltb_lt in E|apply Z.ltb_ge in E]; lia. }
  replace (in_int32 (capacity (Trie w) + growth (capacity (Trie w)))) with true
    by (symmetry; apply in_int32_spec; unfold INT32_MIN, INT32_MAX in *; lia).
  unfold put_Trie, realloc. cbn [heap set_Trie]. rewrite Hh.
  eexists. split; [reflexivity|]. by cbn.
Qed.

(** [insert_text] follows the nodes that are there without touching
    anything: on a text whose first bytes [pre] have their path from
    [root_idx] to node [i], it goes on from [i] with the rest. *)
Lemma insert_text_descent (w : World) pre : ∀ root_idx i text,
  walk (Trie w) root_idx (offsets pre) = Some i →
  insert_text root_idx (pre ++ text) w = insert_text i text w.
Proof.
  induction pre as [|c pre IH]; intros root_idx i text Hw.
  - cbn in Hw. by injection Hw as ->.
  - change (offsets (c :: pre)) with (offset c :: offsets pre) in Hw. cbn [walk] in Hw.
    destruct (child (Trie w) root_idx (offset c)) as [c'|] eqn:Hch; [|done].
    destruct (c' =? INVALID_OFFSET) eqn:Hinv; [done|].
    pose proof (child_Some_range _ _ _ _ Hch) as Hr.
    assert (Hnul : is_nul c = false).
    { unfold offset, ASCII_OFFSET in Hr. unfold is_nul. apply Z.eqb_neq. lia. }
    unfold offset in Hch.
    cbn [app insert_text]. rewrite Hnul.
    unfold bind at 1. rewrite load_child_eq, Hch, Hinv.
    unfold bind at 1. rewrite load_child_eq, Hch. by apply IH.
Qed.

(** An [alloc_node] that returns [INVALID_OFFSET] makes an [insert_text]
    that needs a node for the first letter of its text return [false]. *)
Lemma insert_text_alloc_fails (w : World) root_idx ch text w' :
  is_nul ch = false →
  child (Trie w) root_idx (char_code ch - ASCII_OFFSET) = Some INVALID_OFFSET →
  alloc_node w = Returns INVALID_OFFSET w' →
  insert_text root_idx (ch :: text) w = Returns false w'.
Proof.
  intros Hnul Hch Ha. cbn [insert_text]. rewrite Hnul.
  unfold bind at 1. rewrite load_child_eq, Hch.
  rewrite Z.eqb_refl. unfold bind at 1. by rewrite Ha.
Qed.

(** C6 (as the code has it): when the index range is used up, that is when
    [alloc_node] finds [count >= capacity] with [capacity = INT32_MAX], it
    writes a message to stderr and ends the process with
    [exit(EXIT_FAILURE)], leaving the trie as it was; every [insert_text]
    that needs a new node in that state, at the first byte of its text or
    after following the nodes of the bytes before it, ends the process too,
    it does not return [false].  The other failure is handed to the caller:
    when the range is not used up and [realloc] fails, [alloc_node] returns
    [INVALID_OFFSET] after [perror], with the pool and the count as they
    were, and such an [insert_text] returns [false]. *)
Theorem alloc_node_exhausted (w : World) :
  capacity (Trie w) ≤ count (Trie w) →
  (capacity (Trie w) = INT32_MAX →
   alloc_node w = Exits EXIT_FAILURE (set_stderr (stderr w ++ [too_many_nodes]) w) ∧
   Trie (set_stderr (stderr w ++ [too_many_nodes]) w) = Trie w ∧
   ∀ root_idx pre ch text i,
     walk (Trie w) root_idx (offsets pre) = Some i →
     is_nul ch = false →
     child (Trie w) i (char_code ch - ASCII_OFFSET) = Some INVALID_OFFSET →
     insert_text root_idx (pre ++ ch :: text) w
     = Exits EXIT_FAILURE (set_stderr (stderr w ++ [too_many_nodes]) w)) ∧
  (0 ≤ capacity (Trie w) < INT32_MAX → ∀ h, heap w = false :: h →
   ∃ w', alloc_node w = Returns INVALID_OFFSET w' ∧
     pool (Trie w') = pool (Trie w) ∧ count (Trie w') = count (Trie w) ∧
     stdout w' = stdout w ∧ stderr w' = stderr w ++ ["realloc()"%string] ∧
     ∀ root_idx pre ch text i,
       walk (Trie w) root_idx (offsets pre) = Some i →
       is_nul ch = false →
       child (Trie w) i (char_code ch - ASCII_OFFSET) = Some INVALID_OFFSET →
       insert_text root_idx (pre ++ ch :: text) w = Returns false w').
Proof.
  intros Hc. split.
  - intros Hcap. pose proof (alloc_node_full_exits w Hc Hcap) as Ha.
    split; [exact Ha|]. split; [reflexivity|].
    intros root_idx pre ch text i Hw Hnul Hch.
    rewrite (insert_text_descent w pre root_idx i _ Hw).
    by apply insert_text_alloc_exits.
  - intros Hcap h Hh.
    destruct (alloc_node_realloc_fails w h Hc Hcap Hh) as (w' & Ha & Hpool & Hcnt & Ho & He).
    exists w'. split; [exact Ha|]. split; [exact Hpool|]. split; [exact Hcnt|].
    split; [exact Ho|]. split; [exact He|].
    intros root_idx pre ch text i Hw Hnul Hch.
    rewrite (insert_text_descent w pre root_idx i _ Hw).
    by apply insert_text_alloc_fails.
Qed.

Lemma alloc_node_exhausted_witness :
  (alloc_node full_world
   = Exits EXIT_FAILURE (set_stderr (stderr full_world ++ [too_many_nodes]) full_world) ∧
   insert_text 0 (word "ab") full_world
   = Exits EXIT_FAILURE (set_stderr (stderr full_world ++ [too_many_nodes]) full_world)) ∧
  ∃ w', alloc_node (set_heap [false] long_word_world) = Returns INVALID_OFFSET w' ∧
        insert_text 0 (word "ab") (set_heap [false] long_word_world) = Returns false w'.
Proof.
  assert (Ha : char_code "a" - ASCII_OFFSET = 65) by reflexivity.
  assert (Hb : char_code "b" - ASCII_OFFSET = 66) by reflexivity.
  assert (Hwalk : ∀ n cap, 2 < n →
            walk (mkTrie (chain_pool n) n cap) 0 (offsets (word "a")) = Some 1).
  { intros n cap Hn. change (offsets (word "a")) with [65]. cbn [walk].
    rewrite chain_child by (unfold CHILDREN_COUNT; lia). rewrite Ha. reflexivity. }
  assert (Hfree : ∀ n cap, 2 < n →
            child (mkTrie (chain_pool n) n cap) 1 (char_code "b" - ASCII_OFFSET)
            = Some INVALID_OFFSET).
  { intros n cap Hn. rewrite Hb, chain_child by (unfold CHILDREN_COUNT; lia).
    rewrite Ha. reflexivity. }
  split.
  - destruct (alloc_node_exhausted full_world) as [Hfull _]; [reflexivity|].
    destruct (Hfull eq_refl) as (Hal & _ & Hins).
    split; [exact Hal|].
    apply (Hins 0 (word "a") "b"%char [] 1).
    + apply Hwalk. unfold INT32_MAX. lia.
    + reflexivity.
    + apply Hfree. unfold INT32_MAX. lia.
  - destruct (alloc_node_exhausted (set_heap [false] long_word_world)) as [_ Hfail];
      [reflexivity|].
    destruct (Hfail ltac:(split; [discriminate|reflexivity]) [] eq_refl)
      as (w' & Hal & _ & _ & _ & _ & Hins).
    exists w'. split; [exact Hal|].
    apply (Hins 0 (word "a") "b"%char [] 1).
    + apply Hwalk. lia.
    + reflexivity.
    + apply Hfree. lia.
Defined.

(** C6, as stated, fails: in the full pool neither [alloc_node] nor
    [insert_text] returns to its caller; the process ends inside the
    allocator. *)
Lemma alloc_node_exhausted_not_propagated :
  count (Trie full_world) = INT32_MAX ∧
  (∃ w', alloc_node full_world = Exits EXIT_FAILURE w') ∧
  (∃ w', insert_text 0 (word "b") full_world = Exits EXIT_FAILURE w') ∧
  (∀ v w', insert_text 0 (word "b") full_world ≠ Returns v w').
Proof.
  pose proof (alloc_node_full_exits full_world ltac:(reflexivity) eq_refl) as Ha.
  assert (Hb : insert_text 0 (word "b") full_world
               = Exits EXIT_FAILURE
                   (set_stderr (stderr full_world ++ [too_many_nodes]) full_world)).
  { apply insert_text_alloc_exits; [reflexivity| |exact Ha].
    unfold child, full_world, chain_world. cbn [Trie pool].
    rewrite chain_pool_lookup by (unfold INT32_MAX; lia). vm_compute. reflexivity. }
  split; [reflexivity|]. split; [by eexists|]. split; [by eexists|].
  intros v w'. rewrite Hb. discriminate.
Qed.


(** ** Paths in the pool *)

Lemma printableb_spec ch : printableb ch = true ↔ printable ch.
Proof. unfold printableb, printable. rewrite andb_true_iff, Z.leb_le, Z.ltb_lt. tauto. Qed.

Lemma Forall_printableb t : forallb printableb t = true → Forall printable t.
Proof.
  rewrite forallb_forall, Forall_forall. intros H ch Hch.
  apply printableb_spec, H. by apply list_elem_of_In.
Qed.

Lemma printable_not_nul ch : printable ch → is_nul ch = false.
Proof.
  unfold printable, offset, is_nul, ASCII_OFFSET. intros H. apply Z.eqb_neq. lia.
Qed.

Lemma offset_char_of_index k : 0 ≤ k < CHILDREN_COUNT → offset (char_of_index k) = k.
Proof.
  unfold offset, char_of_index, char_code, CHILDREN_COUNT, ASCII_OFFSET. intros Hk.
  rewrite nat_ascii_embedding by lia. lia.
Qed.

Lemma char_of_index_offset ch : printable ch → char_of_index (offset ch) = ch.
Proof.
  unfold printable, offset, char_of_index, char_code, CHILDREN_COUNT, ASCII_OFFSET. intros H.
  replace (Z.to_nat (Z.of_nat (nat_of_ascii ch) - 32 + 32)) with (nat_of_ascii ch) by lia.
  apply ascii_nat_embedding.
Qed.

Lemma chars_offsets t : Forall printable t → char_of_index <$> offsets t = t.
Proof.
  unfold offsets. induction 1 as [|ch t Hch _ IH]; [done|].
  cbn. by rewrite char_of_index_offset, IH.
Qed.


Lemma child_Some_node T i k c : child T i k = Some c → ∃ n, pool T !! i = Some n.
Proof. unfold child. destruct (pool T !! i); [eauto|done]. Qed.

Lemma walk_app T i p q :
  walk T i (p ++ q) = match walk T i p with Some j => walk T j q | None => None end.
Proof.
  revert i. induction p as [|k p IH]; intros i; [done|].
  cbn [app walk]. destruct (child T i k) as [c|]; [|done].
  destruct (c =? INVALID_OFFSET); [done|]. apply IH.
Qed.

Lemma walk_snoc T i p k j :
  walk T i p = Some j →
  walk T i (p ++ [k])
  = match child T j k with
    | Some c => if c =? INVALID_OFFSET then None else Some c
    | None => None
    end.
Proof. intros H. rewrite walk_app, H. cbn. by destruct (child T j k). Qed.

(** *** The pool after each kind of write *)

Lemma child_alloc_old T cap i k :
  i ≠ count T → child (Trie_alloc T cap) i k = child T i k.
Proof. intros Hi. unfold child, Trie_alloc. cbn [pool]. by rewrite lookup_insert_ne. Qed.

Lemma child_alloc_new T cap k c :
  child (Trie_alloc T cap) (count T) k = Some c → c = INVALID_OFFSET.
Proof.
  unfold child, Trie_alloc. cbn [pool]. rewrite lookup_insert_eq.
  intros [_ H]%node_child_Some. by eapply blank_node_children.
Qed.

Lemma child_bind_same T i idx v n c0 :
  pool T !! i = Some n → child T i idx = Some c0 →
  child (Trie_bind T i idx v n) i idx = Some v.
Proof.
  intros Hn. unfold child, Trie_bind. cbn [pool]. rewrite Hn, lookup_insert_eq.
  intros [Hr Hc]%node_child_Some. apply node_child_Some. split; [done|].
  cbn [children]. apply list_lookup_insert_eq. by eapply lookup_lt_Some.
Qed.

Lemma child_bind_other T i idx v n j k :
  pool T !! i = Some n → 0 ≤ idx → (j ≠ i ∨ k ≠ idx) →
  child (Trie_bind T i idx v n) j k = child T j k.
Proof.
  intros Hn Hidx Hne. unfold child, Trie_bind. cbn [pool].
  destruct (decide (j = i)) as [->|Hj].
  - destruct Hne as [?|Hk]; [done|]. rewrite Hn, lookup_insert_eq.
    unfold node_child. destruct (_ && _) eqn:Hb; [|done].
    apply andb_true_iff in Hb as [?%Z.leb_le _].
    cbn [children]. apply list_lookup_insert_ne. lia.
  - by rewrite lookup_insert_ne.
Qed.

Lemma child_mark T i b n j k :
  pool T !! i = Some n → child (Trie_mark T i b n) j k = child T j k.
Proof.
  intros Hn. unfold child, Trie_mark. cbn [pool].
  destruct (decide (j = i)) as [->|Hj].
  - by rewrite Hn, lookup_insert_eq.
  - by rewrite lookup_insert_ne.
Qed.

Lemma walk_mark T i b n j p :
  pool T !! i = Some n → walk (Trie_mark T i b n) j p = walk T j p.
Proof.
  intros Hn. revert j. induction p as [|k p IH]; intros j; [done|].
  cbn [walk]. rewrite child_mark by done.
  destruct (child T j k) as [c|]; [|done]. destruct (c =? INVALID_OFFSET); [done|]. apply IH.
Qed.

(** ** The invariant of a trie built by insertions *)

Lemma inv_child_total T name i k :
  trie_inv T name → 0 ≤ i < count T → 0 ≤ k < CHILDREN_COUNT →
  ∃ c, child T i k = Some c.
Proof.
  intros HI Hi Hk. destruct (inv_node _ _ HI i Hi) as (n & Hn & Hlen).
  unfold child. rewrite Hn.
  destruct (lookup_lt_is_Some_2 (children n) (Z.to_nat k)) as [c Hc]; [lia|].
  exists c. by apply node_child_Some.
Qed.

Lemma walk_name T name p : ∀ i j,
  trie_inv T name → 0 ≤ i < count T → walk T i p = Some j →
  0 ≤ j < count T ∧ name j = name i ++ p.
Proof.
  induction p as [|k p IH]; intros i j HI Hi; cbn [walk].
  - intros [= <-]. by rewrite app_nil_r.
  - destruct (child T i k) as [c|] eqn:Hc; [|done].
    destruct (c =? INVALID_OFFSET) eqn:Hinv; [done|]. apply Z.eqb_neq in Hinv.
    destruct (inv_edge _ _ HI i k c Hi Hc Hinv) as [Hlt Hname].
    intros Hw. destruct (IH c j HI ltac:(lia) Hw) as [Hj Hn].
    split; [done|]. by rewrite Hn, Hname, <- app_assoc.
Qed.

Lemma name_inj T name i j :
  trie_inv T name → 0 ≤ i < count T → 0 ≤ j < count T → name i = name j → i = j.
Proof.
  intros HI Hi Hj Heq.
  pose proof (inv_reach _ _ HI i Hi) as H1. pose proof (inv_reach _ _ HI j Hj) as H2.
  rewrite Heq in H1. congruence.
Qed.

(** *** Marking a node terminal *)

Lemma trie_inv_mark T name r b n :
  trie_inv T name → pool T !! r = Some n → trie_inv (Trie_mark T r b n) name.
Proof.
  intros HI Hn. split; cbn [Trie_mark count capacity pool].
  - apply HI.
  - intros i Hi. destruct (decide (i = r)) as [->|Hne].
    + rewrite lookup_insert_eq. eexists. split; [done|]. cbn [children].
      destruct (inv_node _ _ HI r Hi) as (n' & Hn' & Hlen). congruence.
    + rewrite lookup_insert_ne by done. by apply (inv_node _ _ HI).
  - apply HI.
  - intros i k c Hi. rewrite child_mark by done. by apply (inv_edge _ _ HI).
  - intros i Hi. rewrite walk_mark by done. by apply (inv_reach _ _ HI).
Qed.

(** *** Adding a node under a free slot *)

Section grow.
Context (T : Trie_t) (name : Z → list Z) (cap r idx : Z) (n : Node).
Hypothesis HI : trie_inv T name.
Hypothesis Hr : 0 ≤ r < count T.
Hypothesis Hn : pool T !! r = Some n.
Hypothesis Hfree : child T r idx = Some INVALID_OFFSET.
Hypothesis Hcap : count T < cap ≤ INT32_MAX.

Let T2 := Trie_grow T cap r idx n.

Lemma grow_pool_r : pool (Trie_alloc T cap) !! r = Some n.
Proof. unfold Trie_alloc. cbn [pool]. rewrite lookup_insert_ne by lia. done. Qed.

Lemma grow_child_new : child T2 r idx = Some (count T).
Proof.
  unfold T2, Trie_grow. eapply child_bind_same; [apply grow_pool_r|].
  rewrite child_alloc_old by lia. done.
Qed.

Lemma grow_child_leaf k c : child T2 (count T) k = Some c → c = INVALID_OFFSET.
Proof.
  unfold T2, Trie_grow. intros H.
  pose proof (child_Some_range _ _ _ _ Hfree) as Hidx.
  rewrite child_bind_other in H; [|apply grow_pool_r|lia|left; lia].
  by eapply child_alloc_new.
Qed.

Lemma grow_child_old j k :
  j ≠ count T → (j ≠ r ∨ k ≠ idx) → child T2 j k = child T j k.
Proof.
  intros Hj Hne. unfold T2, Trie_grow.
  pose proof (child_Some_range _ _ _ _ Hfree) as Hidx.
  rewrite child_bind_other; [|apply grow_pool_r|lia|done].
  by apply child_alloc_old.
Qed.

Lemma grow_walk q : ∀ a b,
  0 ≤ a < count T → walk T a q = Some b → walk T2 a q = Some b.
Proof.
  induction q as [|k q IH]; intros a b Ha; cbn [walk]; [done|].
  destruct (child T a k) as [c|] eqn:Hc; [|done].
  destruct (c =? INVALID_OFFSET) eqn:Hinv; [done|].
  rewrite grow_child_old, Hc, Hinv.
  - apply Z.eqb_neq in Hinv.
    destruct (inv_edge _ _ HI a k c Ha Hc Hinv) as [Hlt _]. apply IH. lia.
  - lia.
  - destruct (decide (a = r)) as [->|]; [|by left]. right. intros ->.
    rewrite Hfree in Hc. injection Hc as <-. done.
Qed.

Lemma grow_name_old j : j ≠ count T → name_grow T name r idx j = name j.
Proof. intros Hj. unfold name_grow. by destruct (decide _). Qed.

Lemma grow_name_new : name_grow T name r idx (count T) = name r ++ [idx].
Proof. unfold name_grow. by destruct (decide _). Qed.

Lemma trie_inv_grow : trie_inv T2 (name_grow T name r idx).
Proof.
  pose proof (inv_count _ _ HI) as Hcount.
  pose proof (child_Some_range _ _ _ _ Hfree) as Hidx.
  split.
  - unfold T2, Trie_grow, Trie_bind, Trie_alloc. cbn [count capacity]. lia.
  - intros i Hi. unfold T2, Trie_grow, Trie_bind, Trie_alloc in *.
    cbn [count capacity pool] in *.
    destruct (decide (i = r)) as [->|Hir].
    + rewrite lookup_insert_eq. eexists. split; [done|]. cbn [children].
      rewrite length_insert. destruct (inv_node _ _ HI r Hr) as (n' & Hn' & Hlen).
      congruence.
    + rewrite lookup_insert_ne by done.
      destruct (decide (i = count T)) as [->|Hic].
      * rewrite lookup_insert_eq. eexists. split; [done|].
        unfold blank_node. cbn [children]. apply length_replicate.
      * rewrite lookup_insert_ne by done. apply (inv_node _ _ HI). lia.
  - rewrite grow_name_old by lia. apply HI.
  - intros i k c Hi Hc Hinv.
    replace (count T2) with (count T + 1) in * by done.
    destruct (decide (i = count T)) as [->|Hic].
    { by apply grow_child_leaf in Hc. }
    rewrite (grow_name_old i) by done.
    destruct (decide (i = r ∧ k = idx)) as [[-> ->]|Hne].
    + rewrite grow_child_new in Hc. injection Hc as <-.
      rewrite grow_name_new. split; [lia|done].
    + rewrite grow_child_old in Hc; [|done|].
      * destruct (inv_edge _ _ HI i k c ltac:(lia) Hc Hinv) as [Hlt Hname].
        rewrite grow_name_old by lia. split; [lia|done].
      * destruct (decide (i = r)); [|by left]. right. intros ->. by apply Hne.
  - intros i Hi. replace (count T2) with (count T + 1) in * by done.
    destruct (decide (i = count T)) as [->|Hic].
    + rewrite grow_name_new.
      assert (H0 : 0 ≤ 0 < count T) by lia.
      pose proof (grow_walk (name r) 0 r H0 (inv_reach _ _ HI r Hr)) as Hw.
      rewrite (walk_snoc _ _ _ _ _ Hw), grow_child_new.
      replace (count T =? INVALID_OFFSET) with false; [done|].
      symmetry. apply Z.eqb_neq. unfold INVALID_OFFSET. lia.
    + rewrite grow_name_old by done. apply grow_walk; [lia|].
      apply (inv_reach _ _ HI). lia.
Qed.

Lemma marks_grow ws :
  marks T name ws → present T name ws → marks T2 (name_grow T name r idx) ws.
Proof.
  intros Hm Hp i m Hi Hpool.
  unfold T2, Trie_grow, Trie_bind, Trie_alloc in *. cbn [count capacity pool] in *.
  destruct (decide (i = r)) as [->|Hir].
  - rewrite lookup_insert_eq in Hpool. injection Hpool as <-. cbn [terminal].
    rewrite grow_name_old by lia. by apply Hm.
  - rewrite lookup_insert_ne in Hpool by done.
    destruct (decide (i = count T)) as [->|Hic].
    + rewrite lookup_insert_eq in Hpool. injection Hpool as <-.
      rewrite grow_name_new. split; [done|].
      intros (l & Hl & Hin)%list_elem_of_fmap.
      destruct (Hp l Hin) as (j & Hj & Hnj).
      pose proof (inv_reach _ _ HI j Hj) as Hw.
      rewrite Hnj, <- Hl in Hw.
      rewrite (walk_snoc _ _ _ _ _ (inv_reach _ _ HI r Hr)), Hfree in Hw. done.
    + rewrite lookup_insert_ne in Hpool by done.
      rewrite grow_name_old by done. apply Hm; [lia|done].
Qed.

Lemma present_grow ws : present T name ws → present T2 (name_grow T name r idx) ws.
Proof.
  intros Hp l Hl. destruct (Hp l Hl) as (j & Hj & Hnj).
  exists j. replace (count T2) with (count T + 1) by done.
  split; [lia|]. by rewrite grow_name_old by lia.
Qed.

Lemma covered_grow ws l :
  covered T name ws → l ∈ ws → (name r ++ [idx]) `prefix_of` offsets l →
  covered T2 (name_grow T name r idx) ws.
Proof.
  intros Hcov Hl Hpre i Hi. replace (count T2) with (count T + 1) in * by done.
  destruct (decide (i = count T)) as [->|Hic].
  - rewrite grow_name_new. eauto.
  - rewrite grow_name_old by done. apply Hcov. lia.
Qed.
End grow.

(** *** Insertion keeps the invariant *)

Lemma growth_le cap : 0 ≤ cap ≤ INT32_MAX → cap + growth cap ≤ INT32_MAX.
Proof.
  unfold growth. intros H.
  destruct (_ <? _) eqn:E; [apply Z.ltb_lt in E|apply Z.ltb_ge in E]; lia.
Qed.

Lemma marks_mark T name r n ws W :
  trie_inv T name → 0 ≤ r < count T → pool T !! r = Some n → marks T name ws →
  name r = offsets W → marks (Trie_mark T r true n) name (W :: ws).
Proof.
  intros HI Hr Hn Hm HW i m Hi Hpool. unfold Trie_mark in *. cbn [count pool] in *.
  rewrite fmap_cons, elem_of_cons.
  destruct (decide (i = r)) as [->|Hir].
  - rewrite lookup_insert_eq in Hpool. injection Hpool as <-. cbn [terminal]. tauto.
  - rewrite lookup_insert_ne in Hpool by done. rewrite (Hm i m Hi Hpool).
    split; [tauto|]. intros [Heq|?]; [|done].
    destruct Hir. apply (name_inj T name); [done..|]. congruence.
Qed.

Lemma present_mark T name r n b ws W :
  0 ≤ r < count T → present T name ws → name r = offsets W →
  present (Trie_mark T r b n) name (W :: ws).
Proof.
  intros Hr Hp HW l [->|Hl]%elem_of_cons; cbn [Trie_mark count]; [by exists r|by apply Hp].
Qed.

(** The effect of a successful [insert_text] on a trie that represents [ws],
    in the form the loop needs: [root_idx] is the node of the part of [W]
    read so far, and [text] is the rest of [W]. *)
Lemma insert_text_represents text : ∀ r w w' name ws W,
  trie_inv (Trie w) name → marks (Trie w) name ws → present (Trie w) name ws →
  covered (Trie w) name (W :: ws) →
  Forall printable text → offsets W = name r ++ offsets text → 0 ≤ r < count (Trie w) →
  insert_text r text w = Returns true w' →
  same_io w w' ∧
  ∃ name', trie_inv (Trie w') name' ∧ marks (Trie w') name' (W :: ws) ∧
           present (Trie w') name' (W :: ws) ∧ covered (Trie w') name' (W :: ws).
Proof.
  induction text as [|ch text IH]; intros r w w' name ws W HI Hm Hp Hcov Hpr HW Hr Hins.
  - cbn [insert_text] in Hins. apply bind_Returns in Hins as ([] & w1 & Hst & [= <-]).
    assert (Hf : final (store_terminal r true w) = Some w1) by (by rewrite Hst).
    apply store_terminal_final in Hf as (n & Hn & _ & ->).
    cbn [offsets fmap list_fmap] in HW. rewrite app_nil_r in HW.
    split; [by repeat split|]. exists name. cbn [Trie set_Trie].
    split; [by apply trie_inv_mark|]. split; [by apply marks_mark|].
    split; [by apply present_mark|]. exact Hcov.
  - apply Forall_cons in Hpr as [Hch Hpr].
    cbn [insert_text] in Hins. rewrite (printable_not_nul ch Hch) in Hins.
    fold (offset ch) in Hins.
    destruct (inv_child_total _ _ r (offset ch) HI Hr Hch) as [c Hc].
    apply bind_Returns in Hins as (c' & w1 & Hl & Hins).
    apply load_child_Returns in Hl as [-> Hc']. rewrite Hc in Hc'. injection Hc' as <-.
    assert (HW' : offsets W = (name r ++ [offset ch]) ++ offsets text).
    { rewrite HW. cbn [offsets fmap list_fmap]. by rewrite <- app_assoc. }
    destruct (c =? INVALID_OFFSET) eqn:Hinv.
    + apply Z.eqb_eq in Hinv. subst c.
      apply bind_Returns in Hins as (tmp & w1 & Ha & Hins).
      apply alloc_node_Returns in Ha
        as [(-> & _)|(-> & Hv & Hmax & Hio & cap & HT1 & Hvc & Hcap)]; [done|].
      replace (count (Trie w) =? INVALID_OFFSET) with false in Hins
        by (symmetry; apply Z.eqb_neq; unfold INVALID_OFFSET; lia).
      apply bind_Returns in Hins as ([] & w2 & Hs & Hins).
      assert (Hf : final (store_child r (offset ch) (count (Trie w)) w1) = Some w2)
        by (by rewrite Hs).
      apply store_child_final in Hf as (n & Hn & _ & _ & ->).
      apply bind_Returns in Hins as (next & w3 & Hl & Hins).
      apply load_child_Returns in Hl as [-> Hnext]. cbn [Trie set_Trie] in Hnext.
      rewrite HT1 in Hn, Hnext.
      assert (Hn0 : pool (Trie w) !! r = Some n).
      { unfold Trie_alloc in Hn. cbn [pool] in Hn. by rewrite lookup_insert_ne in Hn by lia. }
      assert (Hcap' : count (Trie w) < cap ≤ INT32_MAX).
      { pose proof (inv_count _ _ HI). split; [done|].
        destruct Hcap as [->|[_ ->]]; [lia|]. apply growth_le. lia. }
      fold (Trie_grow (Trie w) cap r (offset ch) n) in Hnext.
      rewrite grow_child_new in Hnext by done. injection Hnext as <-.
      set (w2 := set_Trie (Trie_bind (Trie w1) r (offset ch) (count (Trie w)) n) w1) in *.
      assert (HT2 : Trie w2 = Trie_grow (Trie w) cap r (offset ch) n).
      { unfold w2. cbn [Trie set_Trie]. by rewrite HT1. }
      assert (Hio2 : same_io w1 w2) by (by repeat split).
      destruct (IH (count (Trie w)) w2 w' (name_grow (Trie w) name r (offset ch)) ws W)
        as (Hio' & name' & Hres); rewrite ?HT2.
      * by apply trie_inv_grow.
      * by apply marks_grow.
      * by apply present_grow.
      * apply covered_grow with (l := W); [done|by left|].
        rewrite HW'. by apply prefix_app_r.
      * done.
      * by rewrite grow_name_new.
      * cbn. lia.
      * exact Hins.
      * split; [|by exists name'].
        eapply same_io_trans; [exact Hio|]. by eapply same_io_trans.
    + apply Z.eqb_neq in Hinv.
      apply bind_Returns in Hins as (next & w3 & Hl & Hins).
      apply load_child_Returns in Hl as [-> Hnext]. rewrite Hc in Hnext. injection Hnext as <-.
      destruct (inv_edge _ _ HI r (offset ch) c Hr Hc Hinv) as [Hlt Hname].
      apply (IH c w w' name ws W); try done; [by rewrite Hname|lia].
Qed.

Lemma represents_equiv T ws ws' :
  (∀ x, x ∈ ws ↔ x ∈ ws') → represents T ws → represents T ws'.
Proof.
  intros Heq (name & HI & Hm & Hp & Hc). exists name. split; [done|].
  assert (Hf : ∀ p, p ∈ offsets <$> ws ↔ p ∈ offsets <$> ws').
  { intros p. rewrite !list_elem_of_fmap. by setoid_rewrite Heq. }
  split; [|split].
  - intros i n Hi Hn. rewrite <- Hf. by apply Hm.
  - intros l Hl. apply Hp. by apply Heq.
  - intros i Hi. destruct (Hc i Hi) as (l & Hl & Hpre). exists l. by rewrite <- Heq.
Qed.

Lemma insert_text_root_represents w w' ws W :
  represents (Trie w) ws → Forall printable W →
  insert_text 0 W w = Returns true w' →
  same_io w w' ∧ represents (Trie w') (W :: ws).
Proof.
  intros (name & HI & Hm & Hp & Hc) HW Hins.
  destruct (insert_text_represents W 0 w w' name ws W) as (Hio & name' & Hres); try done.
  - intros i Hi. destruct (Hc i Hi) as (l & Hl & Hpre). exists l. split; [by right|done].
  - by rewrite (inv_root _ _ HI).
  - pose proof (inv_count _ _ HI). lia.
  - split; [done|]. by exists name'.
Qed.

Lemma populate_trie_represents lines : ∀ w w' ws,
  represents (Trie w) ws → Forall (Forall printable) lines →
  populate_trie 0 lines w = Returns true w' →
  same_io w w' ∧ represents (Trie w') (lines ++ ws).
Proof.
  induction lines as [|l lines IH]; intros w w' ws Hrep Hpr Hpop.
  - injection Hpop as <-. split; [apply same_io_refl|done].
  - apply Forall_cons in Hpr as [Hl Hpr]. cbn [populate_trie] in Hpop.
    apply bind_Returns in Hpop as (ok & w1 & Hins & Hpop).
    destruct ok; [|discriminate].
    destruct (insert_text_root_represents w w1 ws l Hrep Hl Hins) as [Hio Hrep1].
    destruct (IH w1 w' (l :: ws) Hrep1 Hpr Hpop) as [Hio' Hrep'].
    split; [by eapply same_io_trans|].
    eapply represents_equiv; [|exact Hrep']. intros x.
    cbn [app]. rewrite elem_of_cons, !elem_of_app, elem_of_cons. tauto.
Qed.

Lemma root_represents : represents root_Trie [].
Proof.
  exists (λ _, []). split; [split|split; [|split]].
  - by vm_compute.
  - intros i Hi. replace i with 0 by (cbn in Hi; lia). exists blank_node.
    split; [done|]. unfold blank_node. cbn [children]. apply length_replicate.
  - done.
  - intros i k c Hi Hc Hne. replace i with 0 in Hc by (cbn in Hi; lia).
    by apply (child_alloc_new (mkTrie ∅ 0 INITIAL_POOL_CAP)) in Hc.
  - intros i Hi. cbn in Hi. cbn [walk]. f_equal. lia.
  - intros i n Hi Hn. replace i with 0 in Hn by (cbn in Hi; lia).
    unfold root_Trie, Trie_alloc in Hn. cbn [pool count] in Hn.
    rewrite lookup_insert_eq in Hn. injection Hn as <-. cbn. split; [done|].
    by intros ?%elem_of_nil.
  - by intros l ?%elem_of_nil.
  - intros i Hi. cbn in Hi. lia.
Qed.

(** What [build] leaves: a trie of the lines, and the buffer and the output
    streams as they were when the program started. *)
Lemma build_represents h lines w :
  Forall (Forall printable) lines → build lines (initial_world h) = Returns true w →
  represents (Trie w) lines ∧ same_io (initial_world h) w.
Proof.
  intros Hpr Hb. unfold build in Hb.
  apply bind_Returns in Hb as (ok & w1 & Hinit & Hb).
  assert (ok = true → Trie w1 = mkTrie ∅ 0 INITIAL_POOL_CAP ∧ same_io (initial_world h) w1)
    as Hw1.
  { unfold init_pool, bind, realloc in Hinit. cbn [initial_world heap] in Hinit.
    destruct h as [|[] h]; cbn in Hinit; injection Hinit as <- <-; try done;
      intros _; by repeat split. }
  destruct ok; [|discriminate]. destruct Hw1 as [HT1 Hio1]; [done|].
  apply bind_Returns in Hb as (root_idx & w2 & Ha & Hb).
  rewrite alloc_node_free_cell in Ha by (rewrite HT1; by vm_compute).
  rewrite HT1 in Ha. injection Ha as <- <-.
  fold root_Trie in Hb. cbn [count] in Hb.
  change (0 =? INVALID_OFFSET) with false in Hb. cbn match in Hb.
  destruct (populate_trie_represents lines (set_Trie root_Trie w1) w []) as [Hio Hrep].
  - cbn [Trie set_Trie]. apply root_represents.
  - done.
  - exact Hb.
  - split; [by rewrite app_nil_r in Hrep|].
    eapply same_io_trans; [exact Hio1|]. eapply same_io_trans; [|exact Hio]. by repeat split.
Qed.

(** ** Prefix descent and the buffer *)

Lemma pushed_refl w : buffer_ok w → pushed w [] w.
Proof. intros Hok. unfold pushed. rewrite app_nil_r. repeat split; try done; try apply Hok. cbn. lia. Qed.

Lemma pushed_trans w u w1 v w2 : pushed w u w1 → pushed w1 v w2 → pushed w (u ++ v) w2.
Proof.
  unfold pushed. intros (?&?&?&?&?&?&?&?) (?&?&?&?&?&?&?&?).
  rewrite length_app, app_assoc. repeat split; try congruence; try lia; apply H10.
Qed.

Lemma ac_buffer_push_ok ch w :
  buffer_ok w → ac_buffer_sz w < AC_BUFFER_CAP →
  ∃ w1, ac_buffer_push ch w = Returns tt w1 ∧ pushed w [ch] w1.
Proof.
  intros [Hsz Hlen] Hroom. unfold ac_buffer_push.
  replace ((0 <=? ac_buffer_sz w) && (ac_buffer_sz w <? AC_BUFFER_CAP)) with true
    by (symmetry; apply andb_true_iff; split; [apply Z.leb_le|apply Z.ltb_lt]; lia).
  eexists. split; [done|]. unfold pushed, buffer_text, buffer_ok. cbn.
  repeat split; try done; try lia.
  - replace (Z.to_nat (ac_buffer_sz w + 1)) with (S (Z.to_nat (ac_buffer_sz w))) by lia.
    erewrite take_S_r; [|apply list_lookup_insert_eq; lia].
    by rewrite take_insert_ge by lia.
  - by rewrite length_insert.
Qed.

Lemma pushed_room w u w1 : pushed w u w1 → buffer_ok w1.
Proof. by intros (_ & _ & _ & ? & _). Qed.

(** [find_prefix] along a path that exists: the bytes of the path go to the
    buffer and the descent goes on from the node reached. *)
Lemma find_prefix_walk u : ∀ r w j rest,
  walk (Trie w) r (offsets u) = Some j → buffer_ok w →
  ac_buffer_sz w + Z.of_nat (length u) ≤ AC_BUFFER_CAP →
  ∃ w1, find_prefix r (u ++ rest) w = find_prefix j rest w1 ∧ pushed w u w1.
Proof.
  induction u as [|ch u IH]; intros r w j rest Hw Hok Hroom.
  - injection Hw as <-. exists w. split; [done|]. by apply pushed_refl.
  - cbn [offsets fmap list_fmap walk] in Hw. fold (offsets u) in Hw.
    destruct (child (Trie w) r (offset ch)) as [c|] eqn:Hc; [|done].
    destruct (c =? INVALID_OFFSET) eqn:Hinv; [done|].
    pose proof (child_Some_range _ _ _ _ Hc) as Hch.
    cbn [app find_prefix]. rewrite (printable_not_nul ch Hch). fold (offset ch).
    unfold bind at 1. rewrite load_child_eq, Hc, Hinv.
    unfold bind at 1. rewrite load_child_eq, Hc.
    cbn [length] in Hroom.
    destruct (ac_buffer_push_ok ch w Hok) as (w1 & Hpush & Hp1); [lia|].
    unfold bind at 1. rewrite Hpush.
    pose proof Hp1 as (HT & Htxt & Hsz & Hok1 & Hrest).
    destruct (IH c w1 j rest) as (w2 & Hfp & Hp2); [by rewrite HT|done|cbn in Hsz; lia|].
    exists w2. split; [done|].
    by apply (pushed_trans w [ch] w1 u w2).
Qed.

(** A path that does not exist stops at a free slot. *)
Lemma walk_None_split T name P : ∀ r,
  trie_inv T name → 0 ≤ r < count T → Forall printable P →
  walk T r (offsets P) = None →
  ∃ u ch rest j, P = u ++ ch :: rest ∧ walk T r (offsets u) = Some j ∧
                 child T j (offset ch) = Some INVALID_OFFSET.
Proof.
  induction P as [|ch P IH]; intros r HI Hr Hpr Hw; [done|].
  apply Forall_cons in Hpr as [Hch Hpr].
  cbn [offsets fmap list_fmap walk] in Hw. fold (offsets P) in Hw.
  destruct (inv_child_total _ _ r (offset ch) HI Hr Hch) as [c Hc]. rewrite Hc in Hw.
  destruct (c =? INVALID_OFFSET) eqn:Hinv.
  - apply Z.eqb_eq in Hinv. subst c. by exists [], ch, P, r.
  - apply Z.eqb_neq in Hinv.
    destruct (inv_edge _ _ HI r _ c Hr Hc Hinv) as [Hlt _].
    destruct (IH c HI ltac:(lia) Hpr Hw) as (u & ch' & rest & j & -> & Hwu & Hfree).
    exists (ch :: u), ch', rest, j. split; [done|]. split; [|done].
    cbn [offsets fmap list_fmap walk]. rewrite Hc.
    replace (c =? INVALID_OFFSET) with false by (symmetry; by apply Z.eqb_neq). done.
Qed.

Lemma find_prefix_found w r P j :
  walk (Trie w) r (offsets P) = Some j → buffer_ok w →
  ac_buffer_sz w + Z.of_nat (length P) ≤ AC_BUFFER_CAP →
  ∃ w1, find_prefix r P w = Returns j w1 ∧ pushed w P w1.
Proof.
  intros Hw Hok Hroom.
  destruct (find_prefix_walk P r w j [] Hw Hok Hroom) as (w1 & Hfp & Hp).
  rewrite app_nil_r in Hfp. by exists w1.
Qed.

Lemma find_prefix_missing w r u ch rest j :
  walk (Trie w) r (offsets u) = Some j →
  child (Trie w) j (offset ch) = Some INVALID_OFFSET → buffer_ok w →
  ac_buffer_sz w + Z.of_nat (length u) ≤ AC_BUFFER_CAP →
  ∃ w1, find_prefix r (u ++ ch :: rest) w = Returns INVALID_OFFSET w1 ∧ pushed w u w1.
Proof.
  intros Hw Hfree Hok Hroom.
  destruct (find_prefix_walk u r w j (ch :: rest) Hw Hok Hroom) as (w1 & Hfp & Hp).
  exists w1. split; [|done]. rewrite Hfp. cbn [find_prefix].
  pose proof (child_Some_range _ _ _ _ Hfree) as Hch.
  rewrite (printable_not_nul ch Hch). fold (offset ch).
  destruct Hp as (HT & _). unfold bind. by rewrite load_child_eq, HT, Hfree.
Qed.

(** C10: [find_prefix] pushes every byte it matches on [ac_buffer], and keeps
    them there when it then returns [INVALID_OFFSET]: for a prefix
    [u ++ ch :: rest] whose part [u] leads from [root_idx] to a node that has
    no child for [ch], the call returns [INVALID_OFFSET] and the buffer holds
    what it held before followed by [u]; nothing is popped.  (When the whole
    prefix is matched the buffer holds it all.) *)
Theorem find_prefix_keeps_matched_bytes (w : World) (root_idx : Z)
    (u : list ascii) (ch : ascii) (rest : list ascii) (j : Z) :
  walk (Trie w) root_idx (offsets u) = Some j →
  buffer_ok w → ac_buffer_sz w + Z.of_nat (length u) ≤ AC_BUFFER_CAP →
  (child (Trie w) j (offset ch) = Some INVALID_OFFSET →
   ∃ w1, find_prefix root_idx (u ++ ch :: rest) w = Returns INVALID_OFFSET w1 ∧
         buffer_text w1 = buffer_text w ++ u ∧
         ac_buffer_sz w1 = ac_buffer_sz w + Z.of_nat (length u) ∧
         Trie w1 = Trie w) ∧
  (∃ w1, find_prefix root_idx u w = Returns j w1 ∧
         buffer_text w1 = buffer_text w ++ u ∧
         ac_buffer_sz w1 = ac_buffer_sz w + Z.of_nat (length u) ∧
         Trie w1 = Trie w).
Proof.
  intros Hw Hok Hroom. split.
  - intros Hfree.
    destruct (find_prefix_missing w root_idx u ch rest j Hw Hfree Hok Hroom)
      as (w1 & Hfp & HT & Htxt & Hsz & _).
    by exists w1.
  - destruct (find_prefix_found w root_idx u j Hw Hok Hroom)
      as (w1 & Hfp & HT & Htxt & Hsz & _).
    by exists w1.
Qed.

Lemma find_prefix_keeps_matched_bytes_witness :
  ∃ w1, find_prefix 0 (word "cab") demo_world = Returns INVALID_OFFSET w1 ∧
        buffer_text w1 = buffer_text demo_world ++ word "ca" ∧
        ac_buffer_sz w1 = 2 ∧ Trie w1 = Trie demo_world.
Proof.
  refine (proj1 (find_prefix_keeps_matched_bytes demo_world 0 (word "ca") "b"%char [] 2 _ _ _) _).
  - vm_compute. reflexivity.
  - split; [split; vm_compute; discriminate|vm_compute; reflexivity].
  - vm_compute. discriminate.
  - vm_compute. reflexivity.
Defined.

(** ** What the traversals write *)

Lemma unlines_app a b : unlines (a ++ b) = unlines a ++ unlines b.
Proof. unfold unlines. by rewrite fmap_app, concat_app. Qed.

Lemma effects_refl w : effects w [] [] w.
Proof. unfold effects. cbn. rewrite !app_nil_r. split_and!; done. Qed.

Lemma effects_trans w1 o1 s1 w2 o2 s2 w3 :
  effects w1 o1 s1 w2 → effects w2 o2 s2 w3 → effects w1 (o1 ++ o2) (s1 ++ s2) w3.
Proof.
  unfold effects. intros (HT1&Hb1&Hs1&Hok1&Ho1&Hk1) (HT2&Hb2&Hs2&Hok2&Ho2&Hk2).
  rewrite unlines_app, !app_assoc, <- Ho1, <- Hk1.
  split_and!; try congruence. auto.
Qed.

(** A loop whose body only writes: the loop writes what the bodies write, in
    the order of the index. *)
Lemma for_loop_effects body (out : Z → list (list ascii)) (stm : Z → list stmt) n :
  ∀ k0 w,
  (∀ k w1 o s, k0 ≤ k < k0 + Z.of_nat n → effects w o s w1 →
     ∃ w2, body k w1 = Returns tt w2 ∧ effects w1 (out k) (stm k) w2) →
  ∃ w', for_loop n k0 body w = Returns tt w' ∧
        effects w (concat (out <$> seqZ k0 (Z.of_nat n)))
                  (concat (stm <$> seqZ k0 (Z.of_nat n))) w'.
Proof.
  induction n as [|n IH]; intros k0 w Hbody.
  - exists w. split; [done|]. apply effects_refl.
  - unfold for_loop; fold for_loop.
    destruct (Hbody k0 w [] [] ltac:(lia) (effects_refl w)) as (w1 & Hb & He1).
    unfold bind. rewrite Hb.
    destruct (IH (k0 + 1) w1) as (w2 & Hl & He2).
    { intros k w2 o s Hk He. apply (Hbody k w2 (out k0 ++ o) (stm k0 ++ s)); [lia|].
      by eapply effects_trans. }
    exists w2. split; [done|].
    replace (Z.of_nat (S n)) with (Z.succ (Z.of_nat n)) by lia.
    rewrite seqZ_cons by lia. rewrite Z.pred_succ. cbn [fmap list_fmap concat].
    replace (Z.succ k0) with (k0 + 1) by lia. by eapply effects_trans.
Qed.

(** ** Depth-first enumeration of a subtree *)

Lemma emitted_app T B d1 d2 : emitted T B (d1 ++ d2) = emitted T B d1 ++ emitted T B d2.
Proof. apply omap_app. Qed.

Lemma emitted_cons T B j v d :
  emitted T B ((j, v) :: d)
  = (if terminal_at T j then [B ++ (char_of_index <$> v)] else []) ++ emitted T B d.
Proof. unfold emitted. cbn. by destruct (terminal_at T j). Qed.

Lemma emitted_concat T B (ds : list (list (Z * list Z))) :
  emitted T B (concat ds) = concat (emitted T B <$> ds).
Proof.
  induction ds as [|d ds IH]; [done|]. cbn [concat fmap list_fmap].
  by rewrite emitted_app, IH.
Qed.

Lemma emitted_cons_path T B k d :
  emitted T B (prod_map id (cons k) <$> d) = emitted T (B ++ [char_of_index k]) d.
Proof.
  unfold emitted. induction d as [|[j v] d IH]; [done|].
  cbn [fmap list_fmap omap list_omap prod_map fst snd id]. rewrite <- IH.
  cbn [fmap list_fmap]. destruct (terminal_at T j); [|done].
  by rewrite <- app_assoc.
Qed.

Lemma buffer_text_length w : buffer_ok w → length (buffer_text w) = Z.to_nat (ac_buffer_sz w).
Proof. intros [Hsz Hlen]. unfold buffer_text. rewrite length_take. lia. Qed.

(** A pop undoes the push made before a traversal that kept the buffer. *)
Lemma ac_buffer_pop_effects w0 ch w3 o s w4 :
  buffer_ok w0 → pushed w0 [ch] w3 → effects w3 o s w4 →
  ∃ w5, ac_buffer_pop w4 = Returns tt w5 ∧ effects w0 o s w5.
Proof.
  intros Hok0 (HT3 & Hb3 & Hs3 & Hok3 & Ho3 & Hk3 & _) (HT4 & Hb4 & Hs4 & Hok4 & Ho4 & Hk4).
  cbn [length] in Hs3. pose proof Hok0 as [Hsz0 Hlen0]. pose proof (Hok4 Hok3) as [Hsz4 Hlen4].
  unfold ac_buffer_pop.
  replace (ac_buffer_sz w4 >? 0) with true by (symmetry; apply Z.gtb_lt; lia).
  eexists. split; [done|]. unfold effects, buffer_text, buffer_ok. cbn.
  split_and!; try congruence; try lia.
  - replace (Z.to_nat (ac_buffer_sz w4 - 1)) with (Z.to_nat (ac_buffer_sz w0)) by lia.
    assert (Ht : take (Z.to_nat (ac_buffer_sz w0)) (buffer_text w4) = buffer_text w0).
    { rewrite Hb4, Hb3. rewrite take_app_length'; [done|]. symmetry. by apply buffer_text_length. }
    transitivity (buffer_text w0); [|done].
    rewrite <- Ht. unfold buffer_text. rewrite take_take. f_equal. lia.
Qed.

Lemma concat_fmap_nil {A B} (l : list A) : concat ((λ _, @nil B) <$> l) = [].
Proof. by induction l. Qed.

(** [print_suggestions] writes the words of the terminal nodes below
    [root_idx], in the order of [dfs], each as the buffer text followed by
    the letters of its path. *)
Lemma print_suggestions_effects name fuel : ∀ i w,
  trie_inv (Trie w) name → shallow (Trie w) name →
  0 ≤ i < count (Trie w) → count (Trie w) - i ≤ Z.of_nat fuel →
  buffer_ok w → ac_buffer_sz w = Z.of_nat (length (name i)) →
  ∃ w', print_suggestions fuel i w = Returns tt w' ∧
        effects w (emitted (Trie w) (buffer_text w) (dfs fuel (Trie w) i)) [] w'.
Proof.
  induction fuel as [|fuel IH]; intros i w HI Hsh Hi Hfuel Hok Hsz; [lia|].
  cbn [print_suggestions dfs].
  destruct (inv_node _ _ HI i Hi) as (n & Hn & _).
  unfold bind at 1. unfold load_node. rewrite Hn.
  set (B := buffer_text w).
  set (first := if terminal n then [B] else []).
  assert (∃ w1, (if terminal n then write_buffer_line else ret tt) w = Returns tt w1 ∧
                effects w first [] w1) as (w1 & Hw1 & He1).
  { unfold first. destruct (terminal n).
    - eexists. split; [done|]. unfold effects, unlines. cbn. rewrite !app_nil_r.
      split_and!; done.
    - exists w. split; [done|]. apply effects_refl. }
  unfold bind at 1. rewrite Hw1.
  set (block := λ k, match child (Trie w) i k with
                     | Some c => if c =? INVALID_OFFSET then []
                                 else prod_map id (cons k) <$> dfs fuel (Trie w) c
                     | None => []
                     end).
  match goal with |- context [for_loop _ _ ?body] =>
    destruct (for_loop_effects body (λ k, emitted (Trie w) B (block k)) (λ _, [])
                (Z.to_nat CHILDREN_COUNT) 0 w1) as (w' & Hloop & He)
  end.
  2: { exists w'. split; [exact Hloop|].
       replace (Z.of_nat (Z.to_nat CHILDREN_COUNT)) with CHILDREN_COUNT in He by done.
       rewrite concat_fmap_nil in He.
       pose proof (effects_trans _ _ _ _ _ _ _ He1 He) as Hall. cbn [app] in Hall.
       replace (emitted (Trie w) B _) with
         (first ++ concat ((λ k, emitted (Trie w) B (block k)) <$> seqZ 0 CHILDREN_COUNT));
         [exact Hall|].
       rewrite emitted_cons, emitted_concat, <- list_fmap_compose.
       unfold terminal_at. rewrite Hn. cbn [fmap list_fmap]. rewrite app_nil_r.
       done. }
  intros k w2 o s Hk He2. cbn beta.
  replace (0 + Z.of_nat (Z.to_nat CHILDREN_COUNT)) with CHILDREN_COUNT in Hk by done.
  pose proof (effects_trans _ _ _ _ _ _ _ He1 He2) as (HT2 & Hb2 & Hs2 & Hok2 & _).
  destruct (inv_child_total _ _ i k HI Hi Hk) as [c Hc].
  unfold bind at 1. rewrite load_child_eq, HT2, Hc. unfold block. rewrite Hc.
  destruct (c =? INVALID_OFFSET) eqn:Hinv; cbn [negb].
  { exists w2. split; [done|]. apply effects_refl. }
  apply Z.eqb_neq in Hinv.
  destruct (inv_edge _ _ HI i k c Hi Hc Hinv) as [Hlt Hname].
  pose proof (Hsh c ltac:(lia)) as Hdepth. rewrite Hname, length_app in Hdepth.
  cbn [length] in Hdepth.
  destruct (ac_buffer_push_ok (char_of_index k) w2 (Hok2 Hok)) as (w3 & Hpush & Hp3); [lia|].
  unfold bind at 1. rewrite Hpush.
  pose proof Hp3 as (HT3 & Hb3 & Hs3 & Hok3 & _). cbn [length] in Hs3.
  unfold bind at 1. rewrite load_child_eq, HT3, HT2, Hc.
  destruct (IH c w3) as (w4 & Hrec & He4).
  { by rewrite HT3, HT2. }
  { by rewrite HT3, HT2. }
  { rewrite HT3, HT2. lia. }
  { rewrite HT3, HT2. lia. }
  { done. }
  { rewrite Hname, length_app. cbn [length]. lia. }
  unfold bind at 1. rewrite Hrec.
  destruct (ac_buffer_pop_effects w2 _ w3 _ _ w4 (Hok2 Hok) Hp3 He4) as (w5 & Hpop & He5).
  exists w5. split; [done|].
  rewrite emitted_cons_path. by rewrite HT3, HT2, Hb3, Hb2 in He5.
Qed.

(** *** The enumeration and the paths *)

Lemma elem_of_concat_fmap {A B} (f : A → list B) (l : list A) (x : B) :
  x ∈ concat (f <$> l) ↔ ∃ k, k ∈ l ∧ x ∈ f k.
Proof.
  induction l as [|a l IH]; cbn [fmap list_fmap concat].
  - split; [by intros ?%elem_of_nil|by intros (k & ?%elem_of_nil & _)].
  - rewrite elem_of_app, IH. split.
    + intros [H|(k & Hk & H)]; [exists a|exists k]; split; try done; [by left|by right].
    + intros (k & [->|Hk]%elem_of_cons & H); [by left|right; eauto].
Qed.

(** The enumeration holds a node with a path exactly when the path leads to
    the node. *)
Lemma dfs_walk fuel T : ∀ i j v, (j, v) ∈ dfs fuel T i → walk T i v = Some j.
Proof.
  induction fuel as [|fuel IH]; intros i j v; cbn [dfs]; [by intros ?%elem_of_nil|].
  intros [[= -> ->]|H]%elem_of_cons; [done|].
  apply elem_of_concat_fmap in H as (k & Hk & H).
  destruct (child T i k) as [c|] eqn:Hc; [|by apply elem_of_nil in H].
  destruct (c =? INVALID_OFFSET) eqn:Hinv; [by apply elem_of_nil in H|].
  apply list_elem_of_fmap in H as ([j' v'] & [= -> ->] & H).
  cbn [walk]. rewrite Hc, Hinv. by apply IH.
Qed.

Lemma dfs_complete T name fuel : ∀ i j v,
  trie_inv T name → 0 ≤ i < count T → count T - i ≤ Z.of_nat fuel →
  walk T i v = Some j → (j, v) ∈ dfs fuel T i.
Proof.
  induction fuel as [|fuel IH]; intros i j v HI Hi Hfuel Hw; [lia|].
  cbn [dfs]. destruct v as [|k v]; cbn [walk] in Hw.
  - injection Hw as <-. by left.
  - right. destruct (child T i k) as [c|] eqn:Hc; [|done].
    destruct (c =? INVALID_OFFSET) eqn:Hinv; [done|].
    apply elem_of_concat_fmap. exists k. split.
    + apply elem_of_seqZ. pose proof (child_Some_range _ _ _ _ Hc). lia.
    + rewrite Hc, Hinv. apply Z.eqb_neq in Hinv.
      destruct (inv_edge _ _ HI i k c Hi Hc Hinv) as [Hlt _].
      apply list_elem_of_fmap. exists (j, v). split; [done|]. apply IH; [done|lia|lia|done].
Qed.

(** ** The order of the enumeration *)

Lemma lex_lt_app_l p a b : lex_lt (p ++ a) (p ++ b) ↔ lex_lt a b.
Proof.
  induction p as [|x p IH]; [done|]. cbn [app lex_lt]. rewrite IH. split; [|tauto].
  intros [?|[_ ?]]; [lia|done].
Qed.

Lemma lex_lt_chars v v' :
  slots_in_range v → slots_in_range v' → lex_lt v v' →
  bytes_lt (char_of_index <$> v) (char_of_index <$> v').
Proof.
  unfold bytes_lt. intros Hv. revert v'.
  induction Hv as [|k v Hk Hv IH]; intros v' Hv' Hlt; destruct Hv' as [|k' v' Hk' Hv'];
    cbn [fmap list_fmap lex_lt] in *; try done.
  assert (Hcode : ∀ x, 0 ≤ x < CHILDREN_COUNT → char_code (char_of_index x) = x + ASCII_OFFSET).
  { intros x Hx. pose proof (offset_char_of_index x Hx). unfold offset in *. lia. }
  rewrite (Hcode k Hk), (Hcode k' Hk').
  destruct Hlt as [?|[-> Hlt]]; [left; lia|right]. split; [done|]. by apply IH.
Qed.

Lemma StronglySorted_concat_seqZ {A} (R : relation A) (f : Z → list A) n : ∀ k0,
  (∀ k, StronglySorted R (f k)) →
  (∀ k k' x y, k < k' → x ∈ f k → y ∈ f k' → R x y) →
  StronglySorted R (concat (f <$> seqZ k0 (Z.of_nat n))).
Proof.
  induction n as [|n IH]; intros k0 Hs Hlt; [constructor|].
  replace (Z.of_nat (S n)) with (Z.succ (Z.of_nat n)) by lia.
  rewrite seqZ_cons by lia. rewrite Z.pred_succ. cbn [fmap list_fmap concat].
  apply StronglySorted_app. split; [|split; [apply Hs|by apply IH]].
  intros x y Hx (k & Hk & Hy)%elem_of_concat_fmap.
  apply elem_of_seqZ in Hk. apply (Hlt k0 k); [lia|done..].
Qed.

Lemma dfs_slots_in_range fuel T : ∀ i, Forall (λ jv, slots_in_range jv.2) (dfs fuel T i).
Proof.
  induction fuel as [|fuel IH]; intros i; cbn [dfs]; [constructor|].
  constructor; [constructor|]. apply Forall_forall. intros [j v].
  intros (k & Hk & H)%elem_of_concat_fmap.
  destruct (child T i k) as [c|] eqn:Hc; [|by apply elem_of_nil in H].
  destruct (c =? INVALID_OFFSET); [by apply elem_of_nil in H|].
  apply list_elem_of_fmap in H as ([j' v'] & [= -> ->] & H).
  pose proof (IH c) as Hall. rewrite Forall_forall in Hall.
  constructor; [apply elem_of_seqZ in Hk; lia|]. exact (Hall _ H).
Qed.

Lemma dfs_sorted fuel T : ∀ i, StronglySorted path_lt (dfs fuel T i).
Proof.
  induction fuel as [|fuel IH]; intros i; cbn [dfs]; [constructor|].
  set (block := λ k, match child T i k with
                     | Some c => if c =? INVALID_OFFSET then []
                                 else prod_map id (cons k) <$> dfs fuel T c
                     | None => []
                     end).
  assert (Hhead : ∀ k jv, jv ∈ block k → ∃ v', jv.2 = k :: v').
  { intros k jv H. unfold block in H.
    destruct (child T i k) as [c|]; [|by apply elem_of_nil in H].
    destruct (c =? INVALID_OFFSET); [by apply elem_of_nil in H|].
    apply list_elem_of_fmap in H as ([j' v'] & -> & _). by exists v'. }
  apply StronglySorted_cons. split.
  - apply Forall_forall. intros jv (k & _ & H)%elem_of_concat_fmap.
    destruct (Hhead k jv H) as [v' Hv]. unfold path_lt. by rewrite Hv.
  - replace CHILDREN_COUNT with (Z.of_nat (Z.to_nat CHILDREN_COUNT)) by done.
    apply StronglySorted_concat_seqZ.
    + intros k. unfold block. destruct (child T i k) as [c|]; [|constructor].
      destruct (c =? INVALID_OFFSET); [constructor|].
      eapply StronglySorted_fmap; [|apply IH].
      intros [j v] [j' v'] Hlt. unfold path_lt in *. cbn. by right.
    + intros k k' x y Hkk Hx Hy.
      destruct (Hhead k x Hx) as [vx Hvx]. destruct (Hhead k' y Hy) as [vy Hvy].
      unfold path_lt. rewrite Hvx, Hvy. cbn. by left.
Qed.

Lemma StronglySorted_omap {A B} (R : relation A) (R' : relation B) (P : A → Prop)
    (f : A → option B) l :
  (∀ x y x' y', P x → P y → R x y → f x = Some x' → f y = Some y' → R' x' y') →
  Forall P l → StronglySorted R l → StronglySorted R' (omap f l).
Proof.
  intros Hf HP Hs. induction Hs as [|x l Hs IH Hx]; [constructor|].
  apply Forall_cons in HP as [HPx HP]. cbn [omap list_omap].
  destruct (f x) as [x'|] eqn:Hfx; [|by apply IH].
  apply StronglySorted_cons. split; [|by apply IH].
  apply Forall_forall. intros y' (y & Hy & Hfy)%list_elem_of_omap.
  rewrite Forall_forall in Hx. rewrite Forall_forall in HP.
  apply (Hf x y x' y'); auto.
Qed.

(** The words written for an enumeration come out in strictly increasing
    byte order. *)
Lemma emitted_sorted fuel T B i : StronglySorted bytes_lt (emitted T B (dfs fuel T i)).
Proof.
  unfold emitted.
  eapply (StronglySorted_omap path_lt bytes_lt (λ jv, slots_in_range jv.2));
    [|apply dfs_slots_in_range|apply dfs_sorted].
  intros [j v] [j' v'] x' y' Hv Hv' Hlt Hx Hy. cbn [fst snd] in *.
  destruct (terminal_at T j); [|done]. destruct (terminal_at T j'); [|done].
  injection Hx as <-. injection Hy as <-.
  unfold bytes_lt. rewrite !fmap_app. apply lex_lt_app_l. by apply lex_lt_chars.
Qed.

(** ** Completion of a prefix in a built trie *)

Lemma alphabet_lines_spec lines :
  alphabet_lines lines = true → Forall (Forall printable) lines.
Proof.
  unfold alphabet_lines. rewrite forallb_forall, Forall_forall. intros H l Hl.
  apply Forall_printableb, H. by apply list_elem_of_In.
Qed.

Lemma covered_shallow T name ws :
  trie_inv T name → covered T name ws → lines_fit ws = true → shallow T name.
Proof.
  intros HI Hcov Hfit j Hj. destruct (decide (j = 0)) as [->|Hne].
  - rewrite (inv_root _ _ HI). by vm_compute.
  - destruct (Hcov j ltac:(lia)) as (l & Hl & Hpre).
    unfold lines_fit in Hfit. rewrite forallb_forall in Hfit.
    specialize (Hfit l ltac:(by apply list_elem_of_In)). apply Z.leb_le in Hfit.
    apply prefix_length in Hpre. unfold offsets in Hpre. rewrite length_fmap in Hpre. lia.
Qed.

Lemma initial_buffer h w :
  same_io (initial_world h) w → buffer_ok w ∧ ac_buffer_sz w = 0 ∧ buffer_text w = [].
Proof.
  intros (Hb & Hs & _). unfold buffer_ok, buffer_text. rewrite Hb, Hs. cbn [initial_world ac_buffer ac_buffer_sz].
  split; [split; [by vm_compute|apply length_replicate]|]. done.
Qed.

(** In a trie that represents [ws], [find_prefix] from the root returns: the
    node of the prefix, with the prefix pushed on the buffer, or
    [INVALID_OFFSET] when the trie has no such path. *)
Lemma find_prefix_represents w name P :
  trie_inv (Trie w) name → shallow (Trie w) name → Forall printable P →
  buffer_ok w → ac_buffer_sz w = 0 →
  ∃ idx w1, find_prefix 0 P w = Returns idx w1 ∧ Trie w1 = Trie w ∧
    stdout w1 = stdout w ∧ sink w1 = sink w ∧
    (idx = INVALID_OFFSET ∧ walk (Trie w) 0 (offsets P) = None
     ∨ walk (Trie w) 0 (offsets P) = Some idx ∧ pushed w P w1).
Proof.
  intros HI Hsh HP Hok Hsz.
  assert (H0 : 0 ≤ 0 < count (Trie w)) by (pose proof (inv_count _ _ HI); lia).
  assert (Hroom : ∀ u j, walk (Trie w) 0 (offsets u) = Some j →
            ac_buffer_sz w + Z.of_nat (length u) ≤ AC_BUFFER_CAP).
  { intros u j Hw. destruct (walk_name _ _ _ _ _ HI H0 Hw) as [Hj Hn].
    pose proof (Hsh j Hj) as Hd. rewrite Hn, (inv_root _ _ HI) in Hd.
    cbn [app] in Hd. unfold offsets in Hd. rewrite length_fmap in Hd. lia. }
  destruct (walk (Trie w) 0 (offsets P)) as [j|] eqn:Hw.
  - destruct (find_prefix_found w 0 P j Hw Hok (Hroom P j Hw)) as (w1 & Hfp & Hp).
    exists j, w1. pose proof Hp as (HT & _ & _ & _ & Ho & Hk & _).
    split_and!; try done. by right.
  - destruct (walk_None_split _ _ P 0 HI H0 HP Hw) as (u & ch & rest & j & -> & Hwu & Hfree).
    destruct (find_prefix_missing w 0 u ch rest j Hwu Hfree Hok (Hroom u j Hwu))
      as (w1 & Hfp & Hp).
    exists INVALID_OFFSET, w1. pose proof Hp as (HT & _ & _ & _ & Ho & Hk & _).
    split_and!; try done. by left.
Qed.

(** The completions of [P]: [find_prefix] followed by [print_suggestions]
    writes the words of [dfs] from the node of [P]. *)
Lemma complete_represents w name P idx w1 fuel :
  trie_inv (Trie w) name → shallow (Trie w) name →
  walk (Trie w) 0 (offsets P) = Some idx → pushed w P w1 →
  buffer_ok w → ac_buffer_sz w = 0 → count (Trie w) ≤ Z.of_nat fuel →
  ∃ w2, print_suggestions fuel idx w1 = Returns tt w2 ∧
        effects w1 (emitted (Trie w) (buffer_text w ++ P) (dfs fuel (Trie w) idx)) [] w2.
Proof.
  intros HI Hsh Hw (HT & Hb & Hs & Hok1 & _) Hok Hsz Hfuel.
  assert (H0 : 0 ≤ 0 < count (Trie w)) by (pose proof (inv_count _ _ HI); lia).
  destruct (walk_name _ _ _ _ _ HI H0 Hw) as [Hj Hn].
  rewrite (inv_root _ _ HI) in Hn. cbn [app] in Hn.
  destruct (print_suggestions_effects name fuel idx w1) as (w2 & Hps & He);
    rewrite ?HT; try done; try lia.
  - rewrite Hs, Hsz, Hn. unfold offsets. rewrite length_fmap. lia.
  - exists w2. split; [done|]. by rewrite HT, Hb in He.
Qed.

(** The words written are the represented words that start with [P]. *)
Lemma emitted_exact T name ws P idx fuel x :
  trie_inv T name → marks T name ws → present T name ws →
  Forall (Forall printable) ws → Forall printable P →
  walk T 0 (offsets P) = Some idx → count T ≤ Z.of_nat fuel →
  x ∈ emitted T P (dfs fuel T idx) ↔ x ∈ ws ∧ P `prefix_of` x.
Proof.
  intros HI Hm Hp Hws HP Hw Hfuel.
  assert (H0 : 0 ≤ 0 < count T) by (pose proof (inv_count _ _ HI); lia).
  destruct (walk_name _ _ _ _ _ HI H0 Hw) as [Hidx Hnidx].
  rewrite (inv_root _ _ HI) in Hnidx. cbn [app] in Hnidx.
  unfold emitted. rewrite list_elem_of_omap. split.
  - intros ([j v] & Hin & Hx). cbn [fst snd] in Hx.
    destruct (terminal_at T j) eqn:Ht; [|done]. injection Hx as <-.
    apply dfs_walk in Hin. destruct (walk_name _ _ _ _ _ HI Hidx Hin) as [Hj Hnj].
    unfold terminal_at in Ht. destruct (pool T !! j) as [n|] eqn:Hn; [|done].
    apply (Hm j n Hj Hn) in Ht. apply list_elem_of_fmap in Ht as (l & Hl & Hin').
    assert (Hlp : Forall printable l) by (rewrite Forall_forall in Hws; by apply Hws).
    assert (l = P ++ (char_of_index <$> v)) as <-.
    { rewrite <- (chars_offsets l Hlp), <- Hl, Hnj, Hnidx, fmap_app.
      by rewrite (chars_offsets P HP). }
    split; [done|]. rewrite <- (chars_offsets l Hlp), <- Hl, Hnj, Hnidx, fmap_app.
    rewrite (chars_offsets P HP). by apply prefix_app_r.
  - intros [Hin [s ->]].
    assert (Hxp : Forall printable (P ++ s)) by (rewrite Forall_forall in Hws; by apply Hws).
    apply Forall_app in Hxp as [_ Hs].
    destruct (Hp _ Hin) as (j & Hj & Hnj).
    pose proof (inv_reach _ _ HI j Hj) as Hwj. rewrite Hnj in Hwj.
    unfold offsets in Hwj. rewrite fmap_app in Hwj. fold (offsets P) (offsets s) in Hwj.
    rewrite walk_app, Hw in Hwj.
    exists (j, offsets s). split.
    + apply (dfs_complete T name); [done|done|lia|done].
    + cbn [fst snd]. destruct (inv_node _ _ HI j Hj) as (n & Hn & _).
      unfold terminal_at. rewrite Hn.
      replace (terminal n) with true; [by rewrite (chars_offsets s Hs)|].
      symmetry. apply (Hm j n Hj Hn). rewrite Hnj. by apply list_elem_of_fmap_2.
Qed.

(** What holds of a world that [build] returned [true] in. *)
Lemma build_facts h lines w :
  alphabet_lines lines = true → build lines (initial_world h) = Returns true w →
  Forall (Forall printable) lines ∧
  buffer_ok w ∧ ac_buffer_sz w = 0 ∧ buffer_text w = [] ∧
  ∃ name, trie_inv (Trie w) name ∧ marks (Trie w) name lines ∧
          present (Trie w) name lines ∧ covered (Trie w) name lines.
Proof.
  intros Hal%alphabet_lines_spec Hb.
  destruct (build_represents h lines w Hal Hb) as [Hrep Hio].
  destruct (initial_buffer h w Hio) as (Hok & Hsz & Htxt).
  by split_and!.
Qed.

Lemma offsets_prefix P l :
  Forall printable P → Forall printable l → offsets P `prefix_of` offsets l → P `prefix_of` l.
Proof.
  intros HP Hl [k Hk]. exists (char_of_index <$> k).
  rewrite <- (chars_offsets l Hl), Hk, fmap_app. by rewrite (chars_offsets P HP).
Qed.

(** The root has the path of [P] when [P] is empty or starts a word that is
    present, and only then when every node lies on the path of a word. *)
Lemma walk_prefix_present T name lines P :
  trie_inv T name → present T name lines →
  P = [] ∨ (∃ l, l ∈ lines ∧ P `prefix_of` l) → is_Some (walk T 0 (offsets P)).
Proof.
  intros HI Hp [->|(l & Hl & [s ->])]; [by exists 0|].
  destruct (Hp _ Hl) as (i & Hi & Hni).
  pose proof (inv_reach _ _ HI i Hi) as Hw. rewrite Hni in Hw.
  unfold offsets in Hw. rewrite fmap_app in Hw. fold (offsets P) (offsets s) in Hw.
  rewrite walk_app in Hw. destruct (walk T 0 (offsets P)); [done|discriminate].
Qed.

Lemma walk_prefix_covered T name lines P :
  trie_inv T name → covered T name lines →
  Forall (Forall printable) lines → Forall printable P →
  is_Some (walk T 0 (offsets P)) → P = [] ∨ ∃ l, l ∈ lines ∧ P `prefix_of` l.
Proof.
  intros HI Hcov Hpr HP [idx Hw].
  assert (H0 : 0 ≤ 0 < count T) by (pose proof (inv_count _ _ HI); lia).
  destruct (walk_name _ _ _ _ _ HI H0 Hw) as [Hidx Hn].
  rewrite (inv_root _ _ HI) in Hn. cbn [app] in Hn.
  destruct (decide (idx = 0)) as [->|Hne].
  - left. rewrite (inv_root _ _ HI) in Hn. by destruct P.
  - right. destruct (Hcov idx ltac:(lia)) as (l & Hl & Hpre). exists l. split; [done|].
    rewrite Hn in Hpre. apply offsets_prefix; try done.
    rewrite Forall_forall in Hpr. by apply Hpr.
Qed.

Lemma walk_iff_prefix T name lines P :
  trie_inv T name → present T name lines → covered T name lines →
  Forall (Forall printable) lines → Forall printable P →
  is_Some (walk T 0 (offsets P)) ↔ P = [] ∨ ∃ l, l ∈ lines ∧ P `prefix_of` l.
Proof.
  intros HI Hp Hcov Hpr HP. split.
  - by apply (walk_prefix_covered T name).
  - by apply (walk_prefix_present T name).
Qed.

(** What [find_prefix] returns is a node exactly when [P] is empty or starts
    a word. *)
Lemma found_iff_prefix T name lines P idx :
  trie_inv T name → present T name lines → covered T name lines →
  Forall (Forall printable) lines → Forall printable P →
  idx = INVALID_OFFSET ∧ walk T 0 (offsets P) = None ∨ walk T 0 (offsets P) = Some idx →
  idx ≠ INVALID_OFFSET ↔ P = [] ∨ ∃ l, l ∈ lines ∧ P `prefix_of` l.
Proof.
  intros HI Hp Hcov Hpr HP Hres.
  rewrite <- (walk_iff_prefix T name lines P HI Hp Hcov Hpr HP).
  destruct Hres as [[-> Hw]|Hw]; rewrite Hw.
  - split; [done|]. by intros [? ?].
  - split; [by eexists|]. intros _.
    assert (H0 : 0 ≤ 0 < count T) by (pose proof (inv_count _ _ HI); lia).
    destruct (walk_name _ _ _ _ _ HI H0 Hw) as [Hidx _]. unfold INVALID_OFFSET. lia.
Qed.

Lemma complete_built h lines w P fuel :
  alphabet_lines lines = true → lines_fit lines = true →
  build lines (initial_world h) = Returns true w →
  forallb printableb P = true → count (Trie w) ≤ Z.of_nat fuel →
  ∃ idx w1, find_prefix 0 P w = Returns idx w1 ∧
    (idx ≠ INVALID_OFFSET ↔ P = [] ∨ ∃ l, l ∈ lines ∧ P `prefix_of` l) ∧
    (idx ≠ INVALID_OFFSET →
     walk (Trie w) 0 (offsets P) = Some idx ∧
     ∃ w2, print_suggestions fuel idx w1 = Returns tt w2 ∧
       stdout w2 = stdout w1 ++ unlines (emitted (Trie w) P (dfs fuel (Trie w) idx)) ∧
       ∀ x, x ∈ emitted (Trie w) P (dfs fuel (Trie w) idx) ↔ x ∈ lines ∧ P `prefix_of` x).
Proof.
  intros Hal Hfit Hb HP%Forall_printableb Hfuel.
  destruct (build_facts h lines w Hal Hb)
    as (Hpr & Hok & Hsz & Htxt & name & HI & Hm & Hp & Hcov).
  pose proof (covered_shallow _ _ _ HI Hcov Hfit) as Hsh.
  destruct (find_prefix_represents w name P HI Hsh HP Hok Hsz)
    as (idx & w1 & Hfp & _ & _ & _ & Hres).
  exists idx, w1. split; [done|]. split.
  { apply (found_iff_prefix (Trie w) name); try done.
    destruct Hres as [?|[? _]]; [by left|by right]. }
  intros Hidx.
  destruct Hres as [[-> _]|[Hw Hpush]]; [done|]. split; [done|].
  destruct (complete_represents w name P idx w1 fuel HI Hsh Hw Hpush Hok Hsz Hfuel)
    as (w2 & Hps & He).
  rewrite Htxt in He. cbn [app] in He. destruct He as (_ & _ & _ & _ & Ho & _).
  exists w2. split_and!; try done.
  intros x. by apply (emitted_exact _ name).
Qed.

(** The node at the end of the path of [P] is the one [find_prefix] returns,
    and [print_suggestions] writes the words of [dfs] from it. *)
Lemma complete_node h lines w P fuel idx :
  alphabet_lines lines = true → lines_fit lines = true →
  build lines (initial_world h) = Returns true w →
  Forall printable P → count (Trie w) ≤ Z.of_nat fuel →
  walk (Trie w) 0 (offsets P) = Some idx →
  ∃ w1 w2, find_prefix 0 P w = Returns idx w1 ∧
    print_suggestions fuel idx w1 = Returns tt w2 ∧
    stdout w2 = stdout w1 ++ unlines (emitted (Trie w) P (dfs fuel (Trie w) idx)).
Proof.
  intros Hal Hfit Hb HP Hfuel Hw.
  destruct (build_facts h lines w Hal Hb)
    as (Hpr & Hok & Hsz & Htxt & name & HI & Hm & Hp & Hcov).
  pose proof (covered_shallow _ _ _ HI Hcov Hfit) as Hsh.
  destruct (find_prefix_represents w name P HI Hsh HP Hok Hsz)
    as (idx' & w1 & Hfp & _ & _ & _ & Hres).
  destruct Hres as [[_ Hnone]|[Hw' Hpush]]; [congruence|].
  assert (idx' = idx) as -> by congruence.
  destruct (complete_represents w name P idx w1 fuel HI Hsh Hw Hpush Hok Hsz Hfuel)
    as (w2 & Hps & He).
  rewrite Htxt in He. cbn [app] in He. destruct He as (_ & _ & _ & _ & Ho & _).
  by exists w1, w2.
Qed.

(** C1: in the trie built from [lines] (words over the alphabet that fit the
    buffer), for every prefix [P] over the alphabet, [find_prefix] from the
    root returns, and it finds a node (its result is not [INVALID_OFFSET])
    exactly when [P] is empty or some word of [lines] starts with [P].  On
    the node found, [print_suggestions] returns after writing to stdout a
    list of words, one per line, all of which start with [P], and which are
    exactly the words of [lines] that have [P] as a prefix. *)
Theorem print_suggestions_exact (h : list bool) (lines : list (list ascii)) (w : World)
    (P : list ascii) (fuel : nat) :
  alphabet_lines lines = true → lines_fit lines = true →
  build lines (initial_world h) = Returns true w →
  forallb printableb P = true → count (Trie w) ≤ Z.of_nat fuel →
  ∃ idx w1, find_prefix 0 P w = Returns idx w1 ∧
    (idx ≠ INVALID_OFFSET ↔ P = [] ∨ ∃ l, l ∈ lines ∧ P `prefix_of` l) ∧
    (idx ≠ INVALID_OFFSET →
     ∃ out w2, print_suggestions fuel idx w1 = Returns tt w2 ∧
       stdout w2 = stdout w1 ++ unlines out ∧
       Forall (λ x, P `prefix_of` x) out ∧
       ∀ x, x ∈ out ↔ x ∈ lines ∧ P `prefix_of` x).
Proof.
  intros Hal Hfit Hb HP Hfuel.
  destruct (complete_built h lines w P fuel Hal Hfit Hb HP Hfuel)
    as (idx & w1 & Hfp & Hiff & H).
  exists idx, w1. split; [done|]. split; [done|]. intros Hidx.
  destruct (H Hidx) as (_ & w2 & Hps & Ho & Hex).
  exists (emitted (Trie w) P (dfs fuel (Trie w) idx)), w2. split_and!; try done.
  apply Forall_forall. intros x Hx. by apply Hex in Hx as [_ ?].
Qed.

Lemma print_suggestions_exact_witness :
  ∃ idx w1 out w2,
    find_prefix 0 (word "ca") demo_world = Returns idx w1 ∧ idx ≠ INVALID_OFFSET ∧
    print_suggestions 9 idx w1 = Returns tt w2 ∧
    stdout w2 = stdout w1 ++ unlines out ∧
    Forall (λ x, word "ca" `prefix_of` x) out ∧
    ∀ x, x ∈ out ↔ x ∈ demo_lines ∧ word "ca" `prefix_of` x.
Proof.
  destruct (print_suggestions_exact [] demo_lines demo_world (word "ca") 9)
    as (idx & w1 & Hfp & Hiff & H).
  - vm_compute. reflexivity.
  - vm_compute. reflexivity.
  - vm_compute. reflexivity.
  - vm_compute. reflexivity.
  - vm_compute. discriminate.
  - assert (Hidx : idx ≠ INVALID_OFFSET).
    { apply Hiff. right. exists (word "cat"). split; [left|by exists (word "t")]. }
    destruct (H Hidx) as (out & w2 & Hps & Ho & Hall & Hex).
    exists idx, w1, out, w2. split; [exact Hfp|]. split; [exact Hidx|].
    split; [exact Hps|]. split; [exact Ho|]. split; [exact Hall|exact Hex].
Defined.

(** C2: in the trie built from [lines], every word [W] of [lines] (each was
    inserted by an [insert_text] that returned [true]) is found by
    [find_prefix] from the root, and the node returned is terminal. *)
Theorem find_prefix_inserted_terminal (h : list bool) (lines : list (list ascii))
    (w : World) (W : list ascii) :
  alphabet_lines lines = true → build lines (initial_world h) = Returns true w →
  W ∈ lines → Z.of_nat (length W) ≤ AC_BUFFER_CAP →
  ∃ idx w1 n, find_prefix 0 W w = Returns idx w1 ∧ idx ≠ INVALID_OFFSET ∧
    pool (Trie w1) !! idx = Some n ∧ terminal n = true.
Proof.
  intros Hal Hb HW Hlen.
  destruct (build_facts h lines w Hal Hb)
    as (Hpr & Hok & Hsz & Htxt & name & HI & Hm & Hp & Hcov).
  destruct (Hp W HW) as (i & Hi & Hni).
  pose proof (inv_reach _ _ HI i Hi) as Hw. rewrite Hni in Hw.
  destruct (find_prefix_found w 0 W i Hw Hok) as (w1 & Hfp & HT & _); [lia|].
  destruct (inv_node _ _ HI i Hi) as (n & Hn & _).
  exists i, w1, n. split_and!; try done.
  - unfold INVALID_OFFSET. lia.
  - by rewrite HT.
  - apply (Hm i n Hi Hn). rewrite Hni. by apply list_elem_of_fmap_2.
Qed.

Lemma find_prefix_inserted_terminal_witness :
  ∃ idx w1 n, find_prefix 0 (word "car") demo_world = Returns idx w1 ∧
    idx ≠ INVALID_OFFSET ∧ pool (Trie w1) !! idx = Some n ∧ terminal n = true.
Proof.
  refine (find_prefix_inserted_terminal [] demo_lines demo_world (word "car") _ _ _ _).
  - vm_compute. reflexivity.
  - vm_compute. reflexivity.
  - right. left.
  - vm_compute. discriminate.
Defined.

Lemma emitted_dfs_node T B fuel i :
  emitted T B (dfs (S fuel) T i)
  = (if terminal_at T i then [B] else []) ++
    concat ((λ k, match child T i k with
                  | Some c => if c =? INVALID_OFFSET then []
                              else emitted T (B ++ [char_of_index k]) (dfs fuel T c)
                  | None => []
                  end) <$> seqZ 0 CHILDREN_COUNT).
Proof.
  cbn [dfs]. rewrite emitted_cons, emitted_concat, <- list_fmap_compose.
  cbn [fmap list_fmap]. rewrite app_nil_r. f_equal. f_equal.
  apply list_fmap_ext. intros _ k _. cbn.
  destruct (child T i k) as [c|]; [|done]. destruct (c =? INVALID_OFFSET); [done|].
  apply emitted_cons_path.
Qed.

(** C3: the completions of a prefix [P] are written in lexicographic order of
    their bytes.  In the trie built from [lines], [find_prefix] finds a node
    exactly when [P] is empty or starts a word of [lines], and what
    [print_suggestions] then writes to stdout is the list of the words of
    [lines] that start with [P], each once, strictly increasing in byte
    order.  The list written for a node is the word of the node itself when
    the node is terminal, followed by the lists written for its present
    children by ascending slot; and the list of a child is what the code
    writes for [P] extended by the byte of the child's slot. *)
Theorem print_suggestions_sorted (h : list bool) (lines : list (list ascii)) (w : World)
    (P : list ascii) (fuel : nat) :
  alphabet_lines lines = true → lines_fit lines = true →
  build lines (initial_world h) = Returns true w →
  forallb printableb P = true → count (Trie w) ≤ Z.of_nat fuel →
  (∀ B f i,
     emitted (Trie w) B (dfs (S f) (Trie w) i)
     = (if terminal_at (Trie w) i then [B] else []) ++
       concat ((λ k, match child (Trie w) i k with
                     | Some c => if c =? INVALID_OFFSET then []
                                 else emitted (Trie w) (B ++ [char_of_index k])
                                                (dfs f (Trie w) c)
                     | None => []
                     end) <$> seqZ 0 CHILDREN_COUNT)) ∧
  ∃ idx w1, find_prefix 0 P w = Returns idx w1 ∧
    (idx ≠ INVALID_OFFSET ↔ P = [] ∨ ∃ l, l ∈ lines ∧ P `prefix_of` l) ∧
    (idx ≠ INVALID_OFFSET →
     ∃ w2, print_suggestions fuel idx w1 = Returns tt w2 ∧
       stdout w2 = stdout w1 ++ unlines (emitted (Trie w) P (dfs fuel (Trie w) idx)) ∧
       StronglySorted bytes_lt (emitted (Trie w) P (dfs fuel (Trie w) idx)) ∧
       (∀ x, x ∈ emitted (Trie w) P (dfs fuel (Trie w) idx) ↔ x ∈ lines ∧ P `prefix_of` x) ∧
       ∀ k c, child (Trie w) idx k = Some c → c ≠ INVALID_OFFSET →
         ∃ wk wk', find_prefix 0 (P ++ [char_of_index k]) w = Returns c wk ∧
           print_suggestions fuel c wk = Returns tt wk' ∧
           stdout wk' = stdout wk ++
             unlines (emitted (Trie w) (P ++ [char_of_index k]) (dfs fuel (Trie w) c))).
Proof.
  intros Hal Hfit Hb HP Hfuel. split; [intros B f i; apply emitted_dfs_node|].
  destruct (complete_built h lines w P fuel Hal Hfit Hb HP Hfuel)
    as (idx & w1 & Hfp & Hiff & H).
  exists idx, w1. split; [done|]. split; [done|]. intros Hidx.
  destruct (H Hidx) as (Hw & w2 & Hps & Ho & Hex).
  exists w2. split; [done|]. split; [done|]. split; [apply emitted_sorted|].
  split; [done|]. intros k c Hch Hc.
  pose proof (child_Some_range _ _ _ _ Hch) as Hk.
  apply (complete_node h lines); try done.
  - apply Forall_app. split; [by apply Forall_printableb|].
    apply Forall_singleton. unfold printable. by rewrite offset_char_of_index.
  - unfold offsets. rewrite fmap_app. cbn [fmap list_fmap].
    rewrite offset_char_of_index by done. fold (offsets P).
    rewrite (walk_snoc _ _ _ _ _ Hw), Hch.
    by apply Z.eqb_neq in Hc as ->.
Qed.

Lemma print_suggestions_sorted_witness :
  ∃ w1 w2, find_prefix 0 (word "ca") demo_world = Returns 2 w1 ∧
    print_suggestions 9 2 w1 = Returns tt w2 ∧
    stdout w2 = stdout w1 ++ unlines [word "car"; word "cart"; word "cat"] ∧
    StronglySorted bytes_lt [word "car"; word "cart"; word "cat"].
Proof.
  destruct (print_suggestions_sorted [] demo_lines demo_world (word "ca") 9)
    as (_ & idx & w1 & Hfp & _ & H).
  - vm_compute. reflexivity.
  - vm_compute. reflexivity.
  - vm_compute. reflexivity.
  - vm_compute. reflexivity.
  - vm_compute. discriminate.
  - assert (Hc : returns_Z 2 (find_prefix 0 (word "ca") demo_world) = true).
    { vm_compute. reflexivity. }
    rewrite Hfp in Hc. cbn [returns_Z] in Hc. apply Z.eqb_eq in Hc. subst idx.
    assert (Hidx : 2 ≠ INVALID_OFFSET) by discriminate.
    destruct (H Hidx) as (w2 & Hps & Ho & Hs & _).
    assert (He : emitted (Trie demo_world) (word "ca") (dfs 9 (Trie demo_world) 2)
                 = [word "car"; word "cart"; word "cat"]).
    { vm_compute. reflexivity. }
    rewrite He in Ho, Hs. exists w1, w2. split; [exact Hfp|]. split; [exact Hps|].
    split; [exact Ho|exact Hs].
Defined.

Example demo_emitted :
  emitted (Trie demo_world) (word "ca") (dfs 9 (Trie demo_world) 2)
  = [word "car"; word "cart"; word "cat"].
Proof. vm_compute. reflexivity. Qed.

(** ** Inserting a word again *)

Lemma slots_valid_child T i k c :
  slots_valid T → 0 ≤ i < count T → child T i k = Some c →
  c = INVALID_OFFSET ∨ 0 ≤ c < count T.
Proof.
  intros HT Hi Hc. unfold child in Hc. destruct (HT i Hi) as (n & Hn & _ & Hs).
  rewrite Hn in Hc. apply node_child_Some in Hc as [_ Hc]. by eapply Hs.
Qed.

(** [insert_text] fills free slots only: a present slot of a node in use
    keeps its value. *)
Lemma insert_text_stable text : ∀ r w w' v,
  slots_valid (Trie w) → 0 ≤ r < count (Trie w) →
  insert_text r text w = Returns v w' →
  ∀ i k c, 0 ≤ i < count (Trie w) → child (Trie w) i k = Some c → c ≠ INVALID_OFFSET →
           child (Trie w') i k = Some c.
Proof.
  assert (Hend : ∀ r w w' v,
    bind (store_terminal r true) (λ _, ret true) w = Returns v w' →
    ∀ i k c, child (Trie w) i k = Some c → child (Trie w') i k = Some c).
  { intros r w w' v ([] & w1 & Hst & [= _ <-])%bind_Returns i k c Hc.
    assert (Hf : final (store_terminal r true w) = Some w1) by (by rewrite Hst).
    apply store_terminal_final in Hf as (n & Hn & _ & ->).
    cbn [Trie set_Trie]. by rewrite child_mark. }
  induction text as [|ch text IH]; intros r w w' v HT Hr Hins i k c Hi Hc Hne;
    cbn [insert_text] in Hins; [by eapply Hend|].
  destruct (is_nul ch); [by eapply Hend|]. fold (offset ch) in Hins.
  apply bind_Returns in Hins as (c0 & w0 & Hl & Hins).
  apply load_child_Returns in Hl as [-> Hc0].
  destruct (c0 =? INVALID_OFFSET) eqn:Hinv.
  - apply Z.eqb_eq in Hinv. subst c0.
    apply bind_Returns in Hins as (tmp & w1 & Ha & Hins).
    pose proof (slots_valid_alloc_node w w1 HT ltac:(by rewrite Ha)) as HT1.
    apply alloc_node_Returns in Ha
      as [(-> & _ & Hp & Hcnt & _)|(-> & Hv & _ & _ & cap & HTw & _)].
    { injection Hins as _ <-. unfold child in *. by rewrite Hp. }
    replace (count (Trie w) =? INVALID_OFFSET) with false in Hins
      by (symmetry; apply Z.eqb_neq; unfold INVALID_OFFSET; lia).
    apply bind_Returns in Hins as ([] & w2 & Hs & Hins).
    assert (Hf : final (store_child r (offset ch) (count (Trie w)) w1) = Some w2)
      by (by rewrite Hs).
    apply store_child_final in Hf as (n & Hn & Hidx & _ & ->).
    apply bind_Returns in Hins as (next & w3 & Hl & Hins).
    apply load_child_Returns in Hl as [-> Hnext]. cbn [Trie set_Trie] in Hnext.
    assert (Hc1 : child (Trie w1) r (offset ch) = Some INVALID_OFFSET).
    { rewrite HTw, child_alloc_old by lia. done. }
    rewrite (child_bind_same _ _ _ _ _ _ Hn Hc1) in Hnext. injection Hnext as <-.
    assert (Hold : ∀ i k c, 0 ≤ i < count (Trie w) → child (Trie w) i k = Some c →
              c ≠ INVALID_OFFSET →
              child (Trie_bind (Trie w1) r (offset ch) (count (Trie w)) n) i k = Some c).
    { intros i' k' c' Hi' Hc' Hne'. rewrite child_bind_other; [|done|lia|].
      - rewrite HTw, child_alloc_old by lia. done.
      - destruct (decide (i' = r)) as [->|]; [|by left]. right. intros ->.
        rewrite Hc0 in Hc'. by injection Hc' as <-. }
    eapply (IH (count (Trie w))); [| |exact Hins| | |done].
    + cbn [Trie set_Trie]. apply slots_valid_bind; [done..|]. rewrite HTw. cbn. lia.
    + cbn [Trie set_Trie Trie_bind count]. rewrite HTw. cbn. lia.
    + cbn [Trie set_Trie Trie_bind count]. rewrite HTw. cbn. lia.
    + cbn [Trie set_Trie]. by apply Hold.
  - apply Z.eqb_neq in Hinv.
    apply bind_Returns in Hins as (next & w3 & Hl & Hins).
    apply load_child_Returns in Hl as [-> Hnext]. rewrite Hc0 in Hnext. injection Hnext as <-.
    destruct (slots_valid_child _ _ _ _ HT Hr Hc0) as [?|Hc0r]; [done|].
    by eapply (IH c0).
Qed.

(** A successful [insert_text], run again in the world it left, returns
    [true] and leaves that world as it is. *)
Lemma insert_text_again text : ∀ r w0 w1,
  slots_valid (Trie w0) → 0 ≤ r < count (Trie w0) →
  insert_text r text w0 = Returns true w1 →
  insert_text r text w1 = Returns true w1.
Proof.
  assert (Hend : ∀ r w0 w1,
    bind (store_terminal r true) (λ _, ret true) w0 = Returns true w1 →
    bind (store_terminal r true) (λ _, ret true) w1 = Returns true w1).
  { intros r w0 w1 ([] & w & Hst & [= <-])%bind_Returns.
    assert (Hf : final (store_terminal r true w0) = Some w) by (by rewrite Hst).
    apply store_terminal_final in Hf as (n & Hn & _ & ->).
    unfold bind, store_terminal, bind, load_node, get_Trie, put_Trie, ret.
    cbn [Trie set_Trie Trie_mark pool count capacity].
    rewrite lookup_insert_eq.
    cbn [Trie set_Trie Trie_mark pool count capacity children].
    rewrite insert_insert_eq. by destruct w0. }
  induction text as [|ch text IH]; intros r w0 w1 HT Hr Hins;
    cbn [insert_text] in *; [by apply (Hend r w0 w1)|].
  destruct (is_nul ch); [by apply (Hend r w0 w1)|]. fold (offset ch) in *.
  apply bind_Returns in Hins as (c0 & w & Hl & Hins).
  apply load_child_Returns in Hl as [-> Hc0].
  assert (Hdesc : ∀ c, c ≠ INVALID_OFFSET → child (Trie w1) r (offset ch) = Some c →
            insert_text c text w1 = Returns true w1 →
            bind (load_child r (offset ch))
              (λ c', if c' =? INVALID_OFFSET
                     then bind alloc_node (λ tmp,
                            if tmp =? INVALID_OFFSET then ret false
                            else bind (store_child r (offset ch) tmp) (λ _,
                                   bind (load_child r (offset ch)) (λ next,
                                     insert_text next text)))
                     else bind (load_child r (offset ch)) (λ next,
                            insert_text next text)) w1
            = Returns true w1).
  { intros c Hne Hc Hrec. unfold bind at 1. rewrite load_child_eq, Hc.
    replace (c =? INVALID_OFFSET) with false by (symmetry; by apply Z.eqb_neq).
    unfold bind at 1. by rewrite load_child_eq, Hc. }
  destruct (c0 =? INVALID_OFFSET) eqn:Hinv.
  - apply Z.eqb_eq in Hinv. subst c0.
    apply bind_Returns in Hins as (tmp & w2 & Ha & Hins).
    pose proof (slots_valid_alloc_node w0 w2 HT ltac:(by rewrite Ha)) as HT2.
    apply alloc_node_Returns in Ha
      as [(-> & _)|(-> & Hv & _ & _ & cap & HTw & _)]; [done|].
    replace (count (Trie w0) =? INVALID_OFFSET) with false in Hins
      by (symmetry; apply Z.eqb_neq; unfold INVALID_OFFSET; lia).
    apply bind_Returns in Hins as ([] & w3 & Hs & Hins).
    assert (Hf : final (store_child r (offset ch) (count (Trie w0)) w2) = Some w3)
      by (by rewrite Hs).
    apply store_child_final in Hf as (n & Hn & Hidx & _ & ->).
    apply bind_Returns in Hins as (next & w4 & Hl & Hins).
    apply load_child_Returns in Hl as [-> Hnext]. cbn [Trie set_Trie] in Hnext.
    assert (Hc2 : child (Trie w2) r (offset ch) = Some INVALID_OFFSET).
    { rewrite HTw, child_alloc_old by lia. done. }
    rewrite (child_bind_same _ _ _ _ _ _ Hn Hc2) in Hnext. injection Hnext as <-.
    set (w3 := set_Trie (Trie_bind (Trie w2) r (offset ch) (count (Trie w0)) n) w2) in *.
    assert (HT3 : slots_valid (Trie w3)).
    { unfold w3. cbn [Trie set_Trie]. apply slots_valid_bind; [done..|].
      rewrite HTw. cbn. lia. }
    assert (Hcnt3 : count (Trie w3) = count (Trie w0) + 1).
    { unfold w3. cbn [Trie set_Trie Trie_bind count]. by rewrite HTw. }
    apply (Hdesc (count (Trie w0))).
    + unfold INVALID_OFFSET. lia.
    + eapply (insert_text_stable text (count (Trie w0)) w3 w1 true HT3);
        [lia|done|lia| |].
      * unfold w3. cbn [Trie set_Trie]. by eapply child_bind_same.
      * unfold INVALID_OFFSET. lia.
    + apply (IH _ w3); [done|lia|done].
  - apply Z.eqb_neq in Hinv.
    apply bind_Returns in Hins as (next & w4 & Hl & Hins).
    apply load_child_Returns in Hl as [-> Hnext]. rewrite Hc0 in Hnext. injection Hnext as <-.
    destruct (slots_valid_child _ _ _ _ HT Hr Hc0) as [?|Hc0r]; [done|].
    apply (Hdesc c0); [done| |by apply (IH c0 w0)].
    by eapply (insert_text_stable text c0 w0 w1 true).
Qed.

(** C4: inserting a word a second time changes nothing.  In a world whose
    slots are valid, when [insert_text] of [W] returned [true], a second
    [insert_text] of [W] returns [true] and leaves the world exactly as the
    first left it: the same pool (so the same terminal nodes and the same
    answers to every query), the same count (no node is allocated) and no
    call to [realloc]. *)
Theorem insert_text_idempotent (w0 : World) (root_idx : Z) (W : list ascii) (w1 : World) :
  slots_valid (Trie w0) → 0 ≤ root_idx < count (Trie w0) →
  insert_text root_idx W w0 = Returns true w1 →
  insert_text root_idx W w1 = Returns true w1 ∧
  ∀ w2, final (insert_text root_idx W w1) = Some w2 →
        Trie w2 = Trie w1 ∧ count (Trie w2) = count (Trie w1) ∧ heap w2 = heap w1.
Proof.
  intros HT Hr Hins. pose proof (insert_text_again W root_idx w0 w1 HT Hr Hins) as H.
  split; [done|]. rewrite H. by intros w2 [= <-].
Qed.

Lemma insert_text_idempotent_witness :
  insert_text 0 (word "do") (world_of (insert_text 0 (word "do") demo_world) demo_world)
  = Returns true (world_of (insert_text 0 (word "do") demo_world) demo_world).
Proof.
  refine (proj1 (insert_text_idempotent demo_world 0 (word "do") _ _ _ _)).
  - apply slots_validb_sound. vm_compute. reflexivity.
  - vm_compute. split; [discriminate|reflexivity].
  - vm_compute. reflexivity.
Defined.

(** ** The graph dumps *)

Lemma edge_count_app a b : edge_count (a ++ b) = (edge_count a + edge_count b)%nat.
Proof. unfold edge_count. by rewrite List.filter_app, length_app. Qed.

Lemma edge_count_concat {A} (f : A → list stmt) l :
  edge_count (concat (f <$> l)) = sum_list ((λ x, edge_count (f x)) <$> l).
Proof.
  induction l as [|x l IH]; [done|]. cbn [fmap list_fmap concat sum_list sum_list_with].
  rewrite edge_count_app. f_equal. exact IH.
Qed.

Lemma sum_list_indicator {A} (p : A → bool) l :
  sum_list ((λ x, if p x then 1%nat else 0%nat) <$> l) = length (List.filter p l).
Proof.
  induction l as [|x l IH]; [done|]. cbn. destruct (p x); cbn; by rewrite IH.
Qed.

Lemma edge_count_edge_stmts T i k :
  edge_count (edge_stmts T i k) = if presentb T i k then 1%nat else 0%nat.
Proof.
  unfold edge_stmts, presentb. destruct (child T i k) as [c|]; [|done].
  by destruct (c =? INVALID_OFFSET).
Qed.

Lemma edge_count_node T i :
  edge_count (concat (edge_stmts T i <$> seqZ 0 CHILDREN_COUNT)) = present_slots T i.
Proof.
  rewrite edge_count_concat. unfold present_slots. rewrite <- sum_list_indicator.
  f_equal. apply list_fmap_ext. intros _ k _. apply edge_count_edge_stmts.
Qed.

Lemma edge_count_whole T :
  edge_count (whole_stmts T) = sum_list (present_slots T <$> seqZ 0 (count T)).
Proof.
  unfold whole_stmts. rewrite edge_count_concat. f_equal.
  apply list_fmap_ext. intros _ i _. apply edge_count_node.
Qed.

(** The body of the loops of both dumps, for slot [k] of node [i]. *)
Lemma dump_edge_effects name w0 w i k c :
  trie_inv (Trie w0) name → Trie w = Trie w0 → 0 ≤ i < count (Trie w0) →
  child (Trie w0) i k = Some c → c ≠ INVALID_OFFSET →
  ∃ w', dump_edge i c k w = Returns tt w' ∧ effects w [] (edge_stmts (Trie w0) i k) w'.
Proof.
  intros HI HT Hi Hc Hne. destruct (inv_edge _ _ HI i k c Hi Hc Hne) as [Hlt _].
  destruct (inv_node _ _ HI c ltac:(lia)) as (cn & Hcn & _).
  unfold dump_edge, bind, load_node, fprintf_sink. rewrite HT, Hcn. cbn.
  eexists. split; [done|]. unfold edge_stmts, terminal_at. rewrite Hc, Hcn.
  replace (c =? INVALID_OFFSET) with false by (symmetry; by apply Z.eqb_neq).
  unfold effects, buffer_text, buffer_ok. cbn. rewrite app_nil_r, <- app_assoc.
  split_and!; done.
Qed.

Lemma dump_dot_whole_effects name w :
  trie_inv (Trie w) name →
  ∃ w', dump_dot_whole w = Returns tt w' ∧ effects w [] (whole_stmts (Trie w)) w'.
Proof.
  intros HI. unfold dump_dot_whole, bind at 1, get_Trie.
  match goal with |- context [for_loop _ _ ?body] =>
    destruct (for_loop_effects body (λ _, [])
                (λ i, concat (edge_stmts (Trie w) i <$> seqZ 0 CHILDREN_COUNT))
                (Z.to_nat (count (Trie w))) 0 w) as (w' & Hloop & He)
  end.
  2: { exists w'. split; [done|]. rewrite concat_fmap_nil in He.
       pose proof (inv_count _ _ HI).
       by replace (Z.of_nat (Z.to_nat (count (Trie w)))) with (count (Trie w)) in He by lia. }
  intros i w1 o s Hi (HT1 & _). cbn beta.
  match goal with |- context [for_loop _ _ ?body] =>
    destruct (for_loop_effects body (λ _, []) (edge_stmts (Trie w) i)
                (Z.to_nat CHILDREN_COUNT) 0 w1) as (w2 & Hloop & He)
  end.
  2: { exists w2. split; [done|]. by rewrite concat_fmap_nil in He. }
  intros k w2 o' s' Hk (HT2 & _). cbn beta.
  replace (0 + Z.of_nat (Z.to_nat CHILDREN_COUNT)) with CHILDREN_COUNT in Hk by done.
  assert (Hi' : 0 ≤ i < count (Trie w)) by lia.
  destruct (inv_child_total _ _ i k HI Hi' Hk) as [c Hc].
  unfold bind at 1. rewrite load_child_eq, HT2, HT1, Hc.
  destruct (c =? INVALID_OFFSET) eqn:Hinv; cbn [negb].
  { exists w2. split; [done|]. unfold edge_stmts. rewrite Hc, Hinv. apply effects_refl. }
  apply Z.eqb_neq in Hinv.
  unfold bind at 1. rewrite load_child_eq, HT2, HT1, Hc.
  apply (dump_edge_effects name); try done. congruence.
Qed.

Lemma dump_dot_prefix_effects name fuel : ∀ i w0 w,
  trie_inv (Trie w0) name → Trie w = Trie w0 →
  0 ≤ i < count (Trie w0) → count (Trie w0) - i ≤ Z.of_nat fuel →
  ∃ w', dump_dot_prefix fuel i w = Returns tt w' ∧
        effects w [] (prefix_stmts fuel (Trie w0) i) w'.
Proof.
  induction fuel as [|fuel IH]; intros i w0 w HI HT Hi Hfuel; [lia|].
  cbn [dump_dot_prefix prefix_stmts].
  match goal with |- context [for_loop _ _ ?body] =>
    destruct (for_loop_effects body (λ _, [])
                (λ k, edge_stmts (Trie w0) i k ++
                      match child (Trie w0) i k with
                      | Some c => if c =? INVALID_OFFSET then []
                                  else prefix_stmts fuel (Trie w0) c
                      | None => []
                      end)
                (Z.to_nat CHILDREN_COUNT) 0 w) as (w' & Hloop & He)
  end.
  2: { exists w'. split; [done|]. by rewrite concat_fmap_nil in He. }
  intros k w1 o s Hk (HT1 & _). cbn beta.
  replace (0 + Z.of_nat (Z.to_nat CHILDREN_COUNT)) with CHILDREN_COUNT in Hk by done.
  destruct (inv_child_total _ _ i k HI Hi Hk) as [c Hc].
  unfold bind at 1. rewrite load_child_eq, HT1, HT, Hc.
  destruct (c =? INVALID_OFFSET) eqn:Hinv; cbn [negb].
  { exists w1. split; [done|]. unfold edge_stmts. rewrite Hc, Hinv. apply effects_refl. }
  apply Z.eqb_neq in Hinv.
  unfold bind at 1. rewrite load_child_eq, HT1, HT, Hc.
  destruct (dump_edge_effects name w0 w1 i k c) as (w2 & Hd & He2); try done; [congruence|].
  unfold bind at 1. rewrite Hd.
  pose proof He2 as (HT2 & _).
  unfold bind at 1. rewrite load_child_eq, HT2, HT1, HT, Hc.
  destruct (inv_edge _ _ HI i k c Hi Hc Hinv) as [Hlt _].
  destruct (IH c w0 w2) as (w3 & Hrec & He3); [done|congruence|lia|lia|].
  exists w3. split; [done|].
  pose proof (effects_trans _ _ _ _ _ _ _ He2 He3) as Hall. by cbn [app] in Hall.
Qed.

Lemma sum_list_fmap {A} (f : A → nat) l : sum_list (f <$> l) = sum_list_with f l.
Proof. induction l as [|x l IH]; [done|]. cbn. by rewrite <- IH. Qed.

Lemma sum_list_with_concat {A B} (g : B → nat) (h : A → list B) l :
  sum_list_with g (concat (h <$> l)) = sum_list_with (λ k, sum_list_with g (h k)) l.
Proof.
  induction l as [|x l IH]; [done|]. cbn [fmap list_fmap concat].
  rewrite sum_list_with_app, IH. done.
Qed.

Lemma sum_list_with_plus {A} (a b : A → nat) l :
  sum_list_with (λ x, (a x + b x)%nat) l = (sum_list_with a l + sum_list_with b l)%nat.
Proof. induction l as [|x l IH]; [done|]. cbn. rewrite IH. lia. Qed.

Lemma sum_list_with_ext {A} (a b : A → nat) l :
  (∀ x, x ∈ l → a x = b x) → sum_list_with a l = sum_list_with b l.
Proof.
  induction l as [|x l IH]; intros H; [done|]. cbn.
  rewrite (H x) by (by left). rewrite IH; [done|]. intros y Hy. apply H. by right.
Qed.

(** The edges written below a node, counted node by node along [dfs]. *)
Lemma edge_count_prefix fuel T : ∀ i,
  edge_count (prefix_stmts fuel T i)
  = sum_list_with (λ jv, present_slots T jv.1) (dfs fuel T i).
Proof.
  induction fuel as [|fuel IH]; intros i; [done|].
  cbn [prefix_stmts dfs sum_list_with fst].
  rewrite edge_count_concat, sum_list_fmap, sum_list_with_concat.
  rewrite (sum_list_with_ext _ (λ k, Nat.add (if presentb T i k then 1%nat else 0%nat)
             (sum_list_with (λ jv, present_slots T jv.1)
               match child T i k with
               | Some c => if c =? INVALID_OFFSET then []
                           else prod_map id (cons k) <$> dfs fuel T c
               | None => []
               end))).
  - rewrite sum_list_with_plus. f_equal.
    unfold present_slots. rewrite <- sum_list_indicator, sum_list_fmap. done.
  - intros k _. rewrite edge_count_app, edge_count_edge_stmts. f_equal.
    destruct (child T i k) as [c|]; [|done]. destruct (c =? INVALID_OFFSET); [done|].
    rewrite IH. generalize (dfs fuel T c). intros d.
    induction d as [|[j v] d IHd]; [done|]. cbn. by rewrite IHd.
Qed.

Lemma lex_lt_irrefl v : ¬ lex_lt v v.
Proof. induction v as [|x v IH]; cbn; [tauto|]. intros [?|[_ ?]]; [lia|tauto]. Qed.

Lemma StronglySorted_NoDup {A} (R : relation A) l :
  (∀ x, ¬ R x x) → StronglySorted R l → NoDup l.
Proof.
  intros Hirr. induction 1 as [|x l Hs IH Hx]; constructor; [|done].
  intros Hin. rewrite Forall_forall in Hx. by apply (Hirr x), Hx.
Qed.

(** In a trie no node is reached twice. *)
Lemma dfs_nodes_NoDup T name fuel i :
  trie_inv T name → 0 ≤ i < count T → NoDup (dfs fuel T i).*1.
Proof.
  intros HI Hi. apply NoDup_fmap_2_strong.
  - intros [j v] [j' v'] Hx Hy Heq. cbn in Heq. subst j'.
    apply dfs_walk in Hx, Hy.
    destruct (walk_name _ _ _ _ _ HI Hi Hx) as [_ Hn].
    destruct (walk_name _ _ _ _ _ HI Hi Hy) as [_ Hn'].
    rewrite Hn in Hn'. by apply app_inv_head in Hn' as ->.
  - apply (StronglySorted_NoDup path_lt); [|apply dfs_sorted].
    intros [j v]. apply lex_lt_irrefl.
Qed.

Lemma dfs_nodes_reachable T name fuel i j :
  trie_inv T name → 0 ≤ i < count T → count T - i ≤ Z.of_nat fuel →
  j ∈ (dfs fuel T i).*1 ↔ reachable T i j.
Proof.
  intros HI Hi Hfuel. rewrite list_elem_of_fmap. split.
  - intros ([j' v] & -> & Hin). exists v. by apply dfs_walk in Hin.
  - intros [v Hw]. exists (j, v). split; [done|]. by apply (dfs_complete T name).
Qed.

(** C7: the number of edge statements a dump writes.  In the trie built from
    [lines], [dump_dot_whole] returns after writing as many edge statements
    as there are present child slots in the nodes [0 .. count); and
    [dump_dot_prefix] on a node [R] returns after writing as many edge
    statements as there are present child slots in the nodes reachable from
    [R], each node counted once. *)
Theorem dump_dot_edge_count (h : list bool) (lines : list (list ascii)) (w : World) :
  alphabet_lines lines = true → build lines (initial_world h) = Returns true w →
  (∃ w' stm, dump_dot_whole w = Returns tt w' ∧ sink w' = sink w ++ stm ∧
     edge_count stm = sum_list_with (present_slots (Trie w)) (seqZ 0 (count (Trie w)))) ∧
  (∀ R fuel ns,
     0 ≤ R < count (Trie w) → count (Trie w) ≤ Z.of_nat fuel →
     NoDup ns → (∀ j, j ∈ ns ↔ reachable (Trie w) R j) →
     ∃ w' stm, dump_dot_prefix fuel R w = Returns tt w' ∧ sink w' = sink w ++ stm ∧
       edge_count stm = sum_list_with (present_slots (Trie w)) ns).
Proof.
  intros Hal Hb.
  destruct (build_facts h lines w Hal Hb) as (_ & _ & _ & _ & name & HI & _).
  split.
  - destruct (dump_dot_whole_effects name w HI) as (w' & Hd & He).
    exists w', (whole_stmts (Trie w)). split; [done|]. split; [apply He|].
    by rewrite edge_count_whole, sum_list_fmap.
  - intros R fuel ns HR Hfuel Hnd Hns.
    destruct (dump_dot_prefix_effects name fuel R w w HI eq_refl HR ltac:(lia))
      as (w' & Hd & He).
    exists w', (prefix_stmts fuel (Trie w) R). split; [done|]. split; [apply He|].
    rewrite edge_count_prefix.
    transitivity (sum_list_with (present_slots (Trie w)) (dfs fuel (Trie w) R).*1).
    { generalize (dfs fuel (Trie w) R). intros d.
      induction d as [|[j v] d IHd]; [done|]. cbn. by rewrite IHd. }
    apply sum_list_with_Permutation_proper, NoDup_Permutation; [|done|].
    + by apply (dfs_nodes_NoDup _ name).
    + intros j. rewrite Hns. apply (dfs_nodes_reachable _ name); [done|done|lia].
Qed.

Example demo_dump_whole :
  edge_count (sink (world_of (dump_dot_whole demo_world) demo_world)) = 8%nat.
Proof. vm_compute. reflexivity. Qed.

Example demo_dump_prefix :
  sink (world_of (dump_dot_prefix 9 2 demo_world) demo_world)
  = [NodeDecl 4 "r" true; EdgeStmt 2 4 "r"; NodeDecl 5 "t" true; EdgeStmt 4 5 "t";
     NodeDecl 3 "t" true; EdgeStmt 2 3 "t"].
Proof. vm_compute. reflexivity. Qed.

Lemma dump_dot_edge_count_witness :
  ∃ w' stm, dump_dot_prefix 9%nat 2 demo_world = Returns tt w' ∧
    sink w' = sink demo_world ++ stm ∧
    edge_count stm = sum_list_with (present_slots (Trie demo_world)) [2; 4; 5; 3].
Proof.
  assert (Hal : alphabet_lines demo_lines = true) by (vm_compute; reflexivity).
  assert (Hb : build demo_lines (initial_world []) = Returns true demo_world)
    by (vm_compute; reflexivity).
  assert (HR : 0 ≤ 2 < count (Trie demo_world))
    by (vm_compute; split; [discriminate|reflexivity]).
  assert (Hfuel : count (Trie demo_world) ≤ Z.of_nat 9) by (vm_compute; discriminate).
  assert (Hnd : NoDup [2; 4; 5; 3]).
  { repeat constructor; rewrite ?elem_of_cons, ?elem_of_nil; lia. }
  assert (Hdfs : (dfs 9%nat (Trie demo_world) 2).*1 = [2; 4; 5; 3]) by (vm_compute; reflexivity).
  refine (proj2 (dump_dot_edge_count [] demo_lines demo_world Hal Hb)
            2 9%nat [2; 4; 5; 3] HR Hfuel Hnd _).
  intros j. destruct (build_facts [] demo_lines demo_world Hal Hb)
    as (_ & _ & _ & _ & name & HI & _).
  rewrite <- Hdfs. apply (dfs_nodes_reachable (Trie demo_world) name 9%nat 2 j HI HR). lia.
Defined.

(** ** A line longer than the buffer *)

Lemma for_loop_Undefined body n : ∀ k0 w k,
  k0 ≤ k < k0 + Z.of_nat n →
  (∀ k', k0 ≤ k' < k → body k' w = Returns tt w) →
  body k w = Undefined →
  for_loop n k0 body w = Undefined.
Proof.
  induction n as [|n IH]; intros k0 w k Hk Hbefore Hat; [lia|].
  unfold for_loop; fold for_loop. unfold bind.
  destruct (decide (k = k0)) as [->|Hne]; [by rewrite Hat|].
  rewrite Hbefore by lia. apply (IH (k0 + 1) w k); [lia| |done].
  intros k' Hk'. apply Hbefore. lia.
Qed.

(** With the buffer full, [print_suggestions] on a node that has a child
    pushes past the end of [ac_buffer]. *)
Lemma print_suggestions_full_buffer fuel i w k c :
  ac_buffer_sz w = AC_BUFFER_CAP →
  child (Trie w) i k = Some c → c ≠ INVALID_OFFSET →
  (∀ k', 0 ≤ k' < k → child (Trie w) i k' = Some INVALID_OFFSET) →
  print_suggestions (S fuel) i w = Undefined.
Proof.
  intros Hsz Hc Hne Hbefore. cbn [print_suggestions].
  destruct (child_Some_node _ _ _ _ Hc) as [n Hn].
  pose proof (child_Some_range _ _ _ _ Hc) as Hk.
  unfold bind at 1, load_node. rewrite Hn.
  assert (∃ w1, (if terminal n then write_buffer_line else ret tt) w = Returns tt w1 ∧
                Trie w1 = Trie w ∧ ac_buffer_sz w1 = ac_buffer_sz w) as (w1 & Hw1 & HT1 & Hs1).
  { destruct (terminal n); eexists; (split; [done|]); by split. }
  unfold bind at 1. rewrite Hw1.
  apply (for_loop_Undefined _ _ 0 w1 k).
  - replace (Z.of_nat (Z.to_nat CHILDREN_COUNT)) with CHILDREN_COUNT by done. lia.
  - intros k' Hk'. unfold bind. by rewrite load_child_eq, HT1, (Hbefore k' Hk').
  - unfold bind at 1. rewrite load_child_eq, HT1, Hc.
    replace (c =? INVALID_OFFSET) with false by (symmetry; by apply Z.eqb_neq).
    cbn [negb]. unfold bind at 1, ac_buffer_push. rewrite Hs1, Hsz. by vm_compute.
Qed.


(** In the trie of one line of more than [AC_BUFFER_CAP] letters,
    [print_suggestions] from a node whose depth is the size of the buffer
    text overflows the buffer. *)
Lemma print_suggestions_chain_overflows n cap (d : nat) : ∀ fuel i w,
  AC_BUFFER_CAP < n - 1 → Trie w = mkTrie (chain_pool n) n cap →
  i = AC_BUFFER_CAP - Z.of_nat d → 0 ≤ i →
  buffer_ok w → ac_buffer_sz w = i → (d < fuel)%nat →
  print_suggestions fuel i w = Undefined.
Proof.
  set (a := char_code "a" - ASCII_OFFSET).
  assert (Ha : 0 ≤ a < CHILDREN_COUNT) by (by vm_compute).
  induction d as [|d IH]; intros fuel i w Hn HT Hi Hi0 Hok Hsz Hfuel;
    (destruct fuel as [|fuel]; [lia|]).
  - apply (print_suggestions_full_buffer fuel i w a (i + 1)).
    + lia.
    + rewrite HT, chain_child by lia. fold a. by rewrite Z.eqb_refl.
    + unfold INVALID_OFFSET. lia.
    + intros k' Hk'. rewrite HT, chain_child by lia. fold a.
      by replace (k' =? a) with false by (symmetry; apply Z.eqb_neq; lia).
  - cbn [print_suggestions]. unfold bind at 1, load_node.
    rewrite HT. cbn [pool]. rewrite chain_pool_lookup by lia. unfold chain_node.
    replace (i =? n - 1) with false by (symmetry; apply Z.eqb_neq; lia).
    cbn [terminal]. unfold bind at 1, ret.
    apply (for_loop_Undefined _ _ 0 w a); [by vm_compute| |].
    + intros k' Hk'. unfold bind. rewrite load_child_eq, HT, chain_child by lia. fold a.
      by replace (k' =? a) with false by (symmetry; apply Z.eqb_neq; lia).
    + unfold bind at 1. rewrite load_child_eq, HT, chain_child by lia. fold a.
      rewrite Z.eqb_refl.
      replace (i + 1 =? INVALID_OFFSET) with false
        by (symmetry; apply Z.eqb_neq; unfold INVALID_OFFSET; lia).
      cbn [negb].
      destruct (ac_buffer_push_ok (char_of_index a) w Hok) as (w1 & Hpush & Hp); [lia|].
      unfold bind at 1. rewrite Hpush.
      destruct Hp as (HT1 & _ & Hs1 & Hok1 & _). cbn [length] in Hs1.
      unfold bind at 1. rewrite load_child_eq, HT1, HT, chain_child by lia. fold a.
      rewrite Z.eqb_refl. unfold bind at 1.
      rewrite (IH fuel (i + 1) w1); [done|done|congruence|lia|lia|done|lia|lia].
Qed.

(** The trie of the single line of 2049 letters ['a'], as [build] leaves it:
    completion from the root, with the buffer empty, is undefined. *)
Lemma print_suggestions_long_line_overflows (fuel : nat) :
  (2048 < fuel)%nat → print_suggestions fuel 0 (chain_world 2050 4096) = Undefined.
Proof.
  intros Hfuel.
  by apply (print_suggestions_chain_overflows 2050 4096 2048 fuel 0).
Qed.

(** * Further properties of the engine *)

(** ** The completion buffer is a stack *)

(** X1: on a buffer with room, [ac_buffer_push] followed by [ac_buffer_pop]
    returns and leaves the text and the size of the buffer as they were;
    [ac_buffer_push] on the full buffer writes outside the array, which is
    not defined; [ac_buffer_pop] on the empty buffer changes nothing. *)
Theorem ac_buffer_push_pop (ch : ascii) (w : World) :
  buffer_ok w →
  (ac_buffer_sz w < AC_BUFFER_CAP →
   ∃ w1 w2, ac_buffer_push ch w = Returns tt w1 ∧
            buffer_text w1 = buffer_text w ++ [ch] ∧
            ac_buffer_pop w1 = Returns tt w2 ∧
            buffer_text w2 = buffer_text w ∧ ac_buffer_sz w2 = ac_buffer_sz w) ∧
  (ac_buffer_sz w = AC_BUFFER_CAP → ac_buffer_push ch w = Undefined) ∧
  (ac_buffer_sz w = 0 → ac_buffer_pop w = Returns tt w).
Proof.
  intros Hok. split; [|split].
  - intros Hlt. destruct (ac_buffer_push_ok ch w Hok Hlt) as (w1 & Hpush & Hp).
    destruct (ac_buffer_pop_effects w ch w1 [] [] w1 Hok Hp (effects_refl w1))
      as (w2 & Hpop & He).
    exists w1, w2. destruct Hp as (_ & Ht & _). destruct He as (_ & Ht2 & Hsz2 & _).
    by split_and!.
  - intros Hsz. unfold ac_buffer_push. by rewrite Hsz.
  - intros Hsz. unfold ac_buffer_pop. by rewrite Hsz.
Qed.

Lemma ac_buffer_push_pop_witness :
  ∃ w1 w2, ac_buffer_push "a" demo_world = Returns tt w1 ∧
           buffer_text w1 = buffer_text demo_world ++ ["a"%char] ∧
           ac_buffer_pop w1 = Returns tt w2 ∧
           buffer_text w2 = buffer_text demo_world ∧
           ac_buffer_sz w2 = ac_buffer_sz demo_world.
Proof.
  refine (proj1 (ac_buffer_push_pop "a" demo_world _) _).
  - split; [split|]; vm_compute; [discriminate|discriminate|reflexivity].
  - vm_compute. reflexivity.
Defined.

(** ** The size of the pool *)

Lemma alloc_node_count w w' :
  final (alloc_node w) = Some w' →
  count (Trie w) ≤ count (Trie w') ≤ count (Trie w) + 1.
Proof.
  destruct (alloc_node w) as [v w1|st w1| |] eqn:H; simpl; try discriminate; intros [= ->].
  - apply alloc_node_Returns in H as [(_ & _ & _ & -> & _)|(_ & _ & _ & _ & cap & -> & _)];
      cbn [Trie_alloc count]; lia.
  - apply alloc_node_Exits in H as (_ & _ & _ & ->). cbn. lia.
Qed.

Lemma store_terminal_count r b w w' :
  final (store_terminal r b w) = Some w' → count (Trie w') = count (Trie w).
Proof. by intros (n & _ & _ & ->)%store_terminal_final. Qed.

Lemma store_child_count r idx v w w' :
  final (store_child r idx v w) = Some w' → count (Trie w') = count (Trie w).
Proof. by intros (n & _ & _ & _ & ->)%store_child_final. Qed.

Lemma final_Returns {A} (m : M A) w v w' : m w = Returns v w' → final (m w) = Some w'.
Proof. by intros ->. Qed.

Lemma final_Exits {A} (m : M A) w st w' : m w = Exits st w' → final (m w) = Some w'.
Proof. by intros ->. Qed.

Lemma insert_text_count text : ∀ r w w',
  final (insert_text r text w) = Some w' →
  count (Trie w) ≤ count (Trie w') ≤ count (Trie w) + Z.of_nat (length text).
Proof.
  assert (Hend : ∀ r w w' (n : nat),
    final (bind (store_terminal r true) (λ _, ret true) w) = Some w' →
    count (Trie w) ≤ count (Trie w') ≤ count (Trie w) + Z.of_nat n).
  { intros r w w' n [[st H]|([] & w1 & H & [= <-])]%final_bind.
    - apply final_Exits, store_terminal_count in H. lia.
    - apply final_Returns, store_terminal_count in H. lia. }
  induction text as [|ch text IH]; intros r w w'; cbn [insert_text]; [by apply Hend|].
  destruct (is_nul ch); [by apply Hend|].
  set (idx := char_code ch - ASCII_OFFSET).
  assert (Hdesc : ∀ w1 w2,
    final (bind (load_child r idx) (λ next, insert_text next text) w1) = Some w2 →
    count (Trie w1) ≤ count (Trie w2) ≤ count (Trie w1) + Z.of_nat (length text)).
  { intros w1 w2 [[st H]|(c & w3 & H & Hf)]%final_bind.
    - by apply load_child_not_Exits in H.
    - apply load_child_Returns in H as [-> _]. by eapply IH. }
  rewrite length_cons, Nat2Z.inj_succ.
  intros [[st H]|(c & w1 & H & Hf)]%final_bind; [by apply load_child_not_Exits in H|].
  apply load_child_Returns in H as [-> Hc].
  destruct (c =? INVALID_OFFSET).
  - apply final_bind in Hf as [[st H]|(tmp & w1 & H & Hf)].
    { apply final_Exits, alloc_node_count in H. lia. }
    apply final_Returns, alloc_node_count in H.
    destruct (tmp =? INVALID_OFFSET); [injection Hf as <-; lia|].
    apply final_bind in Hf as [[st Hs]|([] & w2 & Hs & Hf)].
    + apply final_Exits, store_child_count in Hs. lia.
    + apply final_Returns, store_child_count in Hs. apply Hdesc in Hf. lia.
  - apply Hdesc in Hf. lia.
Qed.

Lemma total_length_cons l lines :
  total_length (l :: lines) = Z.of_nat (length l) + total_length lines.
Proof. unfold total_length. cbn [sum_list_with]. lia. Qed.

Lemma total_length_nonneg lines : 0 ≤ total_length lines.
Proof. unfold total_length. lia. Qed.

Lemma populate_trie_count lines : ∀ r w w',
  final (populate_trie r lines w) = Some w' →
  count (Trie w) ≤ count (Trie w') ≤ count (Trie w) + total_length lines.
Proof.
  induction lines as [|l lines IH]; intros r w w'; cbn [populate_trie].
  - intros [= <-]. change (total_length []) with 0. lia.
  - rewrite total_length_cons. pose proof (total_length_nonneg lines) as Hnn.
    intros [[st H]|(ok & w1 & H & Hf)]%final_bind.
    + apply final_Exits, insert_text_count in H. lia.
    + apply final_Returns, insert_text_count in H.
      destruct ok; [apply IH in Hf; lia|injection Hf as <-; lia].
Qed.

(** X2: an insertion takes at most one node per byte of the text, and never
    gives a node back: whether [insert_text] returns or the process exits in
    it, [Trie.count] has grown by at most the length of the text; and
    [populate_trie] by at most the number of bytes of the lines. *)
Theorem insert_text_node_bound (w : World) (root_idx : Z) :
  (∀ text w', final (insert_text root_idx text w) = Some w' →
     count (Trie w) ≤ count (Trie w') ≤ count (Trie w) + Z.of_nat (length text)) ∧
  (∀ lines w', final (populate_trie root_idx lines w) = Some w' →
     count (Trie w) ≤ count (Trie w') ≤ count (Trie w) + total_length lines).
Proof.
  split; [intros text w'; apply insert_text_count|intros lines w'; apply populate_trie_count].
Qed.

(** ** The bounds of the pool are kept *)

Lemma pool_bounds_alloc_node w w' :
  pool_bounds (Trie w) → final (alloc_node w) = Some w' →
  pool_bounds (Trie w') ∧ capacity (Trie w) ≤ capacity (Trie w').
Proof.
  intros [Hc Hmax].
  assert (Hg : 0 ≤ growth (capacity (Trie w))).
  { unfold growth, INITIAL_POOL_CAP. destruct (_ <? _); lia. }
  pose proof (growth_le (capacity (Trie w)) ltac:(lia)) as Hle.
  destruct (alloc_node w) as [v w1|st w1| |] eqn:H; simpl; try discriminate; intros [= ->].
  - apply alloc_node_Returns in H
      as [(_ & _ & _ & Hcnt & Hcap & _)|(-> & _ & _ & _ & cap & -> & Hlt & Hcap)].
    + unfold pool_bounds. rewrite Hcnt, Hcap. lia.
    + unfold pool_bounds. cbn [Trie_alloc count capacity]. destruct Hcap as [->|[_ ->]]; lia.
  - apply alloc_node_Exits in H as (_ & _ & _ & ->). unfold pool_bounds. cbn. lia.
Qed.

Lemma store_terminal_Trie r b w w' :
  final (store_terminal r b w) = Some w' →
  count (Trie w') = count (Trie w) ∧ capacity (Trie w') = capacity (Trie w).
Proof. by intros (n & _ & _ & ->)%store_terminal_final. Qed.

Lemma store_child_Trie r idx v w w' :
  final (store_child r idx v w) = Some w' →
  count (Trie w') = count (Trie w) ∧ capacity (Trie w') = capacity (Trie w).
Proof. by intros (n & _ & _ & _ & ->)%store_child_final. Qed.

Lemma pool_bounds_insert_text text : ∀ r w w',
  pool_bounds (Trie w) → final (insert_text r text w) = Some w' →
  pool_bounds (Trie w') ∧ capacity (Trie w) ≤ capacity (Trie w').
Proof.
  assert (Hend : ∀ r w w', pool_bounds (Trie w) →
    final (bind (store_terminal r true) (λ _, ret true) w) = Some w' →
    pool_bounds (Trie w') ∧ capacity (Trie w) ≤ capacity (Trie w')).
  { unfold pool_bounds. intros r w w' HT [[st H]|([] & w1 & H & [= <-])]%final_bind.
    - apply final_Exits, store_terminal_Trie in H as [-> ->]. lia.
    - apply final_Returns, store_terminal_Trie in H as [-> ->]. lia. }
  induction text as [|ch text IH]; intros r w w' HT; cbn [insert_text]; [by apply Hend|].
  destruct (is_nul ch); [by apply Hend|].
  set (idx := char_code ch - ASCII_OFFSET).
  assert (Hdesc : ∀ w1 w2, pool_bounds (Trie w1) →
    final (bind (load_child r idx) (λ next, insert_text next text) w1) = Some w2 →
    pool_bounds (Trie w2) ∧ capacity (Trie w1) ≤ capacity (Trie w2)).
  { intros w1 w2 HT1 [[st H]|(c & w3 & H & Hf)]%final_bind.
    - by apply load_child_not_Exits in H.
    - apply load_child_Returns in H as [-> _]. by eapply IH. }
  intros [[st H]|(c & w1 & H & Hf)]%final_bind; [by apply load_child_not_Exits in H|].
  apply load_child_Returns in H as [-> Hc].
  destruct (c =? INVALID_OFFSET); [|by apply Hdesc].
  apply final_bind in Hf as [[st H]|(tmp & w1 & H & Hf)].
  { apply final_Exits in H. by apply pool_bounds_alloc_node in H. }
  apply final_Returns, pool_bounds_alloc_node in H as [HT1 Hcap1]; [|done].
  destruct (tmp =? INVALID_OFFSET); [by injection Hf as <-|].
  apply final_bind in Hf as [[st Hs]|([] & w2 & Hs & Hf)].
  - apply final_Exits, store_child_Trie in Hs as [Hc2 Hcap2].
    unfold pool_bounds in *. rewrite Hc2, Hcap2. lia.
  - apply final_Returns, store_child_Trie in Hs as [Hc2 Hcap2].
    apply Hdesc in Hf as [HT' Hcap']; [|unfold pool_bounds in *; rewrite Hc2, Hcap2; lia].
    split; [done|lia].
Qed.

Lemma pool_bounds_populate_trie lines : ∀ r w w',
  pool_bounds (Trie w) → final (populate_trie r lines w) = Some w' →
  pool_bounds (Trie w') ∧ capacity (Trie w) ≤ capacity (Trie w').
Proof.
  induction lines as [|l lines IH]; intros r w w' HT; cbn [populate_trie].
  - intros [= <-]. split; [done|lia].
  - intros [[st H]|(ok & w1 & H & Hf)]%final_bind.
    + apply final_Exits in H. by apply pool_bounds_insert_text in H.
    + apply final_Returns, pool_bounds_insert_text in H as [HT1 Hcap1]; [|done].
      destruct ok; [|by injection Hf as <-].
      apply IH in Hf as [HT' Hcap']; [|done]. split; [done|lia].
Qed.

(** X3: the allocator and the insertions keep [0 ≤ Trie.count ≤
    Trie.capacity ≤ INT32_MAX] and never shrink the capacity, in the world
    they return in and in the world the process exits in. *)
Theorem pool_bounds_preserved (w : World) :
  pool_bounds (Trie w) →
  (∀ w', final (alloc_node w) = Some w' →
     pool_bounds (Trie w') ∧ capacity (Trie w) ≤ capacity (Trie w')) ∧
  (∀ root_idx text w', final (insert_text root_idx text w) = Some w' →
     pool_bounds (Trie w') ∧ capacity (Trie w) ≤ capacity (Trie w')) ∧
  (∀ root_idx lines w', final (populate_trie root_idx lines w) = Some w' →
     pool_bounds (Trie w') ∧ capacity (Trie w) ≤ capacity (Trie w')).
Proof.
  intros HT. split_and!.
  - intros w'. by apply pool_bounds_alloc_node.
  - intros r text w'. by apply pool_bounds_insert_text.
  - intros r lines w'. by apply pool_bounds_populate_trie.
Qed.

Lemma pool_bounds_preserved_witness :
  pool_bounds (Trie (world_of (insert_text 0 (word "do") demo_world) demo_world)) ∧
  capacity (Trie demo_world)
  ≤ capacity (Trie (world_of (insert_text 0 (word "do") demo_world) demo_world)).
Proof.
  refine (proj1 (proj2 (pool_bounds_preserved demo_world _)) 0 (word "do") _ _).
  - split; [split|]; vm_compute; discriminate.
  - vm_compute. reflexivity.
Defined.

(** ** Insertion returns *)

Lemma bind_eq {A B} (m : M A) (k : A → M B) w a w1 :
  m w = Returns a w1 → bind m k w = k a w1.
Proof. unfold bind. by intros ->. Qed.

Lemma store_child_ok i idx v w n :
  pool (Trie w) !! i = Some n → 0 ≤ idx < CHILDREN_COUNT →
  store_child i idx v w = Returns tt (set_Trie (Trie_bind (Trie w) i idx v n) w).
Proof.
  intros Hn Hidx. unfold store_child, bind, load_node. rewrite Hn.
  replace ((0 <=? idx) && (idx <? CHILDREN_COUNT)) with true; [done|].
  symmetry. apply andb_true_iff. split; [apply Z.leb_le|apply Z.ltb_lt]; lia.
Qed.

Lemma store_terminal_ok i b w n :
  pool (Trie w) !! i = Some n →
  store_terminal i b w = Returns tt (set_Trie (Trie_mark (Trie w) i b n) w).
Proof. intros Hn. unfold store_terminal, bind, load_node. by rewrite Hn. Qed.

(** The answers left in the oracle are all successes. *)
Lemma alloc_node_succeeds w :
  pool_bounds (Trie w) → count (Trie w) < INT32_MAX → Forall (λ b, b = true) (heap w) →
  ∃ cap w', alloc_node w = Returns (count (Trie w)) w' ∧
    Trie w' = Trie_alloc (Trie w) cap ∧ count (Trie w) < cap ≤ INT32_MAX ∧
    Forall (λ b, b = true) (heap w') ∧ stderr w' = stderr w.
Proof.
  intros [Hc Hmax] Hlt Hh.
  destruct (decide (count (Trie w) < capacity (Trie w))) as [Hfree|Hfull].
  { exists (capacity (Trie w)). eexists. split; [apply alloc_node_free_cell; lia|].
    split_and!; try done; lia. }
  assert (Hcap : capacity (Trie w) = count (Trie w)) by lia.
  assert (Hpos : 0 < growth (capacity (Trie w)) ≤ INT32_MAX - capacity (Trie w)).
  { unfold growth, INITIAL_POOL_CAP.
    destruct (_ <? _) eqn:E; [apply Z.ltb_lt in E|apply Z.ltb_ge in E]; lia. }
  exists (capacity (Trie w) + growth (capacity (Trie w))).
  unfold alloc_node, bind, get_Trie, int32.
  replace (count (Trie w) >=? capacity (Trie w)) with true
    by (symmetry; apply Z.geb_le; lia).
  replace (in_int32 (INT32_MAX - capacity (Trie w))) with true
    by (symmetry; apply in_int32_spec; unfold INT32_MIN, INT32_MAX in *; lia).
  replace (INT32_MAX - capacity (Trie w) =? 0) with false
    by (symmetry; apply Z.eqb_neq; lia).
  fold (growth (capacity (Trie w))).
  replace (in_int32 (capacity (Trie w) + growth (capacity (Trie w)))) with true
    by (symmetry; apply in_int32_spec; unfold INT32_MIN, INT32_MAX in *; lia).
  unfold put_Trie, realloc. cbn [heap set_Trie].
  destruct (heap w) as [|b h] eqn:Eh.
  - rewrite alloc_node_init_ok by (cbn; lia). eexists. split; [reflexivity|].
    cbn [Trie set_Trie heap]. rewrite Eh. split_and!; try done; lia.
  - apply Forall_cons in Hh as [-> Hh].
    rewrite alloc_node_init_ok by (cbn; lia). eexists. split; [reflexivity|].
    cbn [Trie set_Trie heap set_heap]. split_and!; try done; lia.
Qed.

Lemma slots_valid_slot T r k :
  slots_valid T → 0 ≤ r < count T → 0 ≤ k < CHILDREN_COUNT →
  ∃ n c, pool T !! r = Some n ∧ child T r k = Some c ∧
         (c = INVALID_OFFSET ∨ 0 ≤ c < count T).
Proof.
  intros HT Hr Hk. destruct (HT r Hr) as (n & Hn & Hlen & Hs).
  destruct (lookup_lt_is_Some_2 (children n) (Z.to_nat k)) as [c Hc].
  { rewrite Hlen. unfold CHILDREN_COUNT in *. lia. }
  exists n, c. split; [done|]. split; [|by eapply Hs].
  unfold child. rewrite Hn. by apply node_child_Some.
Qed.

(** Reading the bytes [u] of the text takes [insert_text] from the node
    [root_idx] to the node of [u], creating the nodes that are missing; the
    rest of the text is inserted from there. *)
Lemma insert_text_descends u : ∀ r w,
  slots_valid (Trie w) → pool_bounds (Trie w) → 0 ≤ r < count (Trie w) →
  Forall (λ b, b = true) (heap w) → Forall printable u →
  count (Trie w) + Z.of_nat (length u) ≤ INT32_MAX →
  ∃ j w1, (∀ t, insert_text r (u ++ t) w = insert_text j t w1) ∧
    slots_valid (Trie w1) ∧ pool_bounds (Trie w1) ∧ 0 ≤ j < count (Trie w1) ∧
    Forall (λ b, b = true) (heap w1) ∧
    count (Trie w1) ≤ count (Trie w) + Z.of_nat (length u) ∧ stderr w1 = stderr w.
Proof.
  induction u as [|ch u IH]; intros r w HT HB Hr Hh Hpr Hmax.
  { exists r, w. split_and!; try done; cbn; lia. }
  apply Forall_cons in Hpr as [Hch Hpr]. rewrite length_cons, Nat2Z.inj_succ in Hmax |- *.
  destruct (slots_valid_slot _ r (offset ch) HT Hr Hch) as (n & c & Hn & Hc & Hrange).
  assert (Hl : load_child r (offset ch) w = Returns c w) by (by apply load_child_Returns).
  destruct (decide (c = INVALID_OFFSET)) as [->|Hne].
  - destruct (alloc_node_succeeds w HB ltac:(lia) Hh)
      as (cap & w1 & Ha & HT1 & Hcap & Hh1 & He1).
    assert (Hn1 : pool (Trie w1) !! r = Some n).
    { rewrite HT1. unfold Trie_alloc. cbn [pool]. by rewrite lookup_insert_ne by lia. }
    set (w2 := set_Trie (Trie_bind (Trie w1) r (offset ch) (count (Trie w)) n) w1).
    assert (HT2 : slots_valid (Trie w2)).
    { unfold w2. cbn [Trie set_Trie]. apply slots_valid_bind; [|done|].
      - rewrite HT1. by apply slots_valid_alloc.
      - rewrite HT1. cbn. lia. }
    assert (Hc2 : child (Trie w2) r (offset ch) = Some (count (Trie w))).
    { unfold w2. cbn [Trie set_Trie]. eapply child_bind_same; [done|].
      rewrite HT1, child_alloc_old by lia. exact Hc. }
    assert (Hcnt2 : count (Trie w2) = count (Trie w) + 1).
    { unfold w2. cbn [Trie set_Trie Trie_bind count]. by rewrite HT1. }
    destruct (IH (count (Trie w)) w2) as (j & w3 & Hall & HT3 & HB3 & Hj3 & Hh3 & Hc3 & He3);
      try done.
    + unfold pool_bounds, w2. cbn [Trie set_Trie Trie_bind count capacity].
      rewrite HT1. cbn. lia.
    + lia.
    + lia.
    + exists j, w3. split; [|split_and!; try done; try lia; by rewrite He3].
      intros t. cbn [insert_text app]. rewrite (printable_not_nul ch Hch).
      fold (offset ch). rewrite (bind_eq _ _ _ _ _ Hl). rewrite Z.eqb_refl.
      rewrite (bind_eq _ _ _ _ _ Ha).
      replace (count (Trie w) =? INVALID_OFFSET) with false
        by (symmetry; apply Z.eqb_neq; unfold INVALID_OFFSET; lia).
      rewrite (bind_eq _ _ _ _ _ (store_child_ok r (offset ch) (count (Trie w)) w1 n Hn1 Hch)).
      fold w2. erewrite bind_eq; [apply Hall|]. by apply load_child_Returns.
  - destruct Hrange as [?|Hrange]; [done|].
    destruct (IH c w) as (j & w3 & Hall & HT3 & HB3 & Hj3 & Hh3 & Hc3 & He3);
      try done; [lia|].
    exists j, w3. split; [|split_and!; try done; lia].
    intros t. cbn [insert_text app]. rewrite (printable_not_nul ch Hch).
    fold (offset ch). rewrite (bind_eq _ _ _ _ _ Hl).
    replace (c =? INVALID_OFFSET) with false by (symmetry; by apply Z.eqb_neq).
    rewrite (bind_eq _ _ _ _ _ Hl). apply Hall.
Qed.

Lemma insert_text_succeeds text r w :
  slots_valid (Trie w) → pool_bounds (Trie w) → 0 ≤ r < count (Trie w) →
  Forall (λ b, b = true) (heap w) → Forall printable text →
  count (Trie w) + Z.of_nat (length text) ≤ INT32_MAX →
  ∃ w', insert_text r text w = Returns true w' ∧
    slots_valid (Trie w') ∧ pool_bounds (Trie w') ∧ Forall (λ b, b = true) (heap w') ∧
    count (Trie w) ≤ count (Trie w') ≤ count (Trie w) + Z.of_nat (length text) ∧
    stderr w' = stderr w.
Proof.
  intros HT HB Hr Hh Hpr Hmax.
  destruct (insert_text_descends text r w HT HB Hr Hh Hpr Hmax)
    as (j & w1 & Hall & HT1 & HB1 & Hj & Hh1 & Hcnt & He1).
  specialize (Hall []). rewrite app_nil_r in Hall.
  destruct (HT1 j Hj) as (n & Hn & _).
  cbn [insert_text] in Hall.
  rewrite (bind_eq _ _ _ _ _ (store_terminal_ok j true w1 n Hn)) in Hall.
  eexists. split; [exact Hall|].
  assert (Hf : final (insert_text r text w)
               = Some (set_Trie (Trie_mark (Trie w1) j true n) w1)) by (by rewrite Hall).
  destruct (pool_bounds_insert_text text r w _ HB Hf) as [HB' _].
  pose proof (insert_text_count text r w _ Hf) as Hcnt'.
  split_and!; try done; try lia.
  cbn [Trie set_Trie]. by apply slots_valid_mark.
Qed.

Lemma populate_trie_succeeds lines : ∀ w,
  slots_valid (Trie w) → pool_bounds (Trie w) → 0 < count (Trie w) →
  Forall (λ b, b = true) (heap w) → Forall (Forall printable) lines →
  count (Trie w) + total_length lines ≤ INT32_MAX →
  ∃ w', populate_trie 0 lines w = Returns true w' ∧ stderr w' = stderr w.
Proof.
  induction lines as [|l lines IH]; intros w HT HB Hc Hh Hpr Hmax.
  { by exists w. }
  apply Forall_cons in Hpr as [Hl Hpr]. rewrite total_length_cons in Hmax.
  pose proof (total_length_nonneg lines) as Hnn.
  destruct (insert_text_succeeds l 0 w HT HB ltac:(lia) Hh Hl ltac:(lia))
    as (w1 & Hins & HT1 & HB1 & Hh1 & Hcnt & He1).
  destruct (IH w1 HT1 HB1 ltac:(lia) Hh1 Hpr ltac:(lia)) as (w' & Hpop & He').
  exists w'. cbn [populate_trie]. rewrite (bind_eq _ _ _ _ _ Hins).
  split; [done|]. by rewrite He'.
Qed.

Lemma forallb_id_true h : forallb id h = true → Forall (λ b, b = true) h.
Proof.
  rewrite forallb_forall, Forall_forall. intros H b Hb. apply H. by apply list_elem_of_In.
Qed.

(** The three steps of the start-up sequence of [main], when no allocation
    fails. *)
Lemma build_steps h lines :
  Forall (λ b, b = true) h → Forall (Forall printable) lines →
  1 + total_length lines ≤ INT32_MAX →
  ∃ w1 w, init_pool (initial_world h) = Returns true w1 ∧
    alloc_node w1 = Returns 0 (set_Trie root_Trie w1) ∧
    populate_trie 0 lines (set_Trie root_Trie w1) = Returns true w ∧
    build lines (initial_world h) = Returns true w ∧
    count (Trie w) ≤ 1 + total_length lines ∧ stderr w = [].
Proof.
  intros Hh' Hal Hmax.
  assert (∃ w1, init_pool (initial_world h) = Returns true w1 ∧
            Trie w1 = mkTrie ∅ 0 INITIAL_POOL_CAP ∧ Forall (λ b, b = true) (heap w1) ∧
            stderr w1 = [])
    as (w1 & Hinit & HTw1 & Hh1 & He1).
  { unfold init_pool, bind, realloc. cbn [initial_world heap].
    destruct h as [|b h]; [by eexists|].
    apply Forall_cons in Hh' as [-> Hh']. by eexists. }
  assert (Ha : alloc_node w1 = Returns 0 (set_Trie root_Trie w1)).
  { rewrite alloc_node_free_cell by (rewrite HTw1; by vm_compute). by rewrite HTw1. }
  assert (HT : slots_valid (Trie (set_Trie root_Trie w1))).
  { cbn [Trie set_Trie]. apply slots_validb_sound. vm_compute. reflexivity. }
  assert (HB : pool_bounds (Trie (set_Trie root_Trie w1))).
  { unfold pool_bounds. cbn. unfold INITIAL_POOL_CAP, INT32_MAX. lia. }
  assert (Hc : 0 < count (Trie (set_Trie root_Trie w1))) by (cbn; lia).
  assert (Hm : count (Trie (set_Trie root_Trie w1)) + total_length lines ≤ INT32_MAX)
    by (cbn; lia).
  destruct (populate_trie_succeeds lines (set_Trie root_Trie w1) HT HB Hc Hh1 Hal Hm)
    as (w' & Hpop & He').
  exists w1, w'. split_and!; try done.
  - unfold build. rewrite (bind_eq _ _ _ _ _ Hinit), (bind_eq _ _ _ _ _ Ha). exact Hpop.
  - apply final_Returns, populate_trie_count in Hpop. cbn in Hpop. lia.
  - rewrite He'. exact He1.
Qed.

(** X4: when no allocation fails, the lines are over the alphabet and their
    bytes, with the root, number at most [INT32_MAX], the start-up sequence
    of [main] ([init_pool], the root from [alloc_node], [populate_trie])
    returns [true]: it neither exits nor steps outside what C defines. *)
Theorem build_succeeds (h : list bool) (lines : list (list ascii)) :
  forallb id h = true → alphabet_lines lines = true →
  1 + total_length lines ≤ INT32_MAX →
  ∃ w, build lines (initial_world h) = Returns true w.
Proof.
  intros Hh'%forallb_id_true Hal%alphabet_lines_spec Hmax.
  destruct (build_steps h lines Hh' Hal Hmax) as (w1 & w & _ & _ & _ & Hb & _).
  by exists w.
Qed.

Lemma build_succeeds_witness : ∃ w, build demo_lines (initial_world []) = Returns true w.
Proof.
  refine (build_succeeds [] demo_lines _ _ _).
  - reflexivity.
  - vm_compute. reflexivity.
  - vm_compute. discriminate.
Defined.

(** ** Bytes outside the alphabet *)

(** X5: [insert_text] has no check on the bytes of the text.  When the text
    holds a byte outside the alphabet 32..126 that is not NUL (a tab, a
    carriage return, a byte of a multi-byte character) after bytes [u] of
    the alphabet, and no allocation fails on the way, the child table is
    read outside its bounds, which C does not define. *)
Theorem insert_text_foreign_byte (w : World) (root_idx : Z) (u : list ascii) (ch : ascii)
    (rest : list ascii) :
  slots_valid (Trie w) → pool_bounds (Trie w) → 0 ≤ root_idx < count (Trie w) →
  forallb id (heap w) = true → forallb printableb u = true →
  count (Trie w) + Z.of_nat (length u) ≤ INT32_MAX →
  printableb ch = false → is_nul ch = false →
  insert_text root_idx (u ++ ch :: rest) w = Undefined.
Proof.
  intros HT HB Hr Hh'%forallb_id_true Hu%Forall_printableb Hmax Hch Hnul.
  destruct (insert_text_descends u root_idx w HT HB Hr Hh' Hu Hmax)
    as (j & w1 & Hall & HT1 & _ & Hj & _).
  rewrite Hall. cbn [insert_text]. rewrite Hnul.
  unfold bind. rewrite load_child_eq. unfold child.
  destruct (HT1 j Hj) as (n & -> & _). unfold node_child.
  unfold printableb, offset in Hch. by rewrite Hch.
Qed.

Lemma insert_text_foreign_byte_witness :
  insert_text 0 (word "ca" ++ ascii_of_nat 9 :: word "b") demo_world = Undefined.
Proof.
  refine (insert_text_foreign_byte demo_world 0 (word "ca") (ascii_of_nat 9) (word "b")
            _ _ _ _ _ _ _ _).
  - apply slots_validb_sound. vm_compute. reflexivity.
  - split; [split|]; vm_compute; discriminate.
  - split; vm_compute; [discriminate|reflexivity].
  - vm_compute. reflexivity.
  - vm_compute. reflexivity.
  - vm_compute. discriminate.
  - vm_compute. reflexivity.
  - vm_compute. reflexivity.
Defined.

(** ** The descent does not check the room of the buffer *)

Lemma walk_cons_inv T r k p j :
  walk T r (k :: p) = Some j →
  ∃ c, child T r k = Some c ∧ c ≠ INVALID_OFFSET ∧ walk T c p = Some j.
Proof.
  cbn [walk]. destruct (child T r k) as [c|]; [|done].
  destruct (c =? INVALID_OFFSET) eqn:E; [done|]. apply Z.eqb_neq in E. by exists c.
Qed.

(** X6: [find_prefix] pushes every matched byte on the buffer without
    looking at the room left.  When the part of the prefix that the trie
    matches is longer than the room, a byte is written past the end of
    [ac_buffer], which C does not define; the bytes after the matched part
    do not matter. *)
Theorem find_prefix_overflow (w : World) (root_idx : Z) (u rest : list ascii) (j : Z) :
  walk (Trie w) root_idx (offsets u) = Some j → buffer_ok w →
  AC_BUFFER_CAP < ac_buffer_sz w + Z.of_nat (length u) →
  find_prefix root_idx (u ++ rest) w = Undefined.
Proof.
  revert root_idx w j. induction u as [|ch u IH]; intros r w j Hw Hok Hroom.
  { destruct Hok as [Hsz _]. cbn in Hroom. lia. }
  cbn [offsets fmap list_fmap] in Hw. apply walk_cons_inv in Hw as (c & Hc & Hne & Hw).
  assert (Hch : printable ch) by (by apply child_Some_range in Hc).
  assert (Hl : load_child r (offset ch) w = Returns c w) by (by apply load_child_Returns).
  cbn [find_prefix app]. rewrite (printable_not_nul ch Hch). fold (offset ch).
  rewrite (bind_eq _ _ _ _ _ Hl).
  replace (c =? INVALID_OFFSET) with false by (symmetry; by apply Z.eqb_neq).
  rewrite (bind_eq _ _ _ _ _ Hl).
  destruct (decide (ac_buffer_sz w < AC_BUFFER_CAP)) as [Hlt|Hfull].
  - destruct (ac_buffer_push_ok ch w Hok Hlt) as (w1 & Hpush & HT & _ & Hsz & Hok1 & _).
    rewrite (bind_eq _ _ _ _ _ Hpush). apply (IH c w1 j).
    + by rewrite HT.
    + done.
    + rewrite Hsz. rewrite length_cons, Nat2Z.inj_succ in Hroom. cbn [length]. lia.
  - unfold bind, ac_buffer_push.
    replace (ac_buffer_sz w <? AC_BUFFER_CAP) with false by (symmetry; apply Z.ltb_ge; lia).
    by rewrite andb_false_r.
Qed.

Lemma find_prefix_overflow_witness :
  find_prefix 0 (replicate 2049 "a"%char ++ word "b") (chain_world 2050 4096) = Undefined.
Proof.
  refine (find_prefix_overflow (chain_world 2050 4096) 0 (replicate 2049 "a"%char)
            (word "b") 2049 _ _ _).
  - vm_compute. reflexivity.
  - split; [split|]; vm_compute; [discriminate|discriminate|reflexivity].
  - vm_compute. reflexivity.
Defined.

(** ** Membership *)

(** X7: in the trie built from [lines] (over the alphabet, none longer than
    the buffer), for every text [W] over the alphabet, [find_prefix] from
    the root returns, and it returns a terminal node exactly when [W] is one
    of the lines: a text that was not inserted is never reported as a
    word, whatever its length. *)
Theorem find_prefix_terminal_iff (h : list bool) (lines : list (list ascii)) (w : World)
    (W : list ascii) :
  alphabet_lines lines = true → lines_fit lines = true →
  build lines (initial_world h) = Returns true w →
  forallb printableb W = true →
  ∃ idx w1, find_prefix 0 W w = Returns idx w1 ∧ Trie w1 = Trie w ∧
    (W ∈ lines ↔ idx ≠ INVALID_OFFSET ∧ terminal_at (Trie w) idx = true).
Proof.
  intros Hal Hfit Hb HW%Forall_printableb.
  destruct (build_facts h lines w Hal Hb)
    as (Hpr & Hok & Hsz & Htxt & name & HI & Hm & Hp & Hcov).
  pose proof (covered_shallow _ _ _ HI Hcov Hfit) as Hsh.
  assert (H0 : 0 ≤ 0 < count (Trie w)) by (pose proof (inv_count _ _ HI); lia).
  destruct (find_prefix_represents w name W HI Hsh HW Hok Hsz)
    as (idx & w1 & Hfp & HT & _ & _ & Hres).
  exists idx, w1. split; [done|]. split; [done|].
  destruct Hres as [[-> Hnone]|[Hw _]].
  - split; [|by intros [? _]]. intros Hin.
    destruct (Hp W Hin) as (i & Hi & Hni).
    pose proof (inv_reach _ _ HI i Hi) as Hwi. rewrite Hni in Hwi. congruence.
  - destruct (walk_name _ _ _ _ _ HI H0 Hw) as [Hidx Hn].
    rewrite (inv_root _ _ HI) in Hn. cbn [app] in Hn.
    destruct (inv_node _ _ HI idx Hidx) as (n & Hpn & _).
    unfold terminal_at. rewrite Hpn. rewrite (Hm idx n Hidx Hpn), Hn. split.
    + intros Hin. split; [unfold INVALID_OFFSET; lia|by apply list_elem_of_fmap_2].
    + intros [_ (l & Hl & Hin)%list_elem_of_fmap].
      assert (Hlp : Forall printable l) by (rewrite Forall_forall in Hpr; by apply Hpr).
      replace W with l; [done|].
      by rewrite <- (chars_offsets l Hlp), <- Hl, (chars_offsets W HW).
Qed.

Lemma find_prefix_terminal_iff_witness :
  ∃ idx w1, find_prefix 0 (word "ca") demo_world = Returns idx w1 ∧
    Trie w1 = Trie demo_world ∧
    (word "ca" ∈ demo_lines ↔ idx ≠ INVALID_OFFSET ∧ terminal_at (Trie demo_world) idx = true).
Proof.
  refine (find_prefix_terminal_iff [] demo_lines demo_world (word "ca") _ _ _ _).
  - vm_compute. reflexivity.
  - vm_compute. reflexivity.
  - vm_compute. reflexivity.
  - vm_compute. reflexivity.
Defined.

(** ** The traversal leaves the buffer as it found it *)

(** X8: in the trie built from [lines], after [find_prefix] has found the
    prefix [P], [print_suggestions] returns with the buffer holding exactly
    the bytes of [P] again (every byte it pushed has been popped), and with
    the Trie and the DOT sink untouched. *)
Theorem print_suggestions_restores_buffer (h : list bool) (lines : list (list ascii))
    (w : World) (P : list ascii) (fuel : nat) (idx : Z) (w1 : World) :
  alphabet_lines lines = true → lines_fit lines = true →
  build lines (initial_world h) = Returns true w →
  forallb printableb P = true → count (Trie w) ≤ Z.of_nat fuel →
  find_prefix 0 P w = Returns idx w1 → idx ≠ INVALID_OFFSET →
  ∃ w2, print_suggestions fuel idx w1 = Returns tt w2 ∧
    buffer_text w2 = P ∧ ac_buffer_sz w2 = Z.of_nat (length P) ∧
    Trie w2 = Trie w ∧ sink w2 = sink w.
Proof.
  intros Hal Hfit Hb HP%Forall_printableb Hfuel Hfp Hidx.
  destruct (build_facts h lines w Hal Hb)
    as (Hpr & Hok & Hsz & Htxt & name & HI & Hm & Hp & Hcov).
  pose proof (covered_shallow _ _ _ HI Hcov Hfit) as Hsh.
  destruct (find_prefix_represents w name P HI Hsh HP Hok Hsz)
    as (idx' & w1' & Hfp' & _ & _ & Hk1 & Hres).
  rewrite Hfp in Hfp'. injection Hfp' as <- <-.
  destruct Hres as [[-> _]|[Hw Hpush]]; [done|].
  destruct (complete_represents w name P idx w1 fuel HI Hsh Hw Hpush Hok Hsz Hfuel)
    as (w2 & Hps & HT2 & Hb2 & Hs2 & _ & _ & Hk2).
  destruct Hpush as (HT1 & Hb1 & Hs1 & _).
  exists w2. split_and!; try done.
  - by rewrite Hb2, Hb1, Htxt.
  - rewrite Hs2, Hs1, Hsz. lia.
  - by rewrite HT2.
  - by rewrite Hk2, app_nil_r.
Qed.

Lemma print_suggestions_restores_buffer_witness :
  ∃ w2, print_suggestions 9 2
          (world_of (find_prefix 0 (word "ca") demo_world) demo_world) = Returns tt w2 ∧
    buffer_text w2 = word "ca" ∧ ac_buffer_sz w2 = 2 ∧
    Trie w2 = Trie demo_world ∧ sink w2 = sink demo_world.
Proof.
  refine (print_suggestions_restores_buffer [] demo_lines demo_world (word "ca") 9 2
            (world_of (find_prefix 0 (word "ca") demo_world) demo_world) _ _ _ _ _ _ _).
  - vm_compute. reflexivity.
  - vm_compute. reflexivity.
  - vm_compute. reflexivity.
  - vm_compute. reflexivity.
  - vm_compute. discriminate.
  - vm_compute. reflexivity.
  - vm_compute. discriminate.
Defined.

(** ** A failed insertion *)

Lemma child_same T T' i k : pool T' = pool T → child T' i k = child T i k.
Proof. unfold child. by intros ->. Qed.

Lemma walk_same T T' p : pool T' = pool T → ∀ i, walk T' i p = walk T i p.
Proof.
  intros Hp. induction p as [|k p IH]; intros i; [done|].
  cbn [walk]. rewrite (child_same T T') by done.
  destruct (child T i k) as [c|]; [|done]. by destruct (c =? INVALID_OFFSET).
Qed.

Lemma trie_inv_same T T' name :
  pool T' = pool T → count T' = count T → count T ≤ capacity T' ≤ INT32_MAX →
  trie_inv T name → trie_inv T' name.
Proof.
  intros Hp Hc Hcap HI. split.
  - pose proof (inv_count _ _ HI). lia.
  - intros i Hi. rewrite Hp. apply (inv_node _ _ HI). lia.
  - apply (inv_root _ _ HI).
  - intros i k c Hi Hch Hne. rewrite (child_same T T') in Hch by done. rewrite Hc in *.
    by apply (inv_edge _ _ HI).
  - intros i Hi. rewrite (walk_same T T') by done. apply (inv_reach _ _ HI). lia.
Qed.

(** An [insert_text] that returns [false] has added nodes on the path of its
    text only, and has marked none. *)
Lemma insert_text_failed text : ∀ r w w' name ws W,
  trie_inv (Trie w) name → marks (Trie w) name ws → present (Trie w) name ws →
  covered (Trie w) name (W :: ws) →
  Forall printable text → offsets W = name r ++ offsets text → 0 ≤ r < count (Trie w) →
  insert_text r text w = Returns false w' →
  same_io w w' ∧
  ∃ name', trie_inv (Trie w') name' ∧ marks (Trie w') name' ws ∧
           present (Trie w') name' ws ∧ covered (Trie w') name' (W :: ws).
Proof.
  induction text as [|ch text IH]; intros r w w' name ws W HI Hm Hp Hcov Hpr HW Hr Hins.
  - cbn [insert_text] in Hins. by apply bind_Returns in Hins as ([] & w1 & Hst & [=]).
  - apply Forall_cons in Hpr as [Hch Hpr].
    cbn [insert_text] in Hins. rewrite (printable_not_nul ch Hch) in Hins.
    fold (offset ch) in Hins.
    destruct (inv_child_total _ _ r (offset ch) HI Hr Hch) as [c Hc].
    apply bind_Returns in Hins as (c' & w1 & Hl & Hins).
    apply load_child_Returns in Hl as [-> Hc']. rewrite Hc in Hc'. injection Hc' as <-.
    assert (HW' : offsets W = (name r ++ [offset ch]) ++ offsets text).
    { rewrite HW. cbn [offsets fmap list_fmap]. by rewrite <- app_assoc. }
    destruct (c =? INVALID_OFFSET) eqn:Hinv.
    + apply Z.eqb_eq in Hinv. subst c.
      apply bind_Returns in Hins as (tmp & w1 & Ha & Hins).
      apply alloc_node_Returns in Ha
        as [(-> & Hle & Hpool & Hcnt & Hcapw & Hio)
           |(-> & Hv & Hmax & Hio & cap & HT1 & Hvc & Hcap)].
      * rewrite Z.eqb_refl in Hins. injection Hins as <-.
        split; [done|]. exists name.
        pose proof (inv_count _ _ HI) as Hic.
        pose proof (growth_le (capacity (Trie w)) ltac:(lia)) as Hg.
        assert (Hg0 : 0 ≤ growth (capacity (Trie w))).
        { unfold growth, INITIAL_POOL_CAP. destruct (_ <? _); lia. }
        split; [apply (trie_inv_same (Trie w)); [done|done|lia|done]|].
        split; [|split].
        -- intros i n. rewrite Hcnt, Hpool. apply Hm.
        -- intros l Hl. rewrite Hcnt. by apply Hp.
        -- intros i. rewrite Hcnt. apply Hcov.
      * replace (count (Trie w) =? INVALID_OFFSET) with false in Hins
          by (symmetry; apply Z.eqb_neq; unfold INVALID_OFFSET; lia).
        apply bind_Returns in Hins as ([] & w2 & Hs & Hins).
        assert (Hf : final (store_child r (offset ch) (count (Trie w)) w1) = Some w2)
          by (by rewrite Hs).
        apply store_child_final in Hf as (n & Hn & _ & _ & ->).
        apply bind_Returns in Hins as (next & w3 & Hl & Hins).
        apply load_child_Returns in Hl as [-> Hnext]. cbn [Trie set_Trie] in Hnext.
        rewrite HT1 in Hn, Hnext.
        assert (Hn0 : pool (Trie w) !! r = Some n).
        { unfold Trie_alloc in Hn. cbn [pool] in Hn. by rewrite lookup_insert_ne in Hn by lia. }
        assert (Hcap' : count (Trie w) < cap ≤ INT32_MAX).
        { pose proof (inv_count _ _ HI). split; [done|].
          destruct Hcap as [->|[_ ->]]; [lia|]. apply growth_le. lia. }
        fold (Trie_grow (Trie w) cap r (offset ch) n) in Hnext.
        rewrite grow_child_new in Hnext by done. injection Hnext as <-.
        set (w2 := set_Trie (Trie_bind (Trie w1) r (offset ch) (count (Trie w)) n) w1) in *.
        assert (HT2 : Trie w2 = Trie_grow (Trie w) cap r (offset ch) n).
        { unfold w2. cbn [Trie set_Trie]. by rewrite HT1. }
        assert (Hio2 : same_io w1 w2) by (by repeat split).
        destruct (IH (count (Trie w)) w2 w' (name_grow (Trie w) name r (offset ch)) ws W)
          as (Hio' & name' & Hres); rewrite ?HT2.
        -- by apply trie_inv_grow.
        -- by apply marks_grow.
        -- by apply present_grow.
        -- apply covered_grow with (l := W); [done|by left|].
           rewrite HW'. by apply prefix_app_r.
        -- done.
        -- by rewrite grow_name_new.
        -- cbn. lia.
        -- exact Hins.
        -- split; [|by exists name'].
           eapply same_io_trans; [exact Hio|]. by eapply same_io_trans.
    + apply Z.eqb_neq in Hinv.
      apply bind_Returns in Hins as (next & w3 & Hl & Hins).
      apply load_child_Returns in Hl as [-> Hnext]. rewrite Hc in Hnext. injection Hnext as <-.
      destruct (inv_edge _ _ HI r (offset ch) c Hr Hc Hinv) as [Hlt Hname].
      apply (IH c w w' name ws W); try done; [by rewrite Hname|lia].
Qed.

Lemma returns_bool_eq b o d : returns_bool b o = true → o = Returns b (world_of o d).
Proof. destruct o as [v w| | |]; try done. by intros ->%eqb_prop. Qed.

(** X9: an [insert_text] that returns [false] (a failed [realloc]) leaves
    the set of words as it was.  In the trie built from [lines], after a
    failed insertion of [W], [find_prefix] finds every prefix [P] that is
    empty or starts a line, and whatever it finds is empty or starts a line
    or [W]; the completions of [P] are exactly the lines that start with
    [P]: no line is lost, and no part of [W] has become a word. *)
Theorem insert_text_failure_keeps_words (h : list bool) (lines : list (list ascii))
    (w0 : World) (W : list ascii) (w : World) (P : list ascii) (fuel : nat) :
  alphabet_lines (W :: lines) = true → lines_fit (W :: lines) = true →
  build lines (initial_world h) = Returns true w0 →
  insert_text 0 W w0 = Returns false w →
  forallb printableb P = true → count (Trie w) ≤ Z.of_nat fuel →
  ∃ idx w1, find_prefix 0 P w = Returns idx w1 ∧
    (P = [] ∨ (∃ l, l ∈ lines ∧ P `prefix_of` l) → idx ≠ INVALID_OFFSET) ∧
    (idx ≠ INVALID_OFFSET →
     (P = [] ∨ ∃ l, l ∈ W :: lines ∧ P `prefix_of` l) ∧
     ∃ out w2, print_suggestions fuel idx w1 = Returns tt w2 ∧
       stdout w2 = stdout w1 ++ unlines out ∧
       ∀ x, x ∈ out ↔ x ∈ lines ∧ P `prefix_of` x).
Proof.
  intros Hal Hfit Hb Hins HP%Forall_printableb Hfuel.
  cbn [alphabet_lines forallb] in Hal. apply andb_true_iff in Hal as [HW%Forall_printableb Hal].
  fold (alphabet_lines lines) in Hal.
  destruct (build_represents h lines w0 (alphabet_lines_spec _ Hal) Hb)
    as [(name & HI & Hm & Hp & Hcov) Hio0].
  destruct (insert_text_failed W 0 w0 w name lines W) as (Hio & name' & HI' & Hm' & Hp' & Hcov');
    try done.
  { intros i Hi. destruct (Hcov i Hi) as (l & Hl & Hpre). exists l. split; [by right|done]. }
  { by rewrite (inv_root _ _ HI). }
  { pose proof (inv_count _ _ HI). lia. }
  destruct (initial_buffer h w (same_io_trans _ _ _ Hio0 Hio)) as (Hok & Hsz & Htxt).
  pose proof (covered_shallow _ _ _ HI' Hcov' Hfit) as Hsh.
  destruct (find_prefix_represents w name' P HI' Hsh HP Hok Hsz)
    as (idx & w1 & Hfp & _ & _ & _ & Hres).
  pose proof (alphabet_lines_spec _ Hal) as Hpr.
  exists idx, w1. split; [done|]. split.
  { intros Hpre. apply (walk_prefix_present _ name' lines P HI' Hp') in Hpre as [j Hj].
    destruct Hres as [[_ Hw]|[Hw _]]; [congruence|].
    assert (H0 : 0 ≤ 0 < count (Trie w)) by (pose proof (inv_count _ _ HI'); lia).
    destruct (walk_name _ _ _ _ _ HI' H0 Hw) as [Hidx _]. unfold INVALID_OFFSET. lia. }
  intros Hidx.
  destruct Hres as [[-> _]|[Hw Hpush]]; [done|]. split.
  { apply (walk_prefix_covered (Trie w) name' (W :: lines) P HI' Hcov').
    - by apply Forall_cons.
    - done.
    - by eexists. }
  destruct (complete_represents w name' P idx w1 fuel HI' Hsh Hw Hpush Hok Hsz Hfuel)
    as (w2 & Hps & He).
  rewrite Htxt in He. cbn [app] in He. destruct He as (_ & _ & _ & _ & Ho & _).
  exists (emitted (Trie w) P (dfs fuel (Trie w) idx)), w2. split_and!; try done.
  intros x. by apply (emitted_exact _ name').
Qed.

Lemma insert_text_failure_keeps_words_witness :
  ∃ idx w1 out w2,
    find_prefix 0 (word "a")
      (world_of (insert_text 0 (word "b")
                   (world_of (build [replicate 2047 "a"%char] (initial_world [true; false]))
                             (initial_world [])))
                (initial_world [])) = Returns idx w1 ∧
    idx ≠ INVALID_OFFSET ∧
    print_suggestions 2048 idx w1 = Returns tt w2 ∧
    stdout w2 = stdout w1 ++ unlines out ∧
    ∀ x, x ∈ out ↔ x ∈ [replicate 2047 "a"%char] ∧ word "a" `prefix_of` x.
Proof.
  destruct (insert_text_failure_keeps_words [true; false] [replicate 2047 "a"%char]
              (world_of (build [replicate 2047 "a"%char] (initial_world [true; false]))
                        (initial_world []))
              (word "b")
              (world_of (insert_text 0 (word "b")
                           (world_of (build [replicate 2047 "a"%char]
                                        (initial_world [true; false]))
                                     (initial_world [])))
                        (initial_world []))
              (word "a") 2048)
    as (idx & w1 & Hfp & Hfound & H).
  - vm_compute. reflexivity.
  - vm_compute. reflexivity.
  - apply returns_bool_eq. vm_compute. reflexivity.
  - apply returns_bool_eq. vm_compute. reflexivity.
  - vm_compute. reflexivity.
  - vm_compute. discriminate.
  - assert (Hidx : idx ≠ INVALID_OFFSET).
    { apply Hfound. right. exists (replicate 2047 "a"%char). split; [left|].
      exists (replicate 2046 "a"%char). reflexivity. }
    destruct (H Hidx) as (_ & out & w2 & Hps & Ho & Hex).
    exists idx, w1, out, w2. split; [exact Hfp|]. split; [exact Hidx|].
    split; [exact Hps|]. split; [exact Ho|exact Hex].
Defined.

(** ** The two dumps write the same graph *)

Lemma Permutation_concat_fmap_ext {A B} (f g : A → list B) l :
  (∀ x, x ∈ l → f x ≡ₚ g x) → concat (f <$> l) ≡ₚ concat (g <$> l).
Proof.
  induction l as [|a l IH]; intros H; [done|]. cbn.
  rewrite (H a) by left. rewrite IH; [done|]. intros x Hx. apply H. by right.
Qed.

Lemma Permutation_concat_fmap_app {A B} (f g : A → list B) l :
  concat ((λ x, f x ++ g x) <$> l) ≡ₚ concat (f <$> l) ++ concat (g <$> l).
Proof.
  induction l as [|a l IH]; [done|]. cbn. rewrite IH.
  rewrite <- !app_assoc. f_equiv. rewrite !app_assoc. f_equiv. apply Permutation_app_comm.
Qed.

Lemma concat_fmap_concat {A B} (g : A → list B) (ls : list (list A)) :
  concat (g <$> concat ls) = concat ((λ l, concat (g <$> l)) <$> ls).
Proof.
  induction ls as [|l ls IH]; [done|]. cbn. by rewrite fmap_app, concat_app, IH.
Qed.

Lemma Permutation_concat_fmap {A B} (f : A → list B) l l' :
  l ≡ₚ l' → concat (f <$> l) ≡ₚ concat (f <$> l').
Proof.
  induction 1 as [|x l l' _ IH|x y l|l l' l'' _ IH1 _ IH2]; cbn.
  - done.
  - by rewrite IH.
  - rewrite !app_assoc. f_equiv. apply Permutation_app_comm.
  - by rewrite IH1.
Qed.

(** What a dump writes, node by node. *)
Lemma prefix_stmts_dfs fuel T : ∀ i,
  prefix_stmts fuel T i
  ≡ₚ concat ((λ jv, concat (edge_stmts T jv.1 <$> seqZ 0 CHILDREN_COUNT)) <$> dfs fuel T i).
Proof.
  induction fuel as [|fuel IH]; intros i; [done|].
  cbn [prefix_stmts dfs]. rewrite fmap_cons. cbn [concat fst].
  rewrite Permutation_concat_fmap_app. f_equiv.
  rewrite concat_fmap_concat, <- list_fmap_compose.
  apply Permutation_concat_fmap_ext. intros k _. unfold compose.
  destruct (child T i k) as [c|]; [|done].
  destruct (c =? INVALID_OFFSET); [done|].
  rewrite IH. rewrite <- list_fmap_compose. unfold compose.
  apply Permutation_concat_fmap_ext. by intros [j v] _.
Qed.

Lemma dfs_nodes_all T name fuel :
  trie_inv T name → count T ≤ Z.of_nat fuel → (dfs fuel T 0).*1 ≡ₚ seqZ 0 (count T).
Proof.
  intros HI Hfuel.
  assert (H0 : 0 ≤ 0 < count T) by (pose proof (inv_count _ _ HI); lia).
  apply NoDup_Permutation.
  - by apply (dfs_nodes_NoDup T name).
  - apply NoDup_seqZ.
  - intros j. rewrite (dfs_nodes_reachable T name) by (done || lia).
    rewrite elem_of_seqZ. split.
    + intros [v Hv]. destruct (walk_name _ _ _ _ _ HI H0 Hv) as [Hj _]. lia.
    + intros Hj. exists (name j). apply (inv_reach _ _ HI). lia.
Qed.

Lemma whole_stmts_prefix_stmts T name fuel :
  trie_inv T name → count T ≤ Z.of_nat fuel → whole_stmts T ≡ₚ prefix_stmts fuel T 0.
Proof.
  intros HI Hfuel. rewrite prefix_stmts_dfs. unfold whole_stmts.
  rewrite <- (Permutation_concat_fmap _ _ _ (dfs_nodes_all T name fuel HI Hfuel)).
  by rewrite <- list_fmap_compose.
Qed.

(** X10: [generate_dot] dumps the whole pool by index when the root is node
    0, and walks the subtree otherwise.  In the trie built from [lines] the
    two agree on the root: [dump_dot_whole] and [dump_dot_prefix] from node
    0 both return, and write the same statements up to their order (every
    node of the pool is reachable from the root, and is visited once). *)
Theorem dump_dot_whole_same_graph (h : list bool) (lines : list (list ascii)) (w : World)
    (fuel : nat) :
  alphabet_lines lines = true → build lines (initial_world h) = Returns true w →
  count (Trie w) ≤ Z.of_nat fuel →
  ∃ w1 w2 s1 s2, dump_dot_whole w = Returns tt w1 ∧ sink w1 = sink w ++ s1 ∧
    dump_dot_prefix fuel 0 w = Returns tt w2 ∧ sink w2 = sink w ++ s2 ∧ s1 ≡ₚ s2.
Proof.
  intros Hal Hb Hfuel.
  destruct (build_facts h lines w Hal Hb) as (_ & _ & _ & _ & name & HI & _).
  assert (H0 : 0 ≤ 0 < count (Trie w)) by (pose proof (inv_count _ _ HI); lia).
  destruct (dump_dot_whole_effects name w HI) as (w1 & Hd1 & _ & _ & _ & _ & _ & Hs1).
  destruct (dump_dot_prefix_effects name fuel 0 w w HI eq_refl H0 ltac:(lia))
    as (w2 & Hd2 & _ & _ & _ & _ & _ & Hs2).
  exists w1, w2, (whole_stmts (Trie w)), (prefix_stmts fuel (Trie w) 0).
  split_and!; try done. by apply (whole_stmts_prefix_stmts _ name).
Qed.

Lemma dump_dot_whole_same_graph_witness :
  ∃ w1 w2 s1 s2, dump_dot_whole demo_world = Returns tt w1 ∧
    sink w1 = sink demo_world ++ s1 ∧
    dump_dot_prefix 9 0 demo_world = Returns tt w2 ∧
    sink w2 = sink demo_world ++ s2 ∧ s1 ≡ₚ s2.
Proof.
  refine (dump_dot_whole_same_graph [] demo_lines demo_world 9 _ _ _).
  - vm_compute. reflexivity.
  - vm_compute. reflexivity.
  - vm_compute. discriminate.
Defined.

(** * The input and the command line *)

(** ** The allocator's answers *)

Lemma heap_only_refl w : heap_only w w.
Proof. unfold heap_only. by destruct w. Qed.

Lemma heap_only_trans w1 w2 w3 : heap_only w1 w2 → heap_only w2 w3 → heap_only w1 w3.
Proof. unfold heap_only. intros -> ->. by destruct w1. Qed.

Lemma heap_only_same_io w w' : heap_only w w' → same_io w w' ∧ Trie w' = Trie w ∧ stderr w' = stderr w.
Proof. unfold heap_only. intros ->. by repeat split. Qed.

Lemma realloc_true w :
  Forall (λ b, b = true) (heap w) →
  ∃ w', realloc w = Returns true w' ∧ heap_only w w' ∧ Forall (λ b, b = true) (heap w').
Proof.
  intros Hh. unfold realloc. destruct (heap w) as [|b h] eqn:E.
  - exists w. split_and!; [done|apply heap_only_refl|by rewrite E].
  - apply Forall_cons in Hh as [-> Hh]. exists (set_heap h w). by split_and!.
Qed.

(** ** Splitting into lines *)

Lemma size_t_small z : 0 ≤ z < 2 ^ SIZE_WIDTH → size_t z = z.
Proof. intros H. unfold size_t. by apply Z.mod_small. Qed.

Lemma nul_free_cons ch s : nul_free (ch :: s) = true ↔ is_nul ch = false ∧ nul_free s = true.
Proof.
  unfold nul_free. cbn [forallb]. rewrite andb_true_iff, negb_true_iff. done.
Qed.

Lemma c_string_nul_free s : nul_free s = true → c_string s = s.
Proof.
  induction s as [|ch s IH]; [done|]. intros [Hch Hs]%nul_free_cons.
  cbn [c_string]. rewrite Hch. by rewrite IH.
Qed.

Lemma is_nul_newline : is_nul newline = false.
Proof. reflexivity. Qed.

Lemma strpbrk_newline s :
  nul_free s = true →
  match strpbrk s [newline] with
  | None => newline ∉ s
  | Some rest => ∃ tok r, s = tok ++ newline :: r ∧ rest = newline :: r ∧ newline ∉ tok
  end.
Proof.
  induction s as [|ch s IH]; intros Hs; cbn [strpbrk]; [apply not_elem_of_nil|].
  apply nul_free_cons in Hs as [Hch Hs]. rewrite Hch.
  cbn [c_string]. rewrite is_nul_newline. cbn [c_string].
  destruct (bool_decide (ch ∈ [newline])) eqn:E.
  - apply bool_decide_eq_true, list_elem_of_singleton in E as ->.
    exists [], s. split_and!; try done. apply not_elem_of_nil.
  - apply bool_decide_eq_false in E. rewrite list_elem_of_singleton in E.
    specialize (IH Hs). destruct (strpbrk s [newline]) as [rest|].
    + destruct IH as (tok & r & -> & -> & Hn). exists (ch :: tok), r.
      split_and!; try done. rewrite not_elem_of_cons. split; [congruence|done].
    + rewrite not_elem_of_cons. split; [congruence|done].
Qed.

Lemma terminated_no_newline s : s ≠ [] → newline ∉ s → terminated s = s ++ [newline].
Proof.
  intros Hne Hn. unfold terminated. destruct (last s) as [ch|] eqn:E.
  - destruct (decide (ch = newline)) as [->|]; [|done].
    destruct Hn. apply last_Some in E as [l' ->]. apply elem_of_app. right. left.
  - by apply last_None in E.
Qed.

Lemma terminated_snoc tok : terminated (tok ++ [newline]) = tok ++ [newline].
Proof. unfold terminated. rewrite last_snoc. by rewrite decide_True. Qed.

Lemma terminated_app tok r :
  r ≠ [] → terminated (tok ++ newline :: r) = tok ++ newline :: terminated r.
Proof.
  intros Hr. unfold terminated.
  assert (last (tok ++ newline :: r) = last r) as ->.
  { rewrite last_app. rewrite last_cons. destruct (last r) eqn:E; [done|].
    by apply last_None in E. }
  destruct (last r) as [ch|] eqn:E; [|by apply last_None in E].
  destruct (decide (ch = newline)); [done|]. by rewrite <- app_assoc.
Qed.

(** The invariant of the loop of [io_split_by_delim]: the array has room for
    the tokens stored, and has at most doubled past them. *)
Lemma io_split_loop_lines fuel : ∀ s tokens ts capacity w,
  (length s < fuel)%nat → nul_free s = true →
  Forall (λ b, b = true) (heap w) →
  tokens = Some ts ∨ (tokens = None ∧ ts = [] ∧ capacity = 0) →
  Z.of_nat (length ts) ≤ capacity ≤ IO_TOKEN_CHUNK_SIZE + 2 * Z.of_nat (length ts) →
  Z.of_nat (length ts) + Z.of_nat (length s) < 2 ^ 59 →
  ∃ toks w',
    io_split_by_delim_loop fuel (Some s) [newline] tokens capacity (Z.of_nat (length ts)) w
    = Returns (match s with [] => tokens | _ => Some (ts ++ toks) end,
               Z.of_nat (length ts) + Z.of_nat (length toks)) w' ∧
    Forall (λ t, newline ∉ t) toks ∧ unlines toks = terminated s ∧
    heap_only w w' ∧ Forall (λ b, b = true) (heap w').
Proof.
  induction fuel as [|fuel IH]; intros s tokens ts capacity w Hfuel Hs Hh Htok Hcap Hlen;
    [lia|].
  destruct s as [|ch s].
  { exists [], w. cbn. rewrite Z.add_0_r. split_and!; try done. apply heap_only_refl. }
  apply nul_free_cons in Hs as [Hch Hs].
  cbn [length] in Hfuel, Hlen. rewrite Nat2Z.inj_succ in Hlen.
  pose proof (strpbrk_newline (ch :: s)) as Hsp.
  rewrite nul_free_cons in Hsp. specialize (Hsp (conj Hch Hs)).
  cbn [io_split_by_delim_loop]. rewrite Hch.
  set (next := match strpbrk (ch :: s) [newline] with
               | Some rest => Some (tail rest)
               | None => None
               end).
  set (token := match strpbrk (ch :: s) [newline] with
                | Some rest => take (length (ch :: s) - length rest) (ch :: s)
                | None => c_string (ch :: s)
                end).
  assert (Hsnoc : ∀ t, Z.of_nat (length (ts ++ [t])) = Z.of_nat (length ts) + 1).
  { intros t. rewrite length_app. cbn. lia. }
  (* the array after the growth step *)
  match goal with |- ∃ toks w', ?lhs = _ ∧ _ =>
    assert (∃ capacity' w1,
      heap_only w w1 ∧ Forall (λ b, b = true) (heap w1) ∧
      Z.of_nat (length ts) < capacity' ≤ IO_TOKEN_CHUNK_SIZE + 2 * Z.of_nat (length ts) ∧
      lhs = io_split_by_delim_loop fuel next [newline] (Some (ts ++ [token])) capacity'
              (Z.of_nat (length (ts ++ [token]))) w1)
      as (capacity' & w1 & Hho & Hh1 & Hcap' & ->)
  end.
  { assert (Hroom : ∀ c,
      Z.of_nat (length ts) < c ≤ IO_TOKEN_CHUNK_SIZE + 2 * Z.of_nat (length ts) →
      (Z.of_nat (length ts) <? size_t (POINTER_SIZE * c) / POINTER_SIZE) = true).
    { intros c Hc. apply Z.ltb_lt. unfold POINTER_SIZE. rewrite size_t_small.
      - rewrite Z.mul_comm, Z.div_mul by lia. lia.
      - unfold SIZE_WIDTH, IO_TOKEN_CHUNK_SIZE in *. lia. }
    rewrite (size_t_small (Z.of_nat (length ts) + 1)) by (unfold SIZE_WIDTH; lia).
    rewrite Hsnoc.
    destruct (Z.of_nat (length ts) >=? capacity) eqn:E.
    - rewrite Z.geb_leb in E. apply Z.leb_le in E.
      destruct (realloc_true w Hh) as (w1 & Hr & Hho & Hh1).
      assert (Hg : Z.of_nat (length ts) < GROW_CAPACITY capacity IO_TOKEN_CHUNK_SIZE
                   ≤ IO_TOKEN_CHUNK_SIZE + 2 * Z.of_nat (length ts)).
      { unfold GROW_CAPACITY, IO_TOKEN_CHUNK_SIZE in *.
        destruct (capacity <? 1024 * 2) eqn:E2; [apply Z.ltb_lt in E2; lia|].
        apply Z.ltb_ge in E2. rewrite size_t_small; [lia|]. unfold SIZE_WIDTH. lia. }
      exists (GROW_CAPACITY capacity IO_TOKEN_CHUNK_SIZE), w1.
      split; [done|]. split; [done|]. split; [exact Hg|].
      rewrite (bind_eq _ _ _ _ _ Hr). rewrite (Hroom _ Hg).
      by destruct Htok as [->|(-> & -> & _)].
    - rewrite Z.geb_leb in E. apply Z.leb_gt in E.
      exists capacity, w.
      split; [apply heap_only_refl|]. split; [done|]. split; [lia|].
      rewrite (Hroom capacity) by lia.
      destruct Htok as [->|(_ & _ & ->)]; [done|]. lia. }
  unfold next, token. clear next token.
  destruct (strpbrk (ch :: s) [newline]) as [rest|] eqn:Esp.
  - destruct Hsp as (tok & r & Heq & -> & Hn).
    assert (Htake : take (length (ch :: s) - length (newline :: r)) (ch :: s) = tok).
    { rewrite Heq, length_app. cbn [length].
      replace (length tok + S (length r) - S (length r))%nat with (length tok) by lia.
      by rewrite take_app_length. }
    rewrite Htake. cbn [tail].
    assert (Hr : nul_free r = true).
    { assert (Hall : nul_free (ch :: s) = true) by (by apply nul_free_cons).
      rewrite Heq in Hall. unfold nul_free in Hall. rewrite forallb_app in Hall.
      apply andb_true_iff in Hall as [_ Hall]. cbn [forallb] in Hall.
      by apply andb_true_iff in Hall as [_ ?]. }
    assert (Hlr : (length r < length (ch :: s))%nat).
    { rewrite Heq, length_app. cbn [length]. lia. }
    cbn [length] in Hlr.
    destruct (IH r (Some (ts ++ [tok])) (ts ++ [tok]) capacity' w1)
      as (toks & w2 & Hloop & Hno & Hun & Hho2 & Hh2); try done.
    + lia.
    + by left.
    + rewrite Hsnoc. lia.
    + rewrite Hsnoc. lia.
    + rewrite Hloop. exists (tok :: toks), w2. split_and!.
      * f_equal. f_equal.
        -- destruct r; [|by rewrite <- app_assoc].
           destruct toks as [|t toks]; [done|].
           cbn in Hun. by destruct t.
        -- rewrite Hsnoc. cbn [length]. lia.
      * by constructor.
      * unfold unlines in *. cbn [fmap list_fmap concat]. rewrite Hun, Heq.
        destruct r as [|c r].
        -- change (terminated []) with (@nil ascii). rewrite app_nil_r.
           by rewrite terminated_snoc.
        -- rewrite terminated_app by done. by rewrite <- app_assoc.
      * by eapply heap_only_trans.
      * done.
  - rewrite c_string_nul_free by (by apply nul_free_cons).
    destruct fuel as [|fuel]; [lia|]. cbn [io_split_by_delim_loop].
    exists [ch :: s], w1. split_and!; try done.
    + unfold ret. f_equal. f_equal. rewrite Hsnoc. cbn. lia.
    + by constructor.
    + unfold unlines. cbn [fmap list_fmap concat]. rewrite app_nil_r.
      by rewrite terminated_no_newline.
Qed.

(** X11: [io_split_lines] on a buffer without NUL bytes, when no allocation
    fails: for the empty buffer it returns [NULL] with no token; otherwise
    it returns the array of the lines, none of which holds a newline, and
    writing the lines back one per line gives the text again (with the final
    newline the text may lack): no byte is lost or invented, and an empty
    line is a token like any other. *)
Theorem io_split_lines_unlines (fuel : nat) (s : list ascii) (w : World) :
  (length s < fuel)%nat → nul_free s = true → forallb id (heap w) = true →
  Z.of_nat (length s) < 2 ^ 59 →
  ∃ w', heap_only w w' ∧
    match s with
    | [] => io_split_lines fuel (Some s) w = Returns (None, 0) w'
    | _ => ∃ tokens,
        io_split_lines fuel (Some s) w = Returns (Some tokens, Z.of_nat (length tokens)) w' ∧
        Forall (λ t, newline ∉ t) tokens ∧ unlines tokens = terminated s
    end.
Proof.
  intros Hfuel Hs Hh%forallb_id_true Hlen.
  assert (Hcap : Z.of_nat (length (@nil (list ascii))) ≤ 0
                 ≤ IO_TOKEN_CHUNK_SIZE + 2 * Z.of_nat (length (@nil (list ascii))))
    by (cbn; unfold IO_TOKEN_CHUNK_SIZE; lia).
  assert (Hlen' : Z.of_nat (length (@nil (list ascii))) + Z.of_nat (length s) < 2 ^ 59)
    by (cbn [length]; lia).
  destruct (io_split_loop_lines fuel s None [] 0 w Hfuel Hs Hh
              (or_intror (conj eq_refl (conj eq_refl eq_refl))) Hcap Hlen')
    as (toks & w' & Hloop & Hno & Hun & Hho & _).
  exists w'. split; [done|]. unfold io_split_lines, io_split_by_delim.
  cbn [length] in Hloop. change (Z.of_nat 0) with 0 in Hloop. rewrite Hloop.
  destruct s as [|ch s].
  - f_equal. f_equal. destruct toks as [|t toks]; [done|].
    change (terminated []) with (@nil ascii) in Hun. cbn in Hun. by destruct t.
  - exists toks. by split_and!.
Qed.

Lemma io_split_lines_unlines_witness :
  ∃ w', heap_only (initial_world []) w' ∧
    ∃ tokens,
      io_split_lines 9 (Some (word "cat" ++ newline :: newline :: word "car"))
                     (initial_world [])
      = Returns (Some tokens, Z.of_nat (length tokens)) w' ∧
      Forall (λ t, newline ∉ t) tokens ∧
      unlines tokens = terminated (word "cat" ++ newline :: newline :: word "car").
Proof.
  refine (io_split_lines_unlines 9 (word "cat" ++ newline :: newline :: word "car")
            (initial_world []) _ _ _ _).
  - vm_compute. lia.
  - vm_compute. reflexivity.
  - vm_compute. reflexivity.
  - vm_compute. reflexivity.
Defined.

Example io_split_lines_demo :
  io_split_lines 9 (Some (word "cat" ++ newline :: newline :: word "car")) (initial_world [])
  = Returns (Some [word "cat"; []; word "car"], 3) (initial_world []).
Proof. vm_compute. reflexivity. Qed.

(** A [NULL] buffer is outside the contract of the function. *)
Example io_split_lines_null (fuel : nat) (w : World) : io_split_lines fuel None w = Undefined.
Proof. reflexivity. Qed.

(** ** The options *)

Lemma int32_Returns z w v w' : int32 z w = Returns v w' → v = z ∧ w' = w.
Proof. unfold int32. destruct (in_int32 z); [|done]. by intros [= <- <-]. Qed.

Lemma fputs_stderr_Returns msg w v w' :
  fputs_stderr msg w = Returns v w' → w' = set_stderr (stderr w ++ [msg]) w.
Proof. by intros [= <-]. Qed.

Lemma usage_err_not_Returns {A} prog w (v : A) w' : usage_err prog w ≠ Returns v w'.
Proof. done. Qed.

Lemma parse_options_loop_inv argv0 results : ∀ err_flag opt prefix w opt' prefix' w',
  options_inv err_flag opt prefix →
  parse_options_loop argv0 results err_flag opt prefix w = Returns (opt', prefix') w' →
  w' = w ∧ options_inv 0 opt' prefix'.
Proof.
  induction results as [|c results IH]; intros err opt prefix w opt' prefix' w' HI Hp.
  - cbn [parse_options_loop] in Hp. destruct (err =? 0) eqn:E; cbn [negb] in Hp.
    + apply Z.eqb_eq in E. subst err. by injection Hp as <- <- <-.
    + apply bind_Returns in Hp as (? & ? & _ & Hp).
      apply bind_Returns in Hp as (? & ? & _ & Hp). done.
  - destruct HI as (Hh & Hcs & Hs & Hc & Hpf).
    destruct c as [| | |optarg|optarg|]; cbn [parse_options_loop] in Hp.
    + (* -k *)
      apply bind_Returns in Hp as (e & w1 & [-> ->]%int32_Returns & Hp).
      apply IH in Hp; [done|]. unfold options_inv. cbn [kflag hflag sflag cflag pflag].
      split_and!; try done. intros Hsf. specialize (Hs Hsf). lia.
    + (* -h *)
      by apply bind_Returns in Hp as (? & ? & _ & Hp).
    + (* -s *)
      apply bind_Returns in Hp as ([] & w1 & Hc1 & Hp).
      destruct (cflag opt) eqn:Ecf.
      { by apply bind_Returns in Hc1 as (? & ? & _ & Hc1). }
      injection Hc1 as <-.
      apply bind_Returns in Hp as (e1 & w1 & H1 & Hp).
      apply bind_Returns in Hp as (e2 & w2 & H2 & Hp).
      assert (w1 = w) as ->.
      { destruct (pflag opt); [by apply int32_Returns in H1 as [_ ->]|by injection H1]. }
      assert (w2 = w) as ->.
      { destruct (kflag opt); [by apply int32_Returns in H2 as [_ ->]|by injection H2]. }
      apply IH in Hp; [done|]. unfold options_inv. cbn [kflag hflag sflag cflag pflag].
      split_and!; try done.
    + (* -c *)
      apply bind_Returns in Hp as ([] & w1 & Hc1 & Hp).
      destruct (sflag opt) eqn:Esf.
      { by apply bind_Returns in Hc1 as (? & ? & _ & Hc1). }
      injection Hc1 as <-.
      destruct (strlen optarg >=? AC_BUFFER_CAP) eqn:El.
      { by apply bind_Returns in Hp as (? & ? & _ & Hp). }
      rewrite Z.geb_leb in El. apply Z.leb_gt in El.
      apply IH in Hp; [done|]. unfold options_inv. cbn [kflag hflag sflag cflag pflag].
      split_and!; try done; [by intros; exists optarg|by intros; exists optarg].
    + (* -p *)
      apply IH in Hp; [done|]. unfold options_inv. cbn [kflag hflag sflag cflag pflag].
      split_and!; try done; [|by intros; exists optarg].
      intros Hsf. rewrite Hsf. cbn [negb]. lia.
    + by apply bind_Returns in Hp as (? & ? & _ & Hp).
Qed.

Lemma parse_options_flags argv0 results w opt prefix w' :
  parse_options argv0 results no_flags None w = Returns (opt, prefix) w' →
  w' = w ∧ (cflag opt = true → sflag opt = false ∧ kflag opt = false).
Proof.
  intros Hp. apply parse_options_loop_inv in Hp as [-> (_ & Hcs & Hs & _)].
  - split; [done|]. intros Hcf. specialize (Hcs Hcf). split; [done|].
    destruct (Hs Hcs) as [_ Hkp]. destruct (kflag opt); [|done].
    assert (1 ≤ 0) by (apply Hkp; by left). lia.
  - unfold options_inv, no_flags. cbn. split_and!; try done; intros; lia.
Qed.

(** X12: what [parse_options] guarantees when it returns (rather than
    exits), from the state [main] starts it in.  Nothing has been written;
    [-c] and [-s] are not both set; [-k] and [-p] are set only with [-s];
    and when [-c] is set, the prefix is present and shorter than
    [AC_BUFFER_CAP], and neither [-k] nor [-p] is set. *)
Theorem parse_options_accepted (argv0 : string) (results : list getopt_result)
    (w : World) (opt : flags) (prefix : option (list ascii)) (w' : World) :
  parse_options argv0 results no_flags None w = Returns (opt, prefix) w' →
  w' = w ∧ hflag opt = false ∧
  (cflag opt = true → sflag opt = false ∧ kflag opt = false ∧ pflag opt = false ∧
                      ∃ p, prefix = Some p ∧ strlen p < AC_BUFFER_CAP) ∧
  (kflag opt = true ∨ pflag opt = true → sflag opt = true) ∧
  (pflag opt = true → ∃ p, prefix = Some p).
Proof.
  intros Hp. apply parse_options_loop_inv in Hp as [-> (Hh & Hcs & Hs & Hc & Hpf)].
  - split_and!; try done.
    + intros Hcf. specialize (Hcs Hcf). destruct (Hs Hcs) as [_ Hkp].
      assert (kflag opt = false ∧ pflag opt = false) as [Hk Hpp].
      { destruct (kflag opt), (pflag opt); try done; lia. }
      split_and!; try done. by apply Hc.
    + intros Hkp. destruct (sflag opt); [done|].
      destruct (Hs eq_refl) as [_ H1]. specialize (H1 Hkp). lia.
  - unfold options_inv, no_flags. cbn. split_and!; try done; intros; lia.
Qed.

Lemma parse_options_accepted_witness :
  initial_world [] = initial_world [] ∧ hflag (mkFlags false false false true false) = false ∧
  (cflag (mkFlags false false false true false) = true →
     sflag (mkFlags false false false true false) = false ∧
     kflag (mkFlags false false false true false) = false ∧
     pflag (mkFlags false false false true false) = false ∧
     ∃ p, Some (word "ca") = Some p ∧ strlen p < AC_BUFFER_CAP) ∧
  (kflag (mkFlags false false false true false) = true ∨
   pflag (mkFlags false false false true false) = true →
   sflag (mkFlags false false false true false) = true) ∧
  (pflag (mkFlags false false false true false) = true → ∃ p, Some (word "ca") = Some p).
Proof.
  refine (parse_options_accepted "auto-complete" [Opt_c (word "ca")] (initial_world [])
            (mkFlags false false false true false) (Some (word "ca")) (initial_world []) _).
  vm_compute. reflexivity.
Defined.

Lemma parse_options_loop_flags argv0 results : ∀ err_flag opt prefix w opt' prefix' w',
  parse_options_loop argv0 results err_flag opt prefix w = Returns (opt', prefix') w' →
  kflag opt' = kflag opt || existsb opt_is_k results ∧
  sflag opt' = sflag opt || existsb opt_is_s results ∧
  cflag opt' = cflag opt || existsb opt_is_c results ∧
  pflag opt' = pflag opt || existsb opt_is_p results ∧
  existsb opt_is_refused results = false ∧
  prefix' = last_optarg prefix results.
Proof.
  induction results as [|c results IH]; intros err opt prefix w opt' prefix' w' Hp.
  - cbn [parse_options_loop] in Hp. destruct (err =? 0); cbn [negb] in Hp.
    + injection Hp as <- <- <-. cbn [existsb]. by rewrite !orb_false_r.
    + apply bind_Returns in Hp as (? & ? & _ & Hp).
      apply bind_Returns in Hp as (? & ? & _ & Hp). done.
  - destruct c as [| | |optarg|optarg|]; cbn [parse_options_loop] in Hp.
    + apply bind_Returns in Hp as (e & w1 & _ & Hp).
      apply IH in Hp as (-> & -> & -> & -> & Hr & ->).
      cbn [kflag hflag sflag cflag pflag existsb opt_is_k opt_is_s opt_is_c opt_is_p
           opt_is_refused orb].
      by rewrite orb_true_r.
    + by apply bind_Returns in Hp as (? & ? & _ & Hp).
    + apply bind_Returns in Hp as ([] & w1 & _ & Hp).
      apply bind_Returns in Hp as (e1 & w2 & _ & Hp).
      apply bind_Returns in Hp as (e2 & w3 & _ & Hp).
      apply IH in Hp as (-> & -> & -> & -> & Hr & ->).
      cbn [kflag hflag sflag cflag pflag existsb opt_is_k opt_is_s opt_is_c opt_is_p
           opt_is_refused orb].
      by rewrite orb_true_r.
    + apply bind_Returns in Hp as ([] & w1 & _ & Hp).
      destruct (strlen optarg >=? AC_BUFFER_CAP) eqn:El.
      { by apply bind_Returns in Hp as (? & ? & _ & Hp). }
      apply IH in Hp as (-> & -> & -> & -> & Hr & ->).
      cbn [kflag hflag sflag cflag pflag existsb opt_is_k opt_is_s opt_is_c opt_is_p
           opt_is_refused orb].
      by rewrite El, orb_true_r.
    + apply IH in Hp as (-> & -> & -> & -> & Hr & ->).
      cbn [kflag hflag sflag cflag pflag existsb opt_is_k opt_is_s opt_is_c opt_is_p
           opt_is_refused orb].
      by rewrite orb_true_r.
    + by apply bind_Returns in Hp as (? & ? & _ & Hp).
Qed.

Lemma existsb_elem_of (p : getopt_result → bool) results :
  existsb p results = true ↔ ∃ r, r ∈ results ∧ p r = true.
Proof.
  rewrite existsb_exists. split; intros (r & Hr & Hp); exists r; (split; [|done]);
    by apply list_elem_of_In.
Qed.

Lemma existsb_none (p : getopt_result → bool) results r :
  existsb p results = false → r ∈ results → p r = false.
Proof.
  intros He Hr. destruct (p r) eqn:E; [|done].
  assert (existsb p results = true) by (apply existsb_elem_of; by exists r). congruence.
Qed.

(** X22: when [parse_options] returns, the flags say which options were
    given: [-k], [-s], [-c], [-p] are set exactly when the option occurs on
    the command line, neither [-h] nor an unknown option occurs, every
    argument of [-c] is shorter than [AC_BUFFER_CAP], and the prefix is the
    argument of the last [-c] or [-p] ([NULL] when there is none). *)
Theorem parse_options_flags_reflect (argv0 : string) (results : list getopt_result)
    (w : World) (opt : flags) (prefix : option (list ascii)) (w' : World) :
  parse_options argv0 results no_flags None w = Returns (opt, prefix) w' →
  (kflag opt = true ↔ Opt_k ∈ results) ∧
  (sflag opt = true ↔ Opt_s ∈ results) ∧
  (cflag opt = true ↔ ∃ a, Opt_c a ∈ results) ∧
  (pflag opt = true ↔ ∃ a, Opt_p a ∈ results) ∧
  (Opt_h ∉ results) ∧ (Opt_unknown ∉ results) ∧
  (∀ a, Opt_c a ∈ results → strlen a < AC_BUFFER_CAP) ∧
  prefix = last_optarg None results.
Proof.
  intros Hp. apply parse_options_loop_flags in Hp as (Hk & Hs & Hc & Hpf & Hr & ->).
  cbn [no_flags kflag sflag cflag pflag orb] in *.
  split_and!; try done.
  - rewrite Hk, existsb_elem_of. split.
    + by intros ([] & Hin & ?).
    + intros Hin. by exists Opt_k.
  - rewrite Hs, existsb_elem_of. split.
    + by intros ([] & Hin & ?).
    + intros Hin. by exists Opt_s.
  - rewrite Hc, existsb_elem_of. split.
    + intros ([| | |a|a|] & Hin & ?); try done. by exists a.
    + intros [a Hin]. by exists (Opt_c a).
  - rewrite Hpf, existsb_elem_of. split.
    + intros ([| | |a|a|] & Hin & ?); try done. by exists a.
    + intros [a Hin]. by exists (Opt_p a).
  - intros Hin. by apply (existsb_none _ _ _ Hr) in Hin.
  - intros Hin. by apply (existsb_none _ _ _ Hr) in Hin.
  - intros a Hin. apply (existsb_none _ _ _ Hr) in Hin. cbn in Hin.
    rewrite Z.geb_leb in Hin. by apply Z.leb_gt in Hin.
Qed.

Lemma parse_options_flags_reflect_witness :
  (kflag (mkFlags true false true false true) = true ↔ Opt_k ∈ [Opt_k; Opt_p (word "ca"); Opt_k; Opt_s]) ∧
  (sflag (mkFlags true false true false true) = true ↔ Opt_s ∈ [Opt_k; Opt_p (word "ca"); Opt_k; Opt_s]) ∧
  (cflag (mkFlags true false true false true) = true
   ↔ ∃ a, Opt_c a ∈ [Opt_k; Opt_p (word "ca"); Opt_k; Opt_s]) ∧
  (pflag (mkFlags true false true false true) = true
   ↔ ∃ a, Opt_p a ∈ [Opt_k; Opt_p (word "ca"); Opt_k; Opt_s]) ∧
  (Opt_h ∉ [Opt_k; Opt_p (word "ca"); Opt_k; Opt_s]) ∧
  (Opt_unknown ∉ [Opt_k; Opt_p (word "ca"); Opt_k; Opt_s]) ∧
  (∀ a, Opt_c a ∈ [Opt_k; Opt_p (word "ca"); Opt_k; Opt_s] → strlen a < AC_BUFFER_CAP) ∧
  Some (word "ca") = last_optarg None [Opt_k; Opt_p (word "ca"); Opt_k; Opt_s].
Proof.
  refine (parse_options_flags_reflect "auto-complete" [Opt_k; Opt_p (word "ca"); Opt_k; Opt_s]
            (initial_world []) (mkFlags true false true false true) (Some (word "ca"))
            (initial_world []) _).
  vm_compute. reflexivity.
Defined.

(** The order of the options matters: [-k] after [-s] is refused.  The
    argument of [-p] is not measured. *)
Example parse_options_k_after_s :
  ∃ w', parse_options "auto-complete" [Opt_s; Opt_k] no_flags None (initial_world [])
        = Exits EXIT_FAILURE w'.
Proof. eexists. vm_compute. reflexivity. Qed.

Example parse_options_any_p (optarg : list ascii) (w : World) :
  parse_options "auto-complete" [Opt_s; Opt_p optarg] no_flags None w
  = Returns (mkFlags false false true false true, Some optarg) w.
Proof. reflexivity. Qed.

Example parse_options_k_before_s :
  parse_options "auto-complete" [Opt_k; Opt_s] no_flags None (initial_world [])
  = Returns (mkFlags true false true false false, None) (initial_world []).
Proof. vm_compute. reflexivity. Qed.

(** ** Reading the input *)

Lemma io_read_file_loop_all fuel : ∀ content rest e w,
  (length rest < fuel)%nat → Forall (λ b, b = true) (heap w) →
  Z.of_nat (length content) + Z.of_nat (length rest) < 2 ^ 62 →
  ∃ w' st,
    io_read_file_loop fuel content (Z.of_nat (length content)) (Z.of_nat (length content))
                      (mkStream rest e false) w
    = Returns (if e then (None, 0, st)
               else (Some (content ++ rest), Z.of_nat (length (content ++ rest)),
                     mkStream [] false true)) w' ∧
    heap_only w w' ∧ Forall (λ b, b = true) (heap w').
Proof.
  induction fuel as [|fuel IH]; intros content rest e w Hfuel Hh Hlen; [lia|].
  cbn [io_read_file_loop].
  destruct (realloc_true w Hh) as (w1 & Hr & Hho & Hh1).
  rewrite (bind_eq _ _ _ _ _ Hr).
  set (len := Z.of_nat (length content)) in *.
  set (cap := GROW_CAPACITY len IO_CHUNK_SIZE).
  assert (Hcap : len < cap ≤ IO_CHUNK_SIZE + 2 * len).
  { unfold cap, GROW_CAPACITY, IO_CHUNK_SIZE.
    destruct (len <? 1024 * 64) eqn:E; [apply Z.ltb_lt in E; lia|].
    apply Z.ltb_ge in E. rewrite size_t_small; [lia|]. unfold SIZE_WIDTH. lia. }
  assert (H62 : (2 ^ 62 : Z) = 4611686018427387904) by reflexivity.
  assert (H64 : (2 ^ SIZE_WIDTH : Z) = 18446744073709551616) by reflexivity.
  unfold IO_CHUNK_SIZE in Hcap.
  rewrite (size_t_small (cap - len)) by lia.
  rewrite (size_t_small (cap + 1)) by lia.
  unfold fread. cbn [fst snd unread ends_in_error feof].
  rewrite length_take.
  destruct (decide (Z.of_nat (length rest) < cap - len)) as [Hshort|Hfull].
  - (* the bytes end in this chunk *)
    assert (Hmin : (Z.to_nat (cap - len) `min` length rest)%nat = length rest) by lia.
    rewrite Hmin.
    replace (cap + 1 <? len + Z.of_nat (length rest)) with false
      by (symmetry; apply Z.ltb_ge; lia).
    replace (Z.of_nat (length rest) <? cap - len) with true by (symmetry; by apply Z.ltb_lt).
    rewrite take_ge by lia. rewrite drop_ge by lia. cbn [orb andb].
    destruct e; cbn [negb].
    + exists w1. eexists. by split_and!.
    + exists w1, (mkStream [] false true). split_and!; try done.
      unfold ret. do 3 f_equal. rewrite length_app, size_t_small; lia.
  - (* a full chunk: the loop goes on *)
    assert (Hmin : (Z.to_nat (cap - len) `min` length rest)%nat = Z.to_nat (cap - len)) by lia.
    rewrite Hmin. rewrite Z2Nat.id by lia.
    replace (cap + 1 <? len + (cap - len)) with false by (symmetry; apply Z.ltb_ge; lia).
    rewrite Z.ltb_irrefl.
    replace (0 <? cap - len) with true by (symmetry; apply Z.ltb_lt; lia).
    replace (Z.of_nat (length rest) <? cap - len) with false by (symmetry; apply Z.ltb_ge; lia).
    cbn [orb andb].
    rewrite (size_t_small (len + (cap - len))) by lia.
    replace (len + (cap - len)) with cap by lia.
    set (got := take (Z.to_nat (cap - len)) rest).
    set (rest' := drop (Z.to_nat (cap - len)) rest).
    assert (Hgot : Z.of_nat (length (content ++ got)) = cap).
    { unfold got. rewrite length_app, length_take. fold len. lia. }
    assert (Hrest : (length rest' < length rest)%nat).
    { unfold rest'. rewrite length_drop. lia. }
    rewrite <- Hgot.
    destruct (IH (content ++ got) rest' e w1) as (w' & st & Hloop & Hho' & Hh'); try done.
    + lia.
    + unfold got, rest'. rewrite length_app, length_take, length_drop. fold len. lia.
    + exists w', st. rewrite Hloop. split_and!; try done; [|by eapply heap_only_trans].
      unfold got, rest'. by rewrite <- app_assoc, take_drop.
Qed.

(** X13: [io_read_file] on a stream that delivers the bytes [bytes] and then
    the end of the file, when no allocation fails, returns a buffer that
    holds exactly [bytes], with their number in [*nbytes] and the stream at
    its end; when the bytes end in a read error it returns [NULL]. *)
Theorem io_read_file_all (fuel : nat) (bytes : list ascii) (e : bool) (w : World) :
  (length bytes < fuel)%nat → forallb id (heap w) = true →
  Z.of_nat (length bytes) < 2 ^ 62 →
  ∃ w' st, heap_only w w' ∧
    io_read_file fuel (mkStream bytes e false) w
    = Returns (if e then (None, 0, st)
               else (Some bytes, Z.of_nat (length bytes), mkStream [] false true)) w'.
Proof.
  intros Hfuel Hh%forallb_id_true Hlen.
  destruct (io_read_file_loop_all fuel [] bytes e w Hfuel Hh) as (w' & st & Hloop & Hho & _).
  { cbn [length]. lia. }
  exists w', st. split; [done|]. unfold io_read_file. exact Hloop.
Qed.

Lemma io_read_file_all_witness :
  ∃ w' (st : Stream), heap_only (initial_world []) w' ∧
    io_read_file 8 (mkStream (word "cat") false false) (initial_world [])
    = Returns (Some (word "cat"), Z.of_nat (length (word "cat")), mkStream [] false true) w'.
Proof.
  refine (io_read_file_all 8 (word "cat") false (initial_world []) _ _ _).
  - vm_compute. lia.
  - vm_compute. reflexivity.
  - vm_compute. reflexivity.
Defined.

(** ** The traversals are quiet *)

Lemma quiet_bind {A B} (m : M A) (k : A → M B) :
  quiet m → (∀ a, quiet (k a)) → quiet (bind m k).
Proof.
  intros Hm Hk w w' [[st H]|(a & w1 & H & Hf)]%final_bind.
  - apply Hm. by rewrite H.
  - destruct (Hk a w1 w' Hf) as [-> ->]. apply Hm. by rewrite H.
Qed.

Lemma quiet_ret {A} (v : A) : quiet (ret v).
Proof. by intros w w' [= <-]. Qed.

Lemma quiet_undefined {A} : quiet (@undefined A).
Proof. intros w w'. discriminate. Qed.

Lemma quiet_load_node i : quiet (load_node i).
Proof. intros w w'. unfold load_node. destruct (_ !! _); simpl; [by intros [= <-]|done]. Qed.

Lemma quiet_load_child i k : quiet (load_child i k).
Proof.
  apply quiet_bind; [apply quiet_load_node|]. intros n.
  destruct (_ && _); [|apply quiet_undefined].
  destruct (_ !! _); [apply quiet_ret|apply quiet_undefined].
Qed.

Lemma quiet_push ch : quiet (ac_buffer_push ch).
Proof. intros w w'. unfold ac_buffer_push. destruct (_ && _); simpl; [by intros [= <-]|done]. Qed.

Lemma quiet_pop : quiet ac_buffer_pop.
Proof. intros w w'. unfold ac_buffer_pop. destruct (_ >? _); simpl; by intros [= <-]. Qed.

Lemma quiet_write_line : quiet write_buffer_line.
Proof. by intros w w' [= <-]. Qed.

Lemma quiet_fprintf s : quiet (fprintf_sink s).
Proof. by intros w w' [= <-]. Qed.

Lemma quiet_for_loop n body : (∀ i, quiet (body i)) → ∀ i, quiet (for_loop n i body).
Proof.
  intros Hb. induction n as [|n IH]; intros i; unfold for_loop; fold for_loop.
  - apply quiet_ret.
  - apply quiet_bind; [apply Hb|]. intros _. apply IH.
Qed.

Create HintDb quiet.
#[local] Hint Resolve quiet_ret quiet_undefined quiet_load_node quiet_load_child quiet_push
  quiet_pop quiet_write_line quiet_fprintf : quiet.

Ltac quiet_step :=
  first [ apply quiet_for_loop; intros ?
        | apply quiet_bind; [|intros ?]
        | solve [auto with quiet]
        | match goal with |- quiet (if ?b then _ else _) => destruct b end
        | match goal with |- quiet (match ?o with _ => _ end) => destruct o end ].

Lemma quiet_find_prefix prefix : ∀ root_idx, quiet (find_prefix root_idx prefix).
Proof.
  induction prefix as [|ch prefix IH]; intros root_idx; simpl; [auto with quiet|].
  destruct (is_nul ch); [auto with quiet|]. repeat quiet_step.
Qed.

Lemma quiet_print_suggestions fuel : ∀ root_idx, quiet (print_suggestions fuel root_idx).
Proof.
  induction fuel as [|fuel IH]; intros root_idx; simpl; [by intros w w'|].
  repeat quiet_step.
Qed.

Lemma quiet_dump_edge a b c : quiet (dump_edge a b c).
Proof. unfold dump_edge. repeat quiet_step. Qed.

Lemma quiet_dump_dot_prefix fuel : ∀ root_idx, quiet (dump_dot_prefix fuel root_idx).
Proof.
  induction fuel as [|fuel IH]; intros root_idx; simpl; [by intros w w'|].
  repeat quiet_step.
Qed.

Lemma quiet_dump_dot_whole : quiet dump_dot_whole.
Proof.
  unfold dump_dot_whole. apply quiet_bind; [by intros w w' [= <-]|intros T].
  repeat quiet_step.
Qed.

(** ** Completion, from the arguments *)

(** The [--complete] run of [process_args] on a trie that represents
    [lines]. *)
Lemma process_args_complete_inv name (lines : list (list ascii)) (w : World)
    (P : list ascii) (fuel : nat) (env : Host) (options : flags) (out_file : string) :
  trie_inv (Trie w) name → marks (Trie w) name lines → present (Trie w) name lines →
  covered (Trie w) name lines → shallow (Trie w) name →
  Forall (Forall printable) lines → buffer_ok w → ac_buffer_sz w = 0 → buffer_text w = [] →
  Forall printable P → count (Trie w) ≤ Z.of_nat fuel →
  cflag options = true → sflag options = false →
  ∃ rv w',
    process_args fuel env 0 options (Some P) out_file w
    = Returns (rv, if negb (kflag options) then [Remove out_file] else []) w' ∧
    Trie w' = Trie w ∧ sink w' = sink w ∧
    (rv = true ↔ P = [] ∨ ∃ l, l ∈ lines ∧ P `prefix_of` l) ∧
    if rv then
      stderr w' = stderr w ∧
      ∃ out, stdout w' = stdout w ++ unlines out ∧ StronglySorted bytes_lt out ∧
             ∀ x, x ∈ out ↔ x ∈ lines ∧ P `prefix_of` x
    else stdout w' = stdout w ∧ stderr w' = stderr w ++ ["Error: Unable to find prefix."%string].
Proof.
  intros HI Hm Hp Hcov Hsh Hpr Hok Hsz Htxt HP Hfuel Hcf Hsf.
  pose proof (walk_iff_prefix _ name lines P HI Hp Hcov Hpr HP) as Hiff.
  assert (H0 : 0 ≤ 0 < count (Trie w)) by (pose proof (inv_count _ _ HI); lia).
  assert (Hroom : ∀ u j, walk (Trie w) 0 (offsets u) = Some j →
            ac_buffer_sz w + Z.of_nat (length u) ≤ AC_BUFFER_CAP).
  { intros u j Hw. destruct (walk_name _ _ _ _ _ HI H0 Hw) as [Hj Hn].
    pose proof (Hsh j Hj) as Hd. rewrite Hn, (inv_root _ _ HI) in Hd.
    cbn [app] in Hd. unfold offsets in Hd. rewrite length_fmap in Hd. lia. }
  unfold process_args. rewrite Hcf, Hsf. cbn [find_prefix_at].
  destruct (walk (Trie w) 0 (offsets P)) as [idx|] eqn:Hw.
  - destruct (find_prefix_found w 0 P idx Hw Hok (Hroom P idx Hw)) as (w1 & Hfp & Hpush).
    destruct (complete_represents w name P idx w1 fuel HI Hsh Hw Hpush Hok Hsz Hfuel)
      as (w2 & Hps & He).
    rewrite Htxt in He. cbn [app] in He.
    destruct He as (HT2 & _ & _ & _ & Ho2 & Hk2).
    destruct Hpush as (HT1 & _ & _ & _ & Ho1 & Hk1 & He1 & _).
    destruct (quiet_print_suggestions fuel idx w1 w2 (final_Returns _ _ _ _ Hps)) as [He2 _].
    destruct (walk_name _ _ _ _ _ HI H0 Hw) as [Hidx _].
    exists true, w2. rewrite (bind_eq _ _ _ _ _ Hfp).
    replace (idx =? INVALID_OFFSET) with false
      by (symmetry; apply Z.eqb_neq; unfold INVALID_OFFSET; lia).
    rewrite (bind_eq _ _ _ _ _ Hps). split_and!.
    + unfold ret. by destruct (kflag options).
    + by rewrite HT2.
    + by rewrite Hk2, app_nil_r.
    + split; [intros _; by apply Hiff|done].
    + by rewrite He2.
    + exists (emitted (Trie w) P (dfs fuel (Trie w) idx)). split_and!.
      * by rewrite Ho2, Ho1.
      * apply emitted_sorted.
      * intros x. by apply (emitted_exact _ name).
  - destruct (walk_None_split _ _ P 0 HI H0 HP Hw) as (u & ch & rest & j & -> & Hwu & Hfree).
    destruct (find_prefix_missing w 0 u ch rest j Hwu Hfree Hok (Hroom u j Hwu))
      as (w1 & Hfp & HT1 & _ & _ & _ & Ho1 & Hk1 & He1 & _).
    exists false. eexists. rewrite (bind_eq _ _ _ _ _ Hfp). rewrite Z.eqb_refl.
    unfold bind, fputs_stderr, ret. split_and!.
    + by destruct (kflag options).
    + done.
    + done.
    + split; [done|]. intros H%Hiff. by destruct H.
    + exact Ho1.
    + cbn [stderr set_stderr]. by rewrite He1.
Qed.


(** X14: the [--complete] run of [process_args] on the trie built from
    [lines].  It returns [true] exactly when the prefix is empty or starts
    one of the lines, and then stdout has received the lines that start
    with the prefix, each once, in byte order; otherwise it returns [false]
    after the diagnostic, with nothing on stdout.  Either way the Trie and
    the DOT sink are untouched, and the only call to the host is the
    removal of the DOT file, which is made unless [-k] is set. *)
Theorem process_args_complete (h : list bool) (lines : list (list ascii)) (w : World)
    (P : list ascii) (fuel : nat) (env : Host) (options : flags) (out_file : string) :
  alphabet_lines lines = true → lines_fit lines = true →
  build lines (initial_world h) = Returns true w →
  forallb printableb P = true → count (Trie w) ≤ Z.of_nat fuel →
  cflag options = true → sflag options = false →
  ∃ rv w',
    process_args fuel env 0 options (Some P) out_file w
    = Returns (rv, if negb (kflag options) then [Remove out_file] else []) w' ∧
    Trie w' = Trie w ∧ sink w' = sink w ∧
    (rv = true ↔ P = [] ∨ ∃ l, l ∈ lines ∧ P `prefix_of` l) ∧
    if rv then
      stderr w' = stderr w ∧
      ∃ out, stdout w' = stdout w ++ unlines out ∧ StronglySorted bytes_lt out ∧
             ∀ x, x ∈ out ↔ x ∈ lines ∧ P `prefix_of` x
    else stdout w' = stdout w ∧ stderr w' = stderr w ++ ["Error: Unable to find prefix."%string].
Proof.
  intros Hal Hfit Hb HP%Forall_printableb Hfuel Hcf Hsf.
  destruct (build_facts h lines w Hal Hb)
    as (Hpr & Hok & Hsz & Htxt & name & HI & Hm & Hp & Hcov).
  pose proof (covered_shallow _ _ _ HI Hcov Hfit) as Hsh.
  by apply (process_args_complete_inv name).
Qed.

Lemma process_args_complete_witness :
  ∃ rv w',
    process_args 9 (mkHost true true 0 (λ _, None) (mkStream [] false false)) 0
                 (mkFlags false false false true false) (Some (word "ca")) "graph.dot"
                 demo_world
    = Returns (rv, [Remove "graph.dot"]) w' ∧
    Trie w' = Trie demo_world ∧ sink w' = sink demo_world ∧
    (rv = true ↔ word "ca" = [] ∨ ∃ l, l ∈ demo_lines ∧ word "ca" `prefix_of` l) ∧
    if rv then
      stderr w' = stderr demo_world ∧
      ∃ out, stdout w' = stdout demo_world ++ unlines out ∧ StronglySorted bytes_lt out ∧
             ∀ x, x ∈ out ↔ x ∈ demo_lines ∧ word "ca" `prefix_of` x
    else stdout w' = stdout demo_world ∧
         stderr w' = stderr demo_world ++ ["Error: Unable to find prefix."%string].
Proof.
  refine (process_args_complete [] demo_lines demo_world (word "ca") 9
            (mkHost true true 0 (λ _, None) (mkStream [] false false))
            (mkFlags false false false true false) "graph.dot" _ _ _ _ _ _ _).
  - vm_compute. reflexivity.
  - vm_compute. reflexivity.
  - vm_compute. reflexivity.
  - vm_compute. reflexivity.
  - vm_compute. discriminate.
  - reflexivity.
  - reflexivity.
Defined.

(** ** The whole program *)

Lemma printable_not_newline ch : printable ch → ch ≠ newline.
Proof. intros H ->. unfold printable in H. vm_compute in H. destruct H as [H _]. by apply H. Qed.

Lemma Forall_printable_no_newline l : Forall printable l → newline ∉ l.
Proof.
  intros H Hin. rewrite Forall_forall in H. by apply (printable_not_newline newline (H _ Hin)).
Qed.

Lemma app_newline_inj x y a b :
  newline ∉ x → newline ∉ y → x ++ newline :: a = y ++ newline :: b → x = y ∧ a = b.
Proof.
  revert y. induction x as [|c x IH]; intros [|d y] Hx Hy Heq; cbn in Heq.
  - by injection Heq.
  - injection Heq as <- _. destruct Hy. left.
  - injection Heq as -> _. destruct Hx. left.
  - injection Heq as -> Heq. rewrite not_elem_of_cons in Hx, Hy.
    destruct (IH y) as [-> ->]; tauto.
Qed.

Lemma unlines_cons l ls : unlines (l :: ls) = l ++ newline :: unlines ls.
Proof. unfold unlines. cbn [fmap list_fmap concat]. by rewrite <- app_assoc. Qed.

Lemma unlines_inj a : ∀ b,
  Forall (λ t, newline ∉ t) a → Forall (λ t, newline ∉ t) b → unlines a = unlines b → a = b.
Proof.
  induction a as [|x a IH]; intros [|y b] Ha Hb Heq; try done.
  - rewrite unlines_cons in Heq. by destruct y.
  - rewrite unlines_cons in Heq. by destruct x.
  - rewrite !unlines_cons in Heq.
    apply Forall_cons in Ha as [Hx Ha]. apply Forall_cons in Hb as [Hy Hb].
    apply app_newline_inj in Heq as [-> Heq]; [|done..]. f_equal. by apply IH.
Qed.

Lemma terminated_prefix s : ∃ t, terminated s = s ++ t.
Proof.
  unfold terminated. destruct (last s) as [ch|] eqn:E.
  - destruct (decide (ch = newline)); [exists []; by rewrite app_nil_r|by exists [newline]].
  - apply last_None in E as ->. by exists [].
Qed.

Lemma unlines_length lines :
  Z.of_nat (length (unlines lines)) = total_length lines + Z.of_nat (length lines).
Proof.
  induction lines as [|l lines IH]; [done|].
  rewrite unlines_cons, total_length_cons, length_app. cbn [length]. lia.
Qed.

Lemma unlines_nul_free lines : Forall (Forall printable) lines → nul_free (unlines lines) = true.
Proof.
  induction 1 as [|l lines Hl _ IH]; [done|]. rewrite unlines_cons.
  unfold nul_free in *. rewrite forallb_app. cbn [forallb]. rewrite IH.
  change (negb (is_nul newline)) with true. cbn [andb]. rewrite andb_true_r.
  apply forallb_forall. intros ch Hch%list_elem_of_In. rewrite Forall_forall in Hl.
  by rewrite (printable_not_nul ch (Hl ch Hch)).
Qed.

(** What a file that holds the lines [lines] gives [io_split_lines]. *)
Lemma file_of_lines bytes lines :
  lines ≠ [] → Forall (Forall printable) lines → terminated bytes = unlines lines →
  bytes ≠ [] ∧ nul_free bytes = true ∧
  total_length lines + 1 ≤ Z.of_nat (length bytes) + 1 ∧
  ∀ tokens, Forall (λ t, newline ∉ t) tokens → unlines tokens = terminated bytes →
            tokens = lines.
Proof.
  intros Hne Hpr Hterm. split_and!.
  - intros ->. change (terminated []) with (@nil ascii) in Hterm.
    destruct lines as [|l lines]; [done|]. rewrite unlines_cons in Hterm. by destruct l.
  - destruct (terminated_prefix bytes) as [t Ht]. pose proof (unlines_nul_free lines Hpr) as Hn.
    rewrite <- Hterm, Ht in Hn. unfold nul_free in *. rewrite forallb_app in Hn.
    by apply andb_true_iff in Hn as [? _].
  - pose proof (unlines_length lines) as Hl. rewrite <- Hterm in Hl.
    assert (Z.of_nat (length (terminated bytes)) ≤ Z.of_nat (length bytes) + 1).
    { unfold terminated. destruct (last bytes) as [ch|]; [|cbn; lia].
      destruct (decide (ch = newline)); [lia|]. rewrite length_app. cbn. lia. }
    assert (1 ≤ Z.of_nat (length lines)) by (destruct lines; [done|cbn; lia]).
    lia.
  - intros tokens Hno Hun. apply unlines_inj; [done| |by rewrite Hun].
    eapply Forall_impl; [exact Hpr|]. apply Forall_printable_no_newline.
Qed.

Lemma strlen_printable P : Forall printable P → strlen P = Z.of_nat (length P).
Proof.
  intros HP. unfold strlen. rewrite c_string_nul_free; [done|].
  apply forallb_forall. intros ch Hch%list_elem_of_In. rewrite Forall_forall in HP.
  by rewrite (printable_not_nul ch (HP ch Hch)).
Qed.

Lemma heap_only_initial h w : heap_only (initial_world h) w → w = initial_world (heap w).
Proof. unfold heap_only. by intros ->. Qed.

Lemma main_in_file (env : Host) (optind : Z) (operands : list string) (stream : Stream)
    (opened closed : list host_call) (w : World) :
  main_input env operands = (Some stream, opened, closed) →
  ∃ named,
    (if optind + 1 =? optind + Z.of_nat (length operands)
     then match operands with
          | path :: _ => ret (Some path, open_file env path)
          | [] => undefined
          end
     else ret (None, Some (stdin env))) w
    = Returns (named, Some stream) w ∧
    opened = match named with Some path => [Fopen path "r"] | None => [] end ∧
    closed = match named with Some path => [Fclose path] | None => [] end.
Proof.
  intros Hin. unfold main_input in Hin. destruct operands as [|path [|path' operands]].
  - injection Hin as Hs <- <-. exists None. cbn [length].
    replace (optind + 1 =? optind + Z.of_nat 0) with false
      by (symmetry; apply Z.eqb_neq; lia).
    unfold ret. by rewrite Hs.
  - injection Hin as Hs <- <-. exists (Some path). cbn [length].
    change (Z.of_nat 1) with 1. rewrite Z.eqb_refl. unfold ret. by rewrite Hs.
  - injection Hin as Hs <- <-. exists None.
    replace (optind + 1 =? optind + Z.of_nat (length (path :: path' :: operands)))
      with false by (symmetry; apply Z.eqb_neq; cbn [length]; lia).
    unfold ret. by rewrite Hs.
Qed.

(** When the options are accepted and the input holds the lines [lines],
    [main] comes to [process_args] with the trie built from [lines], the
    root at node 0, and nothing written yet. *)
Lemma main_run (fuel : nat) (env : Host) (prog : string) (results : list getopt_result)
    (optind : Z) (operands : list string) (bytes : list ascii) (lines : list (list ascii))
    (options : flags) (prefix : option (list ascii)) (h : list bool) (w0 : World)
    (opened closed : list host_call) :
  parse_options prog results no_flags None (initial_world h) = Returns (options, prefix) w0 →
  sflag options || cflag options = true →
  main_input env operands = (Some (mkStream bytes false false), opened, closed) →
  forallb id h = true →
  lines ≠ [] → alphabet_lines lines = true → terminated bytes = unlines lines →
  (length bytes < fuel)%nat → Z.of_nat (length bytes) < INT32_MAX →
  ∃ h' w, build lines (initial_world h') = Returns true w ∧
    count (Trie w) ≤ Z.of_nat fuel ∧ stderr w = [] ∧ stdout w = [] ∧ sink w = [] ∧
    main fuel env (Some prog) results optind operands (initial_world h)
    = bind (process_args fuel env 0 options prefix OUTPUT_DOT_FILE)
           (λ rv, ret (if rv.1 then EXIT_SUCCESS else EXIT_FAILURE,
                       opened ++ rv.2 ++ closed)) w.
Proof.
  intros Hparse Hsc Hin Hh Hne Hal Hterm Hfuel Hmax.
  pose proof Hparse as Hacc.
  apply parse_options_flags in Hacc as (-> & _).
  pose proof (alphabet_lines_spec _ Hal) as Hpr.
  destruct (file_of_lines bytes lines Hne Hpr Hterm) as (Hb0 & Hnul & Htot & Htok).
  unfold INT32_MAX in Hmax.
  (* reading and splitting *)
  destruct (io_read_file_loop_all fuel [] bytes false (initial_world h) Hfuel
              (forallb_id_true _ Hh))
    as (w1 & st & Hread & Hho1 & Hh1); [cbn [length]; lia|].
  cbn [app length] in Hread. change (Z.of_nat 0) with 0 in Hread.
  fold (io_read_file fuel (mkStream bytes false false)) in Hread.
  assert (Hcap : Z.of_nat (length (@nil (list ascii))) ≤ 0
                 ≤ IO_TOKEN_CHUNK_SIZE + 2 * Z.of_nat (length (@nil (list ascii))))
    by (cbn; unfold IO_TOKEN_CHUNK_SIZE; lia).
  assert (Hlen' : Z.of_nat (length (@nil (list ascii))) + Z.of_nat (length bytes) < 2 ^ 59)
    by (cbn [length]; lia).
  destruct (io_split_loop_lines fuel bytes None [] 0 w1 Hfuel Hnul Hh1
              (or_intror (conj eq_refl (conj eq_refl eq_refl))) Hcap Hlen')
    as (toks & w2 & Hsplit & Hno & Hun & Hho2 & Hh2).
  cbn [length app] in Hsplit. change (Z.of_nat 0) with 0 in Hsplit.
  fold (io_split_by_delim fuel (Some bytes) [newline]) in Hsplit.
  fold (io_split_lines fuel (Some bytes)) in Hsplit.
  rewrite (Htok toks Hno Hun) in Hsplit.
  destruct bytes as [|b0 bytes']; [done|]. set (bytes := b0 :: bytes') in *.
  pose proof (heap_only_initial _ _ (heap_only_trans _ _ _ Hho1 Hho2)) as Hw2.
  (* building the trie *)
  destruct (build_steps (heap w2) lines Hh2 Hpr ltac:(unfold INT32_MAX; lia))
    as (w3 & w4 & Hinit & Halloc & Hpop & Hbuild & Hcount & Herr4).
  rewrite <- Hw2 in Hinit.
  destruct (build_represents (heap w2) lines w4 Hpr Hbuild) as [_ (_ & _ & Hout4 & Hsink4)].
  cbn [initial_world stdout sink] in Hout4, Hsink4.
  exists (heap w2), w4. split_and!; try done; [lia|].
  (* the stream *)
  destruct (main_in_file env optind operands _ opened closed (initial_world h) Hin)
    as (named & Hstream & -> & ->).
  unfold main. unfold no_flags in Hparse. rewrite (bind_eq _ _ _ _ _ Hparse).
  cbn [fst snd]. rewrite Hsc. rewrite (bind_eq _ _ _ _ _ Hstream).
  replace (optind >? optind + Z.of_nat (length operands)) with false
    by (symmetry; rewrite Z.gtb_ltb; apply Z.ltb_ge; lia).
  destruct named as [path|];
    (erewrite bind_eq by reflexivity;
     rewrite (bind_eq _ _ _ _ _ Hread); cbn [fst snd];
     rewrite (bind_eq _ _ _ _ _ Hsplit); cbn [fst snd];
     rewrite (bind_eq _ _ _ _ _ Hinit), (bind_eq _ _ _ _ _ Halloc);
     change (0 =? INVALID_OFFSET) with false; cbn match;
     rewrite (bind_eq _ _ _ _ _ Hpop); reflexivity).
Qed.

(** X15: [main] with [--complete], end to end.  The options are accepted
    with [-c P]; the input, the file named by the one operand or else
    [stdin], holds the lines [lines] (over the alphabet, none longer than
    the buffer, the last with or without its newline); no allocation fails.
    Then [main] returns, and beside opening and closing its input the only
    call it makes to the host is the removal of the DOT file.  It returns
    [EXIT_SUCCESS] exactly when [P] starts one of the lines, with stdout
    holding the lines that start with [P], each once, in byte order;
    otherwise it returns [EXIT_FAILURE] with nothing on stdout and the
    diagnostic on stderr. *)
Theorem main_complete (fuel : nat) (env : Host) (prog : string)
    (results : list getopt_result) (optind : Z) (operands : list string)
    (bytes : list ascii) (lines : list (list ascii)) (options : flags) (P : list ascii)
    (h : list bool) (w0 : World) (opened closed : list host_call) :
  parse_options prog results no_flags None (initial_world h) = Returns (options, Some P) w0 →
  cflag options = true →
  main_input env operands = (Some (mkStream bytes false false), opened, closed) →
  forallb id h = true →
  lines ≠ [] → alphabet_lines lines = true → lines_fit lines = true →
  terminated bytes = unlines lines →
  forallb printableb P = true →
  (length bytes < fuel)%nat → Z.of_nat (length bytes) < INT32_MAX →
  ∃ status w',
    main fuel env (Some prog) results optind operands (initial_world h)
    = Returns (status, opened ++ [Remove OUTPUT_DOT_FILE] ++ closed) w' ∧
    (status = EXIT_SUCCESS ↔ ∃ l, l ∈ lines ∧ P `prefix_of` l) ∧
    if status =? EXIT_SUCCESS then
      stderr w' = [] ∧
      ∃ out, stdout w' = unlines out ∧ StronglySorted bytes_lt out ∧
             ∀ x, x ∈ out ↔ x ∈ lines ∧ P `prefix_of` x
    else status = EXIT_FAILURE ∧ stdout w' = [] ∧
         stderr w' = ["Error: Unable to find prefix."%string].
Proof.
  intros Hparse Hcf Hin Hh Hne Hal Hfit Hterm HP Hfuel Hmax.
  pose proof Hparse as Hacc.
  apply parse_options_flags in Hacc as (_ & Hc).
  destruct (Hc Hcf) as (Hsf & Hkf).
  destruct (main_run fuel env prog results optind operands bytes lines options (Some P) h w0
              opened closed Hparse ltac:(by rewrite Hcf, orb_true_r) Hin Hh Hne Hal Hterm
              Hfuel Hmax)
    as (h' & w & Hbuild & Hcount & Herr & Hout & _ & Hmain).
  destruct (build_facts h' lines w Hal Hbuild)
    as (Hpr & Hok & Hsz & Htxt & name & HI & Hm & Hp & Hcov).
  destruct (process_args_complete_inv name lines w P fuel env options OUTPUT_DOT_FILE
              HI Hm Hp Hcov (covered_shallow _ _ _ HI Hcov Hfit) Hpr Hok Hsz Htxt
              (Forall_printableb _ HP) Hcount Hcf Hsf)
    as (rv & w5 & Hproc & _ & _ & Hrv & Hres).
  rewrite Hkf in Hproc. cbn [negb] in Hproc.
  exists (if rv then EXIT_SUCCESS else EXIT_FAILURE), w5. split_and!.
  - rewrite Hmain. by rewrite (bind_eq _ _ _ _ _ Hproc).
  - destruct rv.
    + split; [intros _|done]. destruct (proj1 Hrv eq_refl) as [->|H]; [|done].
      destruct lines as [|l lines]; [done|]. exists l. split; [left|apply prefix_nil].
    + split; [done|]. intros H. assert (false = true) by (apply Hrv; by right). done.
  - destruct rv.
    + change (EXIT_SUCCESS =? EXIT_SUCCESS) with true. cbn match.
      destruct Hres as (He & out & Ho & Hsorted & Hex). split; [by rewrite He|].
      exists out. split_and!; try done. by rewrite Ho, Hout.
    + change (EXIT_FAILURE =? EXIT_SUCCESS) with false. cbn match.
      destruct Hres as [Ho He]. split_and!; try done.
      * by rewrite Ho, Hout.
      * by rewrite He, Herr.
Qed.

Lemma main_complete_witness :
  ∃ status w',
    main 20 (mkHost true true 0
               (λ _, Some (mkStream (unlines demo_lines) false false))
               (mkStream [] false false))
         (Some "auto-complete"%string) [Opt_c (word "ca")] 3 ["words.txt"%string]
         (initial_world [])
    = Returns (status,
               [Fopen "words.txt" "r"] ++ [Remove OUTPUT_DOT_FILE] ++ [Fclose "words.txt"]) w' ∧
    (status = EXIT_SUCCESS ↔ ∃ l, l ∈ demo_lines ∧ word "ca" `prefix_of` l) ∧
    if status =? EXIT_SUCCESS then
      stderr w' = [] ∧
      ∃ out, stdout w' = unlines out ∧ StronglySorted bytes_lt out ∧
             ∀ x, x ∈ out ↔ x ∈ demo_lines ∧ word "ca" `prefix_of` x
    else status = EXIT_FAILURE ∧ stdout w' = [] ∧
         stderr w' = ["Error: Unable to find prefix."%string].
Proof.
  refine (main_complete 20
            (mkHost true true 0 (λ _, Some (mkStream (unlines demo_lines) false false))
                    (mkStream [] false false))
            "auto-complete" [Opt_c (word "ca")] 3 ["words.txt"%string] (unlines demo_lines)
            demo_lines (mkFlags false false false true false) (word "ca") []
            (initial_world []) [Fopen "words.txt" "r"] [Fclose "words.txt"]
            _ _ _ _ _ _ _ _ _ _ _).
  - vm_compute. reflexivity.
  - reflexivity.
  - reflexivity.
  - reflexivity.
  - discriminate.
  - vm_compute. reflexivity.
  - vm_compute. reflexivity.
  - vm_compute. reflexivity.
  - vm_compute. reflexivity.
  - vm_compute. lia.
  - vm_compute. reflexivity.
Defined.

Example main_demo :
  match main 20 (mkHost true true 0
                   (λ _, Some (mkStream (unlines demo_lines) false false))
                   (mkStream [] false false))
             (Some "auto-complete"%string) [Opt_c (word "ca")] 3 ["words.txt"%string]
             (initial_world []) with
  | Returns r w => Some (r, stdout w)
  | _ => None
  end
  = Some ((EXIT_SUCCESS, [Fopen "words.txt" "r"; Remove OUTPUT_DOT_FILE; Fclose "words.txt"]),
          unlines [word "car"; word "cart"; word "cat"]).
Proof. vm_compute. reflexivity. Qed.

(** X16: [main] on an input without bytes, and on an input whose read
    fails.  [io_split_lines] returns [NULL] for the empty text, so [main]
    takes the empty input for a failed read: it returns [EXIT_FAILURE] after
    the diagnostic of [perror("fread()")], having built no trie, written
    nothing to stdout, and without closing its input or removing the DOT
    file.  After a read error [io_read_file] returns [NULL], and [main]
    passes it untested to [io_split_lines], whose first parameter is
    declared [nonnull]: the call is undefined. *)
Theorem main_empty_input (fuel : nat) (env : Host) (prog : string)
    (results : list getopt_result) (optind : Z) (operands : list string)
    (bytes : list ascii) (e : bool) (options : flags) (prefix : option (list ascii))
    (h : list bool) (w0 : World) (opened closed : list host_call) :
  parse_options prog results no_flags None (initial_world h) = Returns (options, prefix) w0 →
  sflag options || cflag options = true →
  main_input env operands = (Some (mkStream bytes e false), opened, closed) →
  forallb id h = true →
  (if e then true else bool_decide (bytes = [])) = true →
  (length bytes < fuel)%nat → Z.of_nat (length bytes) < 2 ^ 62 →
  if e then
    main fuel env (Some prog) results optind operands (initial_world h) = Undefined
  else
    ∃ w', main fuel env (Some prog) results optind operands (initial_world h)
          = Returns (EXIT_FAILURE, opened) w' ∧
      stdout w' = [] ∧ stderr w' = ["fread()"%string] ∧ sink w' = [] ∧
      Trie w' = mkTrie ∅ 0 0.
Proof.
  intros Hparse Hsc Hin Hh Hcase Hfuel Hlen.
  pose proof Hparse as Hacc.
  apply parse_options_flags in Hacc as (-> & _).
  destruct (io_read_file_loop_all fuel [] bytes e (initial_world h) Hfuel
              (forallb_id_true _ Hh))
    as (w1 & st & Hread & Hho1 & Hh1); [cbn [length]; lia|].
  cbn [app length] in Hread. change (Z.of_nat 0) with 0 in Hread.
  fold (io_read_file fuel (mkStream bytes e false)) in Hread.
  apply heap_only_initial in Hho1.
  destruct (main_in_file env optind operands _ opened closed (initial_world h) Hin)
    as (named & Hstream & -> & ->).
  destruct fuel as [|fuel]; [lia|].
  assert (Hargs : (optind >? optind + Z.of_nat (length operands)) = false)
    by (rewrite Z.gtb_ltb; apply Z.ltb_ge; lia).
  unfold no_flags in Hparse. destruct e.
  - unfold main. rewrite (bind_eq _ _ _ _ _ Hparse).
    cbn [fst snd]. rewrite Hsc. rewrite (bind_eq _ _ _ _ _ Hstream). rewrite Hargs.
    destruct named as [path|];
      (erewrite bind_eq by reflexivity;
       rewrite (bind_eq _ _ _ _ _ Hread); reflexivity).
  - apply bool_decide_eq_true in Hcase. subst bytes.
    exists (set_stderr (stderr w1 ++ ["fread()"%string]) w1). split.
    + unfold main. rewrite (bind_eq _ _ _ _ _ Hparse).
      cbn [fst snd]. rewrite Hsc. rewrite (bind_eq _ _ _ _ _ Hstream). rewrite Hargs.
      destruct named as [path|];
        (erewrite bind_eq by reflexivity;
         rewrite (bind_eq _ _ _ _ _ Hread); reflexivity).
    + rewrite Hho1. by cbn.
Qed.

Lemma main_empty_input_witness :
  main 4 (mkHost true true 0 (λ _, None) (mkStream (word "cat") true false))
       (Some "auto-complete"%string) [Opt_c (word "ca")] 3 [] (initial_world [])
  = Undefined ∧
  ∃ w', main 1 (mkHost true true 0 (λ _, None) (mkStream [] false false))
             (Some "auto-complete"%string) [Opt_c (word "ca")] 3 [] (initial_world [])
        = Returns (EXIT_FAILURE, []) w' ∧
    stdout w' = [] ∧ stderr w' = ["fread()"%string] ∧ sink w' = [] ∧
    Trie w' = mkTrie ∅ 0 0.
Proof.
  split.
  - refine (main_empty_input 4 (mkHost true true 0 (λ _, None)
                                  (mkStream (word "cat") true false))
              "auto-complete" [Opt_c (word "ca")] 3 [] (word "cat") true
              (mkFlags false false false true false) (Some (word "ca")) []
              (initial_world []) [] [] _ _ _ _ _ _ _).
    + vm_compute. reflexivity.
    + reflexivity.
    + reflexivity.
    + reflexivity.
    + reflexivity.
    + vm_compute. lia.
    + vm_compute. reflexivity.
  - refine (main_empty_input 1 (mkHost true true 0 (λ _, None) (mkStream [] false false))
              "auto-complete" [Opt_c (word "ca")] 3 [] [] false
              (mkFlags false false false true false) (Some (word "ca")) []
              (initial_world []) [] [] _ _ _ _ _ _ _).
    + vm_compute. reflexivity.
    + reflexivity.
    + reflexivity.
    + reflexivity.
    + reflexivity.
    + vm_compute. lia.
    + vm_compute. reflexivity.
Defined.


(** ** The graph, from the arguments *)

Lemma generate_dot_built name fuel env idx prefix w0 w :
  trie_inv (Trie w0) name → Trie w = Trie w0 →
  0 ≤ idx < count (Trie w0) → count (Trie w0) ≤ Z.of_nat fuel →
  fopen_w_ok env = true →
  ∃ w' stm,
    generate_dot fuel env idx prefix w
    = Returns (fclose_ok env,
               dot_calls idx (match prefix with Some p => c_string p | None => word "root" end))
              w' ∧
    effects w [] stm w' ∧ stderr w' = stderr w ∧ stm ≡ₚ prefix_stmts fuel (Trie w0) idx.
Proof.
  intros HI HT Hidx Hfuel Hopen. unfold generate_dot. rewrite Hopen.
  destruct (idx =? 0) eqn:E.
  - apply Z.eqb_eq in E. subst idx.
    destruct (dump_dot_whole_effects name w) as (w' & Hd & He); [by rewrite HT|].
    destruct (quiet_dump_dot_whole w w' (final_Returns _ _ _ _ Hd)) as [Hq _].
    exists w', (whole_stmts (Trie w0)). rewrite (bind_eq _ _ _ _ _ Hd).
    split_and!; try done.
    + by rewrite HT in He.
    + by apply (whole_stmts_prefix_stmts _ name).
  - destruct (dump_dot_prefix_effects name fuel idx w0 w HI HT Hidx ltac:(lia))
      as (w' & Hd & He).
    destruct (quiet_dump_dot_prefix fuel idx w w' (final_Returns _ _ _ _ Hd)) as [Hq _].
    exists w', (prefix_stmts fuel (Trie w0) idx). rewrite (bind_eq _ _ _ _ _ Hd).
    by split_and!.
Qed.

Lemma c_string_printable P : Forall printable P → c_string P = P.
Proof.
  intros HP. apply c_string_nul_free. apply forallb_forall.
  intros ch Hch%list_elem_of_In. rewrite Forall_forall in HP.
  by rewrite (printable_not_nul ch (HP ch Hch)).
Qed.

(** The part of [process_args] from [generate_dot] on, at the node [idx]. *)
Lemma process_args_graph name fuel env idx prefix options out_file w0 w
    (k : bool * list host_call → M (bool * list host_call)) :
  trie_inv (Trie w0) name → Trie w = Trie w0 →
  0 ≤ idx < count (Trie w0) → count (Trie w0) ≤ Z.of_nat fuel →
  fopen_w_ok env = true →
  (∀ rv calls w1, k (rv, calls) w1
     = Returns (rv, if negb (kflag options) then calls ++ [Remove out_file] else calls) w1) →
  ∃ w' stm,
    bind (generate_dot fuel env idx prefix)
         (λ d, if d.1 then bind (generate_graph env) (λ g, k (g.1, d.2 ++ g.2))
               else k (false, d.2)) w
    = Returns (fclose_ok env && (system_status env =? 0),
               (dot_calls idx (match prefix with Some p => c_string p | None => word "root" end)
                ++ (if fclose_ok env then [System dot_command] else []))
               ++ (if negb (kflag options) then [Remove out_file] else [])) w' ∧
    Trie w' = Trie w0 ∧ stdout w' = stdout w ∧ sink w' = sink w ++ stm ∧
    stm ≡ₚ prefix_stmts fuel (Trie w0) idx ∧
    stderr w' = stderr w ++ (if fclose_ok env && negb (system_status env =? 0)
                             then ["Error: failed to generate the .SVG file"%string] else []).
Proof.
  intros HI HT Hidx Hfuel Hopen Hk.
  destruct (generate_dot_built name fuel env idx prefix w0 w HI HT Hidx Hfuel Hopen)
    as (w1 & stm & Hgen & (HT1 & _ & _ & _ & Ho1 & Hs1) & He1 & Hperm).
  cbn [unlines fmap list_fmap concat] in Ho1. rewrite app_nil_r in Ho1.
  rewrite (bind_eq _ _ _ _ _ Hgen). cbn [fst snd].
  destruct (fclose_ok env); cbn [andb].
  - unfold generate_graph. destruct (system_status env =? 0); cbn [negb].
    + exists w1, stm. unfold bind, ret. rewrite Hk. split_and!; try done.
      * do 2 f_equal. destruct (kflag options); cbn [negb]; [by rewrite app_nil_r|done].
      * congruence.
      * by rewrite app_nil_r.
    + exists (set_stderr (stderr w1 ++ ["Error: failed to generate the .SVG file"%string]) w1),
        stm.
      unfold bind, fputs_stderr, ret. rewrite Hk. split_and!; try done.
      * do 2 f_equal. destruct (kflag options); cbn [negb]; [by rewrite app_nil_r|done].
      * cbn [Trie set_stderr]. congruence.
      * cbn [stderr set_stderr]. by rewrite He1.
  - exists w1, stm. rewrite Hk. split_and!; try done.
    + do 2 f_equal. rewrite app_nil_r.
      destruct (kflag options); cbn [negb]; [by rewrite app_nil_r|done].
    + congruence.
    + by rewrite app_nil_r.
Qed.

(** The [--svg] run of [process_args] on a trie that represents [lines]. *)
Lemma process_args_svg_inv name (lines : list (list ascii)) (w : World)
    (prefix : option (list ascii)) (fuel : nat) (env : Host) (options : flags)
    (out_file : string) :
  trie_inv (Trie w) name → present (Trie w) name lines →
  covered (Trie w) name lines → shallow (Trie w) name →
  Forall (Forall printable) lines → buffer_ok w → ac_buffer_sz w = 0 →
  Forall printable (default [] prefix) → count (Trie w) ≤ Z.of_nat fuel →
  sflag options = true → cflag options = false → fopen_w_ok env = true →
  ∃ rv calls w',
    process_args fuel env 0 options prefix out_file w
    = Returns (rv, calls ++ (if negb (kflag options) then [Remove out_file] else [])) w' ∧
    Trie w' = Trie w ∧ stdout w' = stdout w ∧
    (is_Some (walk (Trie w) 0 (offsets (default [] prefix)))
     ↔ default [] prefix = [] ∨ ∃ l, l ∈ lines ∧ default [] prefix `prefix_of` l) ∧
    match walk (Trie w) 0 (offsets (default [] prefix)) with
    | Some idx =>
      calls = dot_calls idx (match prefix with Some p => p | None => word "root" end)
              ++ (if fclose_ok env then [System dot_command] else []) ∧
      rv = fclose_ok env && (system_status env =? 0) ∧
      ∃ stm, sink w' = sink w ++ stm ∧ stm ≡ₚ prefix_stmts fuel (Trie w) idx
    | None =>
      rv = false ∧ calls = [] ∧ sink w' = sink w ∧
      stderr w' = stderr w ++ ["Error: Unable to find prefix."%string]
    end.
Proof.
  intros HI Hp Hcov Hsh Hpr Hok Hsz HP Hfuel Hsf Hcf Hopen.
  pose proof (walk_iff_prefix _ name lines _ HI Hp Hcov Hpr HP) as Hiff.
  assert (H0 : 0 ≤ 0 < count (Trie w)) by (pose proof (inv_count _ _ HI); lia).
  assert (Hroom : ∀ u j, walk (Trie w) 0 (offsets u) = Some j →
            ac_buffer_sz w + Z.of_nat (length u) ≤ AC_BUFFER_CAP).
  { intros u j Hw. destruct (walk_name _ _ _ _ _ HI H0 Hw) as [Hj Hn].
    pose proof (Hsh j Hj) as Hd. rewrite Hn, (inv_root _ _ HI) in Hd.
    cbn [app] in Hd. unfold offsets in Hd. rewrite length_fmap in Hd. lia. }
  set (cleanup := λ (rc : bool * list host_call),
         ret (A := bool * list host_call)
             (rc.1, if negb (kflag options) then rc.2 ++ [Remove out_file] else rc.2)).
  assert (Hk : ∀ rv calls w1, cleanup (rv, calls) w1
     = Returns (rv, if negb (kflag options) then calls ++ [Remove out_file] else calls) w1)
    by done.
  unfold process_args. rewrite Hcf, Hsf.
  destruct prefix as [P|].
  - change (default [] (Some P)) with P in *. cbn [find_prefix_at].
    destruct (walk (Trie w) 0 (offsets P)) as [idx|] eqn:Hw.
    + destruct (find_prefix_found w 0 P idx Hw Hok (Hroom P idx Hw))
        as (w1 & Hfp & HT1 & _ & _ & _ & Ho1 & Hk1 & He1 & _).
      destruct (walk_name _ _ _ _ _ HI H0 Hw) as [Hidx _].
      destruct (process_args_graph name fuel env idx (Some P) options out_file w w1 cleanup
                  HI HT1 Hidx Hfuel Hopen Hk)
        as (w' & stm & Hg & HT' & Ho' & Hs' & Hperm & _).
      rewrite (c_string_printable P HP) in Hg.
      eexists _, _, w'. rewrite (bind_eq _ _ _ _ _ Hfp).
      replace (idx =? INVALID_OFFSET) with false
        by (symmetry; apply Z.eqb_neq; unfold INVALID_OFFSET; lia).
      split; [exact Hg|]. split_and!; try done; [congruence|].
      exists stm. split; [congruence|done].
    + destruct (walk_None_split _ _ P 0 HI H0 HP Hw) as (u & ch & rest & j & -> & Hwu & Hfree).
      destruct (find_prefix_missing w 0 u ch rest j Hwu Hfree Hok (Hroom u j Hwu))
        as (w1 & Hfp & HT1 & _ & _ & _ & Ho1 & Hk1 & He1 & _).
      exists false, []. eexists. rewrite (bind_eq _ _ _ _ _ Hfp). rewrite Z.eqb_refl.
      unfold bind, fputs_stderr, ret.
      split_and!; try done; try (by destruct (kflag options)).
      cbn [stderr set_stderr]. by rewrite He1.
  - change (default [] None) with (@nil ascii) in *. cbn [offsets fmap list_fmap walk].
    destruct (process_args_graph name fuel env 0 None options out_file w w cleanup
                HI eq_refl H0 Hfuel Hopen Hk)
      as (w' & stm & Hg & HT' & Ho' & Hs' & Hperm & _).
    eexists _, _, w'. split; [exact Hg|]. split_and!; try done. by exists stm.
Qed.


(** X17: the [--svg] run of [process_args] on the trie built from [lines],
    when the DOT file can be opened.  With a prefix that the trie does not
    have, it returns [false] after the diagnostic and opens no file.
    Otherwise [generate_dot] declares the node of the prefix (the root
    without [-p]) under the label of the prefix (["root"] without [-p]) and
    the sink receives the statements of the subtree of that node, up to
    their order; [generate_graph] runs [dot] when [fclose] succeeded, and
    the result is [true] when both did.  Nothing goes to stdout, the Trie is
    untouched, and the DOT file is removed at the end unless [-k] is
    set. *)
Theorem process_args_svg (h : list bool) (lines : list (list ascii)) (w : World)
    (prefix : option (list ascii)) (fuel : nat) (env : Host) (options : flags)
    (out_file : string) :
  alphabet_lines lines = true → lines_fit lines = true →
  build lines (initial_world h) = Returns true w →
  forallb printableb (default [] prefix) = true → count (Trie w) ≤ Z.of_nat fuel →
  sflag options = true → cflag options = false → fopen_w_ok env = true →
  ∃ rv calls w',
    process_args fuel env 0 options prefix out_file w
    = Returns (rv, calls ++ (if negb (kflag options) then [Remove out_file] else [])) w' ∧
    Trie w' = Trie w ∧ stdout w' = stdout w ∧
    (is_Some (walk (Trie w) 0 (offsets (default [] prefix)))
     ↔ default [] prefix = [] ∨ ∃ l, l ∈ lines ∧ default [] prefix `prefix_of` l) ∧
    match walk (Trie w) 0 (offsets (default [] prefix)) with
    | Some idx =>
      calls = dot_calls idx (match prefix with Some p => p | None => word "root" end)
              ++ (if fclose_ok env then [System dot_command] else []) ∧
      rv = fclose_ok env && (system_status env =? 0) ∧
      ∃ stm, sink w' = sink w ++ stm ∧ stm ≡ₚ prefix_stmts fuel (Trie w) idx
    | None =>
      rv = false ∧ calls = [] ∧ sink w' = sink w ∧
      stderr w' = stderr w ++ ["Error: Unable to find prefix."%string]
    end.
Proof.
  intros Hal Hfit Hb HP%Forall_printableb Hfuel Hsf Hcf Hopen.
  destruct (build_facts h lines w Hal Hb)
    as (Hpr & Hok & Hsz & Htxt & name & HI & Hm & Hp & Hcov).
  pose proof (covered_shallow _ _ _ HI Hcov Hfit) as Hsh.
  by apply (process_args_svg_inv name lines).
Qed.

Lemma process_args_svg_witness :
  ∃ rv calls w',
    process_args 9 (mkHost true true 0 (λ _, None) (mkStream [] false false)) 0
                 (mkFlags false false true false true) (Some (word "ca")) "graph.dot"
                 demo_world
    = Returns (rv, calls ++ [Remove "graph.dot"]) w' ∧
    Trie w' = Trie demo_world ∧ stdout w' = stdout demo_world ∧
    (is_Some (walk (Trie demo_world) 0 (offsets (word "ca")))
     ↔ word "ca" = [] ∨ ∃ l, l ∈ demo_lines ∧ word "ca" `prefix_of` l) ∧
    match walk (Trie demo_world) 0 (offsets (word "ca")) with
    | Some idx =>
      calls = dot_calls idx (word "ca") ++ [System dot_command] ∧
      rv = true ∧
      ∃ stm, sink w' = sink demo_world ++ stm ∧ stm ≡ₚ prefix_stmts 9 (Trie demo_world) idx
    | None =>
      rv = false ∧ calls = [] ∧ sink w' = sink demo_world ∧
      stderr w' = stderr demo_world ++ ["Error: Unable to find prefix."%string]
    end.
Proof.
  refine (process_args_svg [] demo_lines demo_world (Some (word "ca")) 9
            (mkHost true true 0 (λ _, None) (mkStream [] false false))
            (mkFlags false false true false true) "graph.dot" _ _ _ _ _ _ _ _).
  - vm_compute. reflexivity.
  - vm_compute. reflexivity.
  - vm_compute. reflexivity.
  - vm_compute. reflexivity.
  - vm_compute. discriminate.
  - reflexivity.
  - reflexivity.
  - reflexivity.
Defined.

(** * Lines longer than the buffer *)

Lemma for_loop_dichotomy (I : World → Prop) body n : ∀ k0 w,
  I w →
  (∀ k w1, k0 ≤ k < k0 + Z.of_nat n → I w1 →
     body k w1 = Undefined ∨ ∃ w2, body k w1 = Returns tt w2 ∧ I w2) →
  for_loop n k0 body w = Undefined ∨ ∃ w2, for_loop n k0 body w = Returns tt w2 ∧ I w2.
Proof.
  induction n as [|n IH]; intros k0 w HI Hb; unfold for_loop; fold for_loop.
  - right. by exists w.
  - destruct (Hb k0 w ltac:(lia) HI) as [Hu|(w1 & Hr & HI1)].
    + left. unfold bind. by rewrite Hu.
    + rewrite (bind_eq _ _ _ _ _ Hr). apply IH; [done|].
      intros k w2 Hk. apply Hb. lia.
Qed.

Lemma for_loop_Undefined_at (I : World → Prop) body n : ∀ k0 w k,
  k0 ≤ k < k0 + Z.of_nat n → I w →
  (∀ k' w1, k0 ≤ k' < k → I w1 →
     body k' w1 = Undefined ∨ ∃ w2, body k' w1 = Returns tt w2 ∧ I w2) →
  (∀ w1, I w1 → body k w1 = Undefined) →
  for_loop n k0 body w = Undefined.
Proof.
  induction n as [|n IH]; intros k0 w k Hk HI Hbefore Hat; [lia|].
  unfold for_loop; fold for_loop.
  destruct (decide (k = k0)) as [->|Hne].
  - unfold bind. by rewrite (Hat w HI).
  - destruct (Hbefore k0 w ltac:(lia) HI) as [Hu|(w1 & Hr & HI1)].
    + unfold bind. by rewrite Hu.
    + rewrite (bind_eq _ _ _ _ _ Hr). apply (IH (k0 + 1) w1 k); [lia|done| |done].
      intros k' w2 Hk'. apply Hbefore. lia.
Qed.

(** The step of the loop of [print_suggestions] at a node of a trie built by
    insertions, for any traversal [rec] of the children that is undefined or
    returns with the buffer as it found it: the step is undefined, or
    returns with the buffer as it found it. *)
Lemma print_suggestions_step name T i (rec : Z → M unit) k w1 :
  trie_inv T name → 0 ≤ i < count T → 0 ≤ k < CHILDREN_COUNT →
  (∀ c w2, i < c < count T → Trie w2 = T → buffer_ok w2 →
     rec c w2 = Undefined ∨
     ∃ w3, rec c w2 = Returns tt w3 ∧ Trie w3 = T ∧
           ac_buffer_sz w3 = ac_buffer_sz w2 ∧ buffer_ok w3) →
  Trie w1 = T → buffer_ok w1 →
  let body := (let* c := load_child i k in
               if negb (c =? INVALID_OFFSET) then
                 let* _ := ac_buffer_push (char_of_index k) in
                 let* next := load_child i k in
                 let* _ := rec next in
                 ac_buffer_pop
               else ret tt) in
  body w1 = Undefined ∨
  ∃ w2, body w1 = Returns tt w2 ∧ Trie w2 = T ∧
        ac_buffer_sz w2 = ac_buffer_sz w1 ∧ buffer_ok w2.
Proof.
  intros HI Hi Hk Hrec HT Hok. cbn zeta.
  destruct (inv_child_total _ _ i k HI Hi Hk) as [c Hc].
  assert (Hl : ∀ w', Trie w' = T → load_child i k w' = Returns c w').
  { intros w' HT'. apply load_child_Returns. by rewrite HT'. }
  rewrite (bind_eq _ _ _ _ _ (Hl w1 HT)).
  destruct (c =? INVALID_OFFSET) eqn:E; cbn [negb].
  { right. by exists w1. }
  apply Z.eqb_neq in E.
  destruct (inv_edge _ _ HI i k c Hi Hc E) as [Hlt _].
  destruct (decide (ac_buffer_sz w1 < AC_BUFFER_CAP)) as [Hroom|Hfull].
  - destruct (ac_buffer_push_ok (char_of_index k) w1 Hok Hroom)
      as (w2 & Hpush & HT2 & _ & Hs2 & Hok2 & _).
    rewrite (bind_eq _ _ _ _ _ Hpush).
    rewrite (bind_eq _ _ _ _ _ (Hl w2 ltac:(congruence))).
    destruct (Hrec c w2 Hlt ltac:(congruence) Hok2) as [Hu|(w3 & Hr & HT3 & Hs3 & Hok3)].
    + left. unfold bind. by rewrite Hu.
    + right. rewrite (bind_eq _ _ _ _ _ Hr). unfold ac_buffer_pop.
      cbn [length] in Hs2. destruct Hok as [Hsz Hlen]. destruct Hok3 as [Hsz3 Hlen3].
      replace (ac_buffer_sz w3 >? 0) with true by (symmetry; apply Z.gtb_lt; lia).
      eexists. split; [reflexivity|]. cbn [Trie set_buffer ac_buffer_sz].
      split_and!; try done; try lia. split; [cbn; lia|done].
  - left. unfold bind, ac_buffer_push.
    replace (ac_buffer_sz w1 <? AC_BUFFER_CAP) with false by (symmetry; apply Z.ltb_ge; lia).
    by rewrite andb_false_r.
Qed.

(** [print_suggestions] on a trie built by insertions never exits and never
    runs out of the fuel that covers the pool: it is undefined (the buffer
    overflows), or it returns with the buffer as it found it. *)
Lemma print_suggestions_safe name fuel : ∀ i w,
  trie_inv (Trie w) name → 0 ≤ i < count (Trie w) → count (Trie w) - i ≤ Z.of_nat fuel →
  buffer_ok w →
  print_suggestions fuel i w = Undefined ∨
  ∃ w', print_suggestions fuel i w = Returns tt w' ∧ Trie w' = Trie w ∧
        ac_buffer_sz w' = ac_buffer_sz w ∧ buffer_ok w'.
Proof.
  induction fuel as [|fuel IH]; intros i w HI Hi Hfuel Hok; [lia|].
  cbn [print_suggestions].
  destruct (inv_node _ _ HI i Hi) as (n & Hn & _).
  assert (Hld : load_node i w = Returns n w) by (unfold load_node; by rewrite Hn).
  rewrite (bind_eq _ _ _ _ _ Hld).
  assert (∃ w1, (if terminal n then write_buffer_line else ret tt) w = Returns tt w1 ∧
                Trie w1 = Trie w ∧ ac_buffer_sz w1 = ac_buffer_sz w ∧ buffer_ok w1)
    as (w1 & Hw1 & HT1 & Hs1 & Hok1).
  { destruct (terminal n); eexists; (split; [done|]); by split. }
  rewrite (bind_eq _ _ _ _ _ Hw1).
  destruct (for_loop_dichotomy
              (λ w2, Trie w2 = Trie w ∧ ac_buffer_sz w2 = ac_buffer_sz w ∧ buffer_ok w2)
              (λ k, let* c := load_child i k in
                    if negb (c =? INVALID_OFFSET) then
                      let* _ := ac_buffer_push (char_of_index k) in
                      let* next := load_child i k in
                      let* _ := print_suggestions fuel next in
                      ac_buffer_pop
                    else ret tt)
              (Z.to_nat CHILDREN_COUNT) 0 w1) as [Hu|(w2 & Hr & HT2 & Hs2 & Hok2)].
  - done.
  - intros k w2 Hk (HT2 & Hs2 & Hok2).
    assert (Hk' : 0 ≤ k < CHILDREN_COUNT) by (unfold CHILDREN_COUNT in *; lia).
    assert (Hrec : ∀ c w3, i < c < count (Trie w) → Trie w3 = Trie w → buffer_ok w3 →
              print_suggestions fuel c w3 = Undefined ∨
              ∃ w4, print_suggestions fuel c w3 = Returns tt w4 ∧ Trie w4 = Trie w ∧
                    ac_buffer_sz w4 = ac_buffer_sz w3 ∧ buffer_ok w4).
    { intros c w3 Hc HT3 Hok3. rewrite <- HT3. apply IH; rewrite ?HT3; try done; lia. }
    destruct (print_suggestions_step name (Trie w) i (print_suggestions fuel) k w2
                HI Hi Hk' Hrec HT2 Hok2)
      as [Hu|(w3 & Hr & HT3 & Hs3 & Hok3)].
    + by left.
    + right. exists w3. split_and!; try done. congruence.
  - by left.
  - right. by exists w2.
Qed.

(** When a node at depth past the room of the buffer can be reached from
    the node [i], [print_suggestions] from [i] is undefined. *)
Lemma print_suggestions_deep name v : ∀ fuel i w j,
  trie_inv (Trie w) name → 0 ≤ i < count (Trie w) → count (Trie w) - i ≤ Z.of_nat fuel →
  buffer_ok w → walk (Trie w) i v = Some j →
  AC_BUFFER_CAP < ac_buffer_sz w + Z.of_nat (length v) →
  print_suggestions fuel i w = Undefined.
Proof.
  induction v as [|k v IH]; intros fuel i w j HI Hi Hfuel Hok Hw Hdeep.
  { destruct Hok as [Hsz _]. cbn in Hdeep. lia. }
  destruct fuel as [|fuel]; [lia|].
  apply walk_cons_inv in Hw as (c & Hc & Hne & Hw).
  pose proof (child_Some_range _ _ _ _ Hc) as Hk.
  destruct (inv_edge _ _ HI i k c Hi Hc Hne) as [Hlt _].
  cbn [print_suggestions].
  destruct (inv_node _ _ HI i Hi) as (n & Hn & _).
  assert (Hld : load_node i w = Returns n w) by (unfold load_node; by rewrite Hn).
  rewrite (bind_eq _ _ _ _ _ Hld).
  assert (∃ w1, (if terminal n then write_buffer_line else ret tt) w = Returns tt w1 ∧
                Trie w1 = Trie w ∧ ac_buffer_sz w1 = ac_buffer_sz w ∧ buffer_ok w1)
    as (w1 & Hw1 & HT1 & Hs1 & Hok1).
  { destruct (terminal n); eexists; (split; [done|]); by split. }
  rewrite (bind_eq _ _ _ _ _ Hw1).
  apply (for_loop_Undefined_at
           (λ w2, Trie w2 = Trie w ∧ ac_buffer_sz w2 = ac_buffer_sz w ∧ buffer_ok w2)
           _ _ 0 w1 k).
  - unfold CHILDREN_COUNT in *. lia.
  - done.
  - intros k' w2 Hk' (HT2 & Hs2 & Hok2).
    assert (Hk95 : 0 ≤ k' < CHILDREN_COUNT) by lia.
    assert (Hrec : ∀ c w3, i < c < count (Trie w) → Trie w3 = Trie w → buffer_ok w3 →
              print_suggestions fuel c w3 = Undefined ∨
              ∃ w4, print_suggestions fuel c w3 = Returns tt w4 ∧ Trie w4 = Trie w ∧
                    ac_buffer_sz w4 = ac_buffer_sz w3 ∧ buffer_ok w4).
    { intros c' w3 Hc' HT3 Hok3. rewrite <- HT3.
      apply (print_suggestions_safe name); rewrite ?HT3; try done; lia. }
    destruct (print_suggestions_step name (Trie w) i (print_suggestions fuel) k' w2
                HI Hi Hk95 Hrec HT2 Hok2)
      as [Hu|(w3 & Hr & HT3 & Hs3 & Hok3)].
    + by left.
    + right. exists w3. split_and!; try done. congruence.
  - intros w2 (HT2 & Hs2 & Hok2).
    assert (Hl : ∀ w', Trie w' = Trie w → load_child i k w' = Returns c w').
    { intros w' HT'. apply load_child_Returns. by rewrite HT'. }
    rewrite (bind_eq _ _ _ _ _ (Hl w2 HT2)).
    replace (c =? INVALID_OFFSET) with false by (symmetry; by apply Z.eqb_neq).
    cbn [negb].
    destruct (decide (ac_buffer_sz w2 < AC_BUFFER_CAP)) as [Hroom|Hfull].
    + destruct (ac_buffer_push_ok (char_of_index k) w2 Hok2 Hroom)
        as (w3 & Hpush & HT3 & _ & Hs3 & Hok3 & _).
      rewrite (bind_eq _ _ _ _ _ Hpush).
      rewrite (bind_eq _ _ _ _ _ (Hl w3 ltac:(congruence))).
      unfold bind.
      rewrite (IH fuel c w3 j); try done; rewrite ?HT3, ?HT2; try done; try lia.
      rewrite Hs3, Hs2. rewrite length_cons, Nat2Z.inj_succ in Hdeep. cbn [length]. lia.
    + unfold bind, ac_buffer_push.
      replace (ac_buffer_sz w2 <? AC_BUFFER_CAP) with false
        by (symmetry; apply Z.ltb_ge; lia).
      by rewrite andb_false_r.
Qed.

(** X18: nothing bounds the length of a line.  In the trie built from
    [lines] (over the alphabet), when one line [l] is longer than
    [AC_BUFFER_CAP], the completion of any prefix [P] of [l] that fits the
    buffer is undefined: [find_prefix] finds the node of [P], and
    [print_suggestions] from it pushes a byte past the end of [ac_buffer]
    on its way to the node of [l], whatever the other lines are. *)
Theorem print_suggestions_long_line (h : list bool) (lines : list (list ascii)) (w : World)
    (P s : list ascii) (fuel : nat) :
  alphabet_lines lines = true → build lines (initial_world h) = Returns true w →
  P ++ s ∈ lines → AC_BUFFER_CAP < Z.of_nat (length (P ++ s)) →
  Z.of_nat (length P) ≤ AC_BUFFER_CAP → count (Trie w) ≤ Z.of_nat fuel →
  ∃ idx w1, find_prefix 0 P w = Returns idx w1 ∧ idx ≠ INVALID_OFFSET ∧
            print_suggestions fuel idx w1 = Undefined.
Proof.
  intros Hal Hb Hin Hlong HP Hfuel.
  destruct (build_facts h lines w Hal Hb)
    as (Hpr & Hok & Hsz & Htxt & name & HI & Hm & Hp & Hcov).
  assert (H0 : 0 ≤ 0 < count (Trie w)) by (pose proof (inv_count _ _ HI); lia).
  destruct (Hp _ Hin) as (j & Hj & Hnj).
  pose proof (inv_reach _ _ HI j Hj) as Hw. rewrite Hnj in Hw.
  unfold offsets in Hw. rewrite fmap_app in Hw. fold (offsets P) (offsets s) in Hw.
  rewrite walk_app in Hw.
  destruct (walk (Trie w) 0 (offsets P)) as [idx|] eqn:HwP; [|done].
  destruct (walk_name _ _ _ _ _ HI H0 HwP) as [Hidx _].
  destruct (find_prefix_found w 0 P idx HwP Hok ltac:(lia))
    as (w1 & Hfp & HT1 & _ & Hs1 & Hok1 & _).
  exists idx, w1. split_and!; [done|unfold INVALID_OFFSET; lia|].
  apply (print_suggestions_deep name (offsets s) fuel idx w1 j); rewrite ?HT1; try done.
  - lia.
  - rewrite Hs1, Hsz. unfold offsets. rewrite length_fmap. rewrite length_app in Hlong. lia.
Qed.

Lemma print_suggestions_long_line_witness :
  ∃ idx w1,
    find_prefix 0 []
      (world_of (build [replicate 2049 "a"%char] (initial_world [])) (initial_world []))
    = Returns idx w1 ∧ idx ≠ INVALID_OFFSET ∧
    print_suggestions 2050 idx w1 = Undefined.
Proof.
  refine (print_suggestions_long_line [] [replicate 2049 "a"%char]
            (world_of (build [replicate 2049 "a"%char] (initial_world [])) (initial_world []))
            [] (replicate 2049 "a"%char) 2050 _ _ _ _ _ _).
  - vm_compute. reflexivity.
  - apply returns_bool_eq. vm_compute. reflexivity.
  - left.
  - vm_compute. reflexivity.
  - vm_compute. discriminate.
  - vm_compute. discriminate.
Defined.

(** X19: [find_prefix] has no check on the bytes of the prefix.  When the
    trie matches the bytes [u] of the prefix and the next byte is neither
    NUL nor in the alphabet 32..126, the child table is read outside its
    bounds, which C does not define. *)
Theorem find_prefix_foreign_byte (w : World) (root_idx : Z) (u : list ascii) (ch : ascii)
    (rest : list ascii) (j : Z) :
  walk (Trie w) root_idx (offsets u) = Some j → buffer_ok w →
  ac_buffer_sz w + Z.of_nat (length u) ≤ AC_BUFFER_CAP →
  printableb ch = false → is_nul ch = false →
  find_prefix root_idx (u ++ ch :: rest) w = Undefined.
Proof.
  intros Hw Hok Hroom Hch Hnul.
  destruct (find_prefix_walk u root_idx w j (ch :: rest) Hw Hok Hroom) as (w1 & -> & _).
  cbn [find_prefix]. rewrite Hnul. unfold bind. rewrite load_child_eq. unfold child.
  unfold printableb, offset in Hch.
  destruct (pool (Trie w1) !! j) as [n|]; [|done]. unfold node_child. by rewrite Hch.
Qed.

Lemma find_prefix_foreign_byte_witness :
  find_prefix 0 (word "ca" ++ ascii_of_nat 9 :: word "t") demo_world = Undefined.
Proof.
  refine (find_prefix_foreign_byte demo_world 0 (word "ca") (ascii_of_nat 9) (word "t") 2
            _ _ _ _ _).
  - vm_compute. reflexivity.
  - split; [split|]; vm_compute; [discriminate|discriminate|reflexivity].
  - vm_compute. discriminate.
  - vm_compute. reflexivity.
  - vm_compute. reflexivity.
Defined.

(** X20: [main] with [--svg], end to end.  The options are accepted with
    [-s]; the input holds the lines [lines]; no allocation fails and the
    DOT file can be opened.  With a prefix that starts no line, [main]
    returns [EXIT_FAILURE] without opening the DOT file.  Otherwise the sink
    receives the statements of the subtree of the prefix (of the whole trie
    without [-p]), up to their order, and [main] returns [EXIT_SUCCESS]
    exactly when [fclose] and [dot] succeeded.  Nothing goes to stdout. *)
Theorem main_svg (fuel : nat) (env : Host) (prog : string)
    (results : list getopt_result) (optind : Z) (operands : list string)
    (bytes : list ascii) (lines : list (list ascii)) (options : flags)
    (prefix : option (list ascii)) (h : list bool) (w0 : World)
    (opened closed : list host_call) :
  parse_options prog results no_flags None (initial_world h) = Returns (options, prefix) w0 →
  sflag options = true →
  main_input env operands = (Some (mkStream bytes false false), opened, closed) →
  forallb id h = true → fopen_w_ok env = true →
  lines ≠ [] → alphabet_lines lines = true → lines_fit lines = true →
  terminated bytes = unlines lines →
  forallb printableb (default [] prefix) = true →
  (length bytes < fuel)%nat → Z.of_nat (length bytes) < INT32_MAX →
  ∃ status calls w T,
    main fuel env (Some prog) results optind operands (initial_world h)
    = Returns (status,
               opened ++ (calls ++ (if negb (kflag options) then [Remove OUTPUT_DOT_FILE]
                                    else [])) ++ closed) w ∧
    stdout w = [] ∧ Trie w = T ∧
    match walk T 0 (offsets (default [] prefix)) with
    | Some idx =>
      (∃ l, l ∈ lines ∧ default [] prefix `prefix_of` l) ∧
      calls = dot_calls idx (match prefix with Some p => p | None => word "root" end)
              ++ (if fclose_ok env then [System dot_command] else []) ∧
      (status = EXIT_SUCCESS ↔ fclose_ok env && (system_status env =? 0) = true) ∧
      ∃ stm, sink w = stm ∧ stm ≡ₚ prefix_stmts fuel T idx
    | None =>
      (¬ ∃ l, l ∈ lines ∧ default [] prefix `prefix_of` l) ∧
      status = EXIT_FAILURE ∧ calls = [] ∧ sink w = [] ∧
      stderr w = ["Error: Unable to find prefix."%string]
    end.
Proof.
  intros Hparse Hsf Hin Hh Hopen Hne Hal Hfit Hterm HP Hfuel Hmax.
  pose proof Hparse as Hacc.
  apply parse_options_flags in Hacc as (_ & Hc).
  assert (Hcf : cflag options = false).
  { destruct (cflag options); [|done]. destruct (Hc eq_refl) as [? _]. congruence. }
  destruct (main_run fuel env prog results optind operands bytes lines options prefix h w0
              opened closed Hparse ltac:(by rewrite Hsf) Hin Hh Hne Hal Hterm Hfuel Hmax)
    as (h' & w & Hbuild & Hcount & Herr & Hout & Hsink & Hmain).
  destruct (build_facts h' lines w Hal Hbuild)
    as (Hpr & Hok & Hsz & Htxt & name & HI & Hm & Hp & Hcov).
  destruct (process_args_svg_inv name lines w prefix fuel env options OUTPUT_DOT_FILE
              HI Hp Hcov (covered_shallow _ _ _ HI Hcov Hfit) Hpr Hok Hsz
              (Forall_printableb _ HP) Hcount Hsf Hcf Hopen)
    as (rv & calls & w' & Hproc & HT' & Ho' & Hiff & Hres).
  exists (if rv then EXIT_SUCCESS else EXIT_FAILURE), calls, w', (Trie w).
  split_and!; try done.
  - rewrite Hmain. by rewrite (bind_eq _ _ _ _ _ Hproc).
  - congruence.
  - assert (Hl : (∃ l, l ∈ lines ∧ default [] prefix `prefix_of` l)
                 ↔ is_Some (walk (Trie w) 0 (offsets (default [] prefix)))).
    { rewrite Hiff. split; [by right|]. intros [->|H]; [|done].
      destruct lines as [|l lines]; [done|]. exists l. split; [left|apply prefix_nil]. }
    destruct (walk (Trie w) 0 (offsets (default [] prefix))) as [idx|].
    + destruct Hres as (-> & -> & stm & Hs & Hperm). split_and!.
      * by apply Hl.
      * done.
      * by destruct (fclose_ok env && (system_status env =? 0)).
      * exists stm. split; [by rewrite Hs, Hsink|done].
    + destruct Hres as (-> & -> & Hs & He). split_and!; try done.
      * intros H%Hl. by destruct H.
      * congruence.
      * by rewrite He, Herr.
Qed.

Lemma main_svg_witness :
  ∃ status calls w T,
    main 20 (mkHost true true 0
               (λ _, Some (mkStream (unlines demo_lines) false false))
               (mkStream [] false false))
         (Some "auto-complete"%string) [Opt_s; Opt_p (word "ca")] 4 ["words.txt"%string]
         (initial_world [])
    = Returns (status,
               [Fopen "words.txt" "r"] ++ (calls ++ [Remove OUTPUT_DOT_FILE])
               ++ [Fclose "words.txt"]) w ∧
    stdout w = [] ∧ Trie w = T ∧
    match walk T 0 (offsets (word "ca")) with
    | Some idx =>
      (∃ l, l ∈ demo_lines ∧ word "ca" `prefix_of` l) ∧
      calls = dot_calls idx (word "ca") ++ [System dot_command] ∧
      (status = EXIT_SUCCESS ↔ true = true) ∧
      ∃ stm, sink w = stm ∧ stm ≡ₚ prefix_stmts 20 T idx
    | None =>
      (¬ ∃ l, l ∈ demo_lines ∧ word "ca" `prefix_of` l) ∧
      status = EXIT_FAILURE ∧ calls = [] ∧ sink w = [] ∧
      stderr w = ["Error: Unable to find prefix."%string]
    end.
Proof.
  refine (main_svg 20
            (mkHost true true 0 (λ _, Some (mkStream (unlines demo_lines) false false))
                    (mkStream [] false false))
            "auto-complete" [Opt_s; Opt_p (word "ca")] 4 ["words.txt"%string]
            (unlines demo_lines) demo_lines (mkFlags false false true false true)
            (Some (word "ca")) [] (initial_world [])
            [Fopen "words.txt" "r"] [Fclose "words.txt"] _ _ _ _ _ _ _ _ _ _ _ _).
  - vm_compute. reflexivity.
  - reflexivity.
  - reflexivity.
  - reflexivity.
  - reflexivity.
  - discriminate.
  - vm_compute. reflexivity.
  - vm_compute. reflexivity.
  - vm_compute. reflexivity.
  - vm_compute. reflexivity.
  - vm_compute. lia.
  - vm_compute. reflexivity.
Defined.

(** * The size of the trie *)

(** The text that leads to a node of a trie that represents [lines]. *)
Lemma node_text T name lines i :
  trie_inv T name → covered T name lines → Forall (Forall printable) lines →
  0 ≤ i < count T →
  ∃ P, name i = offsets P ∧ Forall printable P ∧
       (P = [] ∨ ∃ l, l ∈ lines ∧ P `prefix_of` l).
Proof.
  intros HI Hcov Hpr Hi. destruct (decide (i = 0)) as [->|Hne].
  - exists []. rewrite (inv_root _ _ HI). split_and!; [done|constructor|by left].
  - destruct (Hcov i ltac:(lia)) as (l & Hl & [k Hk]).
    assert (Hlp : Forall printable l) by (rewrite Forall_forall in Hpr; by apply Hpr).
    exists (take (length (name i)) l). split_and!.
    + unfold offsets in *. rewrite fmap_take, Hk. by rewrite take_app_length.
    + by apply Forall_take.
    + right. exists l. split; [done|]. exists (drop (length (name i)) l).
      by rewrite take_drop.
Qed.

(** X21: the pool holds one node for each distinct prefix of the lines, and
    no other.  In the trie built from [lines] (over the alphabet), the nodes
    in use are as many as the distinct texts that are empty (the root) or
    start one of the lines. *)
Theorem build_one_node_per_prefix (h : list bool) (lines : list (list ascii)) (w : World) :
  alphabet_lines lines = true → build lines (initial_world h) = Returns true w →
  ∃ texts : list (list ascii),
    NoDup texts ∧ Z.of_nat (length texts) = count (Trie w) ∧
    ∀ P, P ∈ texts ↔ P = [] ∨ ∃ l, l ∈ lines ∧ P `prefix_of` l.
Proof.
  intros Hal Hb.
  destruct (build_facts h lines w Hal Hb) as (Hpr & _ & _ & _ & name & HI & Hm & Hp & Hcov).
  assert (H0 : 0 ≤ 0 < count (Trie w)) by (pose proof (inv_count _ _ HI); lia).
  exists ((λ i, char_of_index <$> name i) <$> seqZ 0 (count (Trie w))). split_and!.
  - apply NoDup_fmap_2_strong; [|apply NoDup_seqZ].
    intros i j Hi%elem_of_seqZ Hj%elem_of_seqZ Heq.
    destruct (node_text (Trie w) name lines i HI Hcov Hpr ltac:(lia)) as (Pi & Hni & Hpi & _).
    destruct (node_text (Trie w) name lines j HI Hcov Hpr ltac:(lia)) as (Pj & Hnj & Hpj & _).
    rewrite Hni, Hnj, !chars_offsets in Heq by done.
    apply (name_inj (Trie w) name); [done|lia|lia|]. congruence.
  - rewrite length_fmap, length_seqZ. lia.
  - intros P. rewrite list_elem_of_fmap. split.
    + intros (i & -> & Hi%elem_of_seqZ).
      destruct (node_text (Trie w) name lines i HI Hcov Hpr ltac:(lia)) as (Pi & Hni & Hpi & Hres).
      by rewrite Hni, chars_offsets.
    + intros Hres.
      assert (HP : Forall printable P).
      { destruct Hres as [->|(l & Hl & [s ->])]; [constructor|].
        rewrite Forall_forall in Hpr. specialize (Hpr _ Hl).
        by apply Forall_app in Hpr as [? _]. }
      destruct (proj2 (walk_iff_prefix _ name lines P HI Hp Hcov Hpr HP) Hres) as [i Hw].
      destruct (walk_name _ _ _ _ _ HI H0 Hw) as [Hi Hn].
      rewrite (inv_root _ _ HI) in Hn. cbn [app] in Hn.
      exists i. split; [by rewrite Hn, chars_offsets|]. apply elem_of_seqZ. lia.
Qed.

Lemma build_one_node_per_prefix_witness :
  ∃ texts : list (list ascii),
    NoDup texts ∧ Z.of_nat (length texts) = count (Trie demo_world) ∧
    ∀ P, P ∈ texts ↔ P = [] ∨ ∃ l, l ∈ demo_lines ∧ P `prefix_of` l.
Proof.
  refine (build_one_node_per_prefix [] demo_lines demo_world _ _).
  - vm_compute. reflexivity.
  - vm_compute. reflexivity.
Defined.
